(** * Routing engine: hierarchical shortcut graph, H3 pruning and
      bidirectional search

    A shallow embedding of [cpp/src/h3_utils.cpp],
    [cpp/src/shortcut_graph.cpp] and the command line of [cpp/src/main.cpp].

    Conventions.
    - [uint32_t] edge identifiers, [uint64_t] cell identifiers and [int]
      resolutions are integers of [Z]; the only arithmetic the engine does on
      them is the decrement of a positive resolution and the narrowing casts
      of the loader, which are written out with [Z.modulo].
    - [double] enters the engine through [+], [<], [>], [>=] and the constants
      [0.0], [-1] and [infinity] only.  The engine is written over that
      signature ([DoubleOps]); [binary64] instantiates it with the kernel's
      IEEE 754 binary64 numbers.  What the searches compute is proved for
      every instance on whose valid values [<] is a total order and [+] is
      monotone and never decreases its arguments ([CostLaws]), and
      [binary64] is shown to be one on the costs that are not NaN and carry
      no negative sign ([binary64_laws]), from the specification of the
      kernel's floats in [FloatAxioms].
    - [std::unordered_map] is a [gmap]; the engine never iterates over one.
    - [std::vector] is a [list]; [v[i]] is the list lookup.
    - The H3 library is not part of the repository; its two entry points the
      code calls form the interface [H3Api]. *)

From Stdlib Require Import ZArith Lia Bool Ascii.
From Stdlib Require Import Floats.
From stdpp Require Import gmap list strings.

Local Open Scope Z_scope.

(** ** Double arithmetic *)

Class DoubleOps (D : Type) := {
  dzero : D;                 (* 0.0 *)
  dneg1 : D;                 (* -1 converted to double *)
  dinf : D;                  (* std::numeric_limits<double>::infinity() *)
  dadd : D -> D -> D;        (* a + b *)
  dlt : D -> D -> bool;      (* a < b *)
  dle : D -> D -> bool       (* a <= b *)
}.

(** [a > b] and [a >= b] of C++ are [b < a] and [b <= a]. *)
Definition dgt `{DoubleOps D} (a b : D) : bool := dlt b a.
Definition dge `{DoubleOps D} (a b : D) : bool := dle b a.

#[export] Instance binary64 : DoubleOps float := {|
  dzero := 0%float;
  dneg1 := (-1)%float;
  dinf := infinity;
  dadd := PrimFloat.add;
  dlt := PrimFloat.ltb;
  dle := PrimFloat.leb
|}.

(** ** The H3 entry points used by the engine *)

(** [getResolution] is total; [cellToParent] reports an error code, [None]
    standing for any code other than [E_SUCCESS]. *)
Class H3Api := {
  getResolution : Z -> Z;
  cellToParent : Z -> Z -> option Z
}.

(** What the engine relies on from H3: resolutions are never negative, and a
    parent computed at a resolution has that resolution. *)
Class H3Laws (h3 : H3Api) : Prop := {
  getResolution_nonneg : forall c, 0 <= getResolution c;
  cellToParent_resolution :
    forall c r p, cellToParent c r = Some p -> p <> 0 -> getResolution p = r
}.

(** A reference implementation following the H3 index layout: bits 52..55
    hold the resolution, and the digit of resolution [i] (1..15) sits at bit
    offset [3 * (15 - i)]; the parent at a coarser resolution rewrites the
    resolution field and sets every finer digit to 7. *)
Module H3Ref.

Definition MAX_H3_RES : Z := 15.
Definition H3_RES_OFFSET : Z := 52.
Definition H3_PER_DIGIT_OFFSET : Z := 3.
Definition H3_DIGIT_MASK : Z := 7.

Definition get_res (h : Z) : Z :=
  Z.land (Z.shiftr h H3_RES_OFFSET) 15.

Definition set_res (h res : Z) : Z :=
  Z.lor (Z.ldiff h (Z.shiftl 15 H3_RES_OFFSET)) (Z.shiftl res H3_RES_OFFSET).

Definition set_digit (h res digit : Z) : Z :=
  let off := (MAX_H3_RES - res) * H3_PER_DIGIT_OFFSET in
  Z.lor (Z.ldiff h (Z.shiftl H3_DIGIT_MASK off)) (Z.shiftl digit off).

(** Digits [r+1 .. r+n] set to 7. *)
Fixpoint fill_digits (n : nat) (r : Z) (h : Z) : Z :=
  match n with
  | O => h
  | S n' => fill_digits n' (r + 1) (set_digit h (r + 1) H3_DIGIT_MASK)
  end.

Definition cell_to_parent (h parentRes : Z) : option Z :=
  let childRes := get_res h in
  if (parentRes <? 0) || (MAX_H3_RES <? parentRes) then None
  else if childRes <? parentRes then None
  else if parentRes =? childRes then Some h
  else Some (fill_digits (Z.to_nat (childRes - parentRes)) parentRes
               (set_res h parentRes)).

Definition api : H3Api :=
  {| getResolution := get_res; cellToParent := cell_to_parent |}.

End H3Ref.

(** ** h3_utils.cpp *)

Section H3Utils.
Context {h3 : H3Api}.

Definition get_resolution (cell : Z) : Z :=
  if cell =? 0 then -1 else getResolution cell.

Definition cell_to_parent (cell target_res : Z) : Z :=
  if (cell =? 0) || (target_res <? 0) then 0
  else
    let current_res := getResolution cell in
    if target_res >=? current_res then cell
    else match cellToParent cell target_res with
         | Some parent => parent
         | None => 0
         end.

(** The loop of [find_lca]: [min_res] drops by one per round and the guard
    needs it positive, so [Z.to_nat min_res] rounds always suffice. *)
Fixpoint lca_climb (rounds : nat) (min_res c1 c2 : Z) : Z * Z :=
  match rounds with
  | O => (c1, c2)
  | S rounds' =>
      if negb (c1 =? c2) && (0 <? min_res) then
        let min_res' := min_res - 1 in
        lca_climb rounds' min_res'
          (cell_to_parent c1 min_res') (cell_to_parent c2 min_res')
      else (c1, c2)
  end.

Definition find_lca (cell1 cell2 : Z) : Z :=
  if (cell1 =? 0) || (cell2 =? 0) then 0
  else
    let res1 := getResolution cell1 in
    let res2 := getResolution cell2 in
    let min_res := if res1 <? res2 then res1 else res2 in
    let c1 := if min_res <? res1 then cell_to_parent cell1 min_res else cell1 in
    let c2 := if min_res <? res2 then cell_to_parent cell2 min_res else cell2 in
    let '(c1', c2') := lca_climb (Z.to_nat min_res) min_res c1 c2 in
    if c1' =? c2' then c1' else 0.

Definition parent_check (node_cell high_cell high_res : Z) : bool :=
  if (high_cell =? 0) || (high_res <? 0) then true
  else if node_cell =? 0 then false
  else
    let node_res := getResolution node_cell in
    if node_res <? high_res then false
    else cell_to_parent node_cell high_res =? high_cell.

End H3Utils.

(** ** shortcut_graph.hpp: records *)

Section Engine.
Context {D : Type} {dops : DoubleOps D} {h3 : H3Api}.

Record QueryResult := {
  distance : D;
  path : list Z;
  reachable : bool
}.

Record HighCell := {
  hc_cell : Z;
  hc_res : Z
}.

Record EdgeMeta := {
  incoming_cell : Z;
  outgoing_cell : Z;
  lca_res : Z;
  meta_length : D;
  meta_cost : D
}.

Record Shortcut := {
  sc_from : Z;
  sc_to : Z;
  sc_cost : D;
  sc_via_edge : Z;
  sc_cell : Z;
  sc_inside : Z
}.

Record ShortcutGraph := {
  shortcuts_ : list Shortcut;
  fwd_adj_ : gmap Z (list nat);
  bwd_adj_ : gmap Z (list nat);
  edge_meta_ : gmap Z EdgeMeta
}.

(** ** The priority queue

    [MinHeap] is [std::priority_queue] ordered by [std::greater<PQEntry>]:
    [top] is an entry that is [>] no other entry.  The queue is kept as the
    list of its entries in insertion order; among entries of equal
    distance, which the standard leaves unordered, the oldest is on top.
    What is proved of the distances rests only on [top] being least and
    [pop] removing it ([heap_pop_least], [heap_pop_perm]); which of two
    paths of equal cost an answer holds may depend on the order of ties. *)

Record PQEntry := {
  pq_dist : D;
  pq_edge : Z
}.

Definition entry_gt (a o : PQEntry) : bool := dgt (pq_dist a) (pq_dist o).

Definition MinHeap := list PQEntry.

Definition heap_push (e : PQEntry) (h : MinHeap) : MinHeap := h ++ [e].

(** [extract_min x l]: the top of the queue [x :: l] and what is left. *)
Fixpoint extract_min (x : PQEntry) (l : list PQEntry) : PQEntry * list PQEntry :=
  match l with
  | [] => (x, [])
  | y :: l' =>
      if entry_gt x y then
        let '(m, r) := extract_min y l' in (m, x :: r)
      else
        let '(m, r) := extract_min x l' in (m, y :: r)
  end.

(** [top()] followed by [pop()]; [None] on the empty queue. *)
Definition heap_pop (h : MinHeap) : option (PQEntry * MinHeap) :=
  match h with
  | [] => None
  | x :: l => Some (extract_min x l)
  end.

Definition heap_top (h : MinHeap) : option PQEntry :=
  fst <$> heap_pop h.

Definition heap_empty (h : MinHeap) : bool :=
  match h with [] => true | _ => false end.

(** ** Store accessors *)

Definition get_edge_cost (g : ShortcutGraph) (edge_id : Z) : D :=
  match edge_meta_ g !! edge_id with
  | Some m => meta_cost m
  | None => dzero
  end.

Definition get_edge_cell (g : ShortcutGraph) (edge_id : Z) : Z :=
  match edge_meta_ g !! edge_id with
  | Some m => incoming_cell m
  | None => 0
  end.

(** [adj.find(u)] followed by the iteration over the vector found; an
    absent key gives nothing to iterate over. *)
Definition adjacent (adj : gmap Z (list nat)) (u : Z) : list nat :=
  default [] (adj !! u).

Definition compute_high_cell (g : ShortcutGraph) (source_edge target_edge : Z) : HighCell :=
  match edge_meta_ g !! source_edge, edge_meta_ g !! target_edge with
  | Some src, Some dst =>
      let src_cell := incoming_cell src in
      let dst_cell := incoming_cell dst in
      let src_res := lca_res src in
      let dst_res := lca_res dst in
      if (src_cell =? 0) || (dst_cell =? 0) then {| hc_cell := 0; hc_res := -1 |}
      else
        let src_cell := if src_res >=? 0 then cell_to_parent src_cell src_res else src_cell in
        let dst_cell := if dst_res >=? 0 then cell_to_parent dst_cell dst_res else dst_cell in
        let lca := find_lca src_cell dst_cell in
        let res := if negb (lca =? 0) then get_resolution lca else -1 in
        {| hc_cell := lca; hc_res := res |}
  | _, _ => {| hc_cell := 0; hc_res := -1 |}
  end.

(** ** Search state

    The locals of a query: the two distance tables, the two parent tables,
    the two queues, and [best], [meeting], [found]. *)

Record Search := {
  dist_fwd : gmap Z D;
  dist_bwd : gmap Z D;
  parent_fwd : gmap Z Z;
  parent_bwd : gmap Z Z;
  pq_fwd : MinHeap;
  pq_bwd : MinHeap;
  best : D;
  meeting : Z;
  found : bool
}.

Definition set_pq_fwd (q : MinHeap) (st : Search) : Search :=
  {| dist_fwd := dist_fwd st; dist_bwd := dist_bwd st;
     parent_fwd := parent_fwd st; parent_bwd := parent_bwd st;
     pq_fwd := q; pq_bwd := pq_bwd st;
     best := best st; meeting := meeting st; found := found st |}.

Definition set_pq_bwd (q : MinHeap) (st : Search) : Search :=
  {| dist_fwd := dist_fwd st; dist_bwd := dist_bwd st;
     parent_fwd := parent_fwd st; parent_bwd := parent_bwd st;
     pq_fwd := pq_fwd st; pq_bwd := q;
     best := best st; meeting := meeting st; found := found st |}.

(** [dist_fwd[v] = nd; parent_fwd[v] = u; pq_fwd.push({nd, v});] *)
Definition update_fwd (v : Z) (nd : D) (u : Z) (st : Search) : Search :=
  {| dist_fwd := <[v := nd]> (dist_fwd st); dist_bwd := dist_bwd st;
     parent_fwd := <[v := u]> (parent_fwd st); parent_bwd := parent_bwd st;
     pq_fwd := heap_push {| pq_dist := nd; pq_edge := v |} (pq_fwd st);
     pq_bwd := pq_bwd st;
     best := best st; meeting := meeting st; found := found st |}.

(** [dist_bwd[v] = nd; parent_bwd[v] = u; pq_bwd.push({nd, v});] *)
Definition update_bwd (v : Z) (nd : D) (u : Z) (st : Search) : Search :=
  {| dist_fwd := dist_fwd st; dist_bwd := <[v := nd]> (dist_bwd st);
     parent_fwd := parent_fwd st; parent_bwd := <[v := u]> (parent_bwd st);
     pq_fwd := pq_fwd st;
     pq_bwd := heap_push {| pq_dist := nd; pq_edge := v |} (pq_bwd st);
     best := best st; meeting := meeting st; found := found st |}.

(** [if (total < best) { best = total; meeting = m; found = true; }] *)
Definition meet (total : D) (m : Z) (st : Search) : Search :=
  if dlt total (best st) then
    {| dist_fwd := dist_fwd st; dist_bwd := dist_bwd st;
       parent_fwd := parent_fwd st; parent_bwd := parent_bwd st;
       pq_fwd := pq_fwd st; pq_bwd := pq_bwd st;
       best := total; meeting := m; found := true |}
  else st.

(** [it == dist.end() || nd < it->second] *)
Definition improves (dist : gmap Z D) (v : Z) (nd : D) : bool :=
  match dist !! v with
  | None => true
  | Some dv => dlt nd dv
  end.

(** [it != dist.end() && d > it->second] *)
Definition stale (dist : gmap Z D) (u : Z) (d : D) : bool :=
  match dist !! u with
  | None => false
  | Some du => dgt d du
  end.

(** The state in which every variant starts its loop, given what the
    seeding wrote. *)
Definition seeded (df db : gmap Z D) (pf pb : gmap Z Z) (qf qb : MinHeap) : Search :=
  {| dist_fwd := df; dist_bwd := db; parent_fwd := pf; parent_bwd := pb;
     pq_fwd := qf; pq_bwd := qb;
     best := dinf; meeting := 0; found := false |}.

(** ** Path reconstruction

    [parent[curr]] is [operator[]]: an absent key reads as 0 (and is
    inserted with that value, which no later read can tell apart).  A walk
    that ends visits no edge twice, and it can leave the keys of the table
    only through one absent edge and edge 0, so [size parent + 3] rounds
    are enough for every walk that ends; [None] is a walk that does not. *)

Definition parent_at (parent : gmap Z Z) (curr : Z) : Z :=
  default 0 (parent !! curr).

(** [while (parent_fwd[curr] != curr) { path.push_back(curr); curr =
    parent_fwd[curr]; } path.push_back(curr);] *)
Fixpoint walk_fwd (rounds : nat) (parent : gmap Z Z) (curr : Z) : option (list Z) :=
  match rounds with
  | O => None
  | S rounds' =>
      if parent_at parent curr =? curr then Some [curr]
      else cons curr <$> walk_fwd rounds' parent (parent_at parent curr)
  end.

(** [while (parent_bwd[curr] != curr) { curr = parent_bwd[curr];
    path.push_back(curr); }] *)
Fixpoint walk_bwd (rounds : nat) (parent : gmap Z Z) (curr : Z) : option (list Z) :=
  match rounds with
  | O => None
  | S rounds' =>
      if parent_at parent curr =? curr then Some []
      else cons (parent_at parent curr) <$> walk_bwd rounds' parent (parent_at parent curr)
  end.

Definition reconstruct (st : Search) : option (list Z) :=
  match walk_fwd (size (parent_fwd st) + 3) (parent_fwd st) (meeting st) with
  | None => None
  | Some up =>
      match walk_bwd (size (parent_bwd st) + 3) (parent_bwd st) (meeting st) with
      | None => None
      | Some down => Some (rev up ++ down)
      end
  end.

(** The tail shared by the three queries: [if (!found) return {-1, {},
    false};], the reconstruction, [return {best, path, true};]. *)
Definition finish (st : Search) : option QueryResult :=
  if negb (found st) then
    Some {| distance := dneg1; path := []; reachable := false |}
  else
    match reconstruct st with
    | Some p => Some {| distance := best st; path := p; reachable := true |}
    | None => None
    end.

(** ** query_classic *)

(** The relaxation of [query_classic], forward: what follows the filter
    in the body of the [for] loop, with the inline meeting test. *)
Definition classic_edge_fwd (d : D) (u : Z) (sc : Shortcut) (st : Search) : Search :=
  let nd := dadd d (sc_cost sc) in
  if improves (dist_fwd st) (sc_to sc) nd then
    let st1 := update_fwd (sc_to sc) nd u st in
    match dist_bwd st1 !! sc_to sc with
    | Some b => meet (dadd nd b) (sc_to sc) st1
    | None => st1
    end
  else st.

Definition classic_edge_bwd (d : D) (u : Z) (sc : Shortcut) (st : Search) : Search :=
  let nd := dadd d (sc_cost sc) in
  if improves (dist_bwd st) (sc_from sc) nd then
    let st1 := update_bwd (sc_from sc) nd u st in
    match dist_fwd st1 !! sc_from sc with
    | Some f => meet (dadd f nd) (sc_from sc) st1
    | None => st1
    end
  else st.

(** The body of the forward [for] loop, for the shortcut at position
    [idx] of the adjacency of [u], popped with distance [d].  A position
    past the end of [shortcuts_] is never stored by the loader. *)
Definition classic_relax_fwd (g : ShortcutGraph) (d : D) (u : Z)
    (st : Search) (idx : nat) : Search :=
  match shortcuts_ g !! idx with
  | None => st
  | Some sc =>
      if negb (sc_inside sc =? 1) then st
      else classic_edge_fwd d u sc st
  end.

Definition classic_relax_bwd (g : ShortcutGraph) (d : D) (u : Z)
    (st : Search) (idx : nat) : Search :=
  match shortcuts_ g !! idx with
  | None => st
  | Some sc =>
      if negb (sc_inside sc =? -1) && negb (sc_inside sc =? 0) then st
      else classic_edge_bwd d u sc st
  end.

(** A step returns the state and whether it left through [continue]. *)
Definition classic_forward (g : ShortcutGraph) (st : Search) : bool * Search :=
  match heap_pop (pq_fwd st) with
  | None => (false, st)
  | Some (e, rest) =>
      let st := set_pq_fwd rest st in
      let d := pq_dist e in
      let u := pq_edge e in
      if stale (dist_fwd st) u d then (true, st)
      else if dge d (best st) then (true, st)
      else (false, foldl (classic_relax_fwd g d u) st (adjacent (fwd_adj_ g) u))
  end.

Definition classic_backward (g : ShortcutGraph) (st : Search) : bool * Search :=
  match heap_pop (pq_bwd st) with
  | None => (false, st)
  | Some (e, rest) =>
      let st := set_pq_bwd rest st in
      let d := pq_dist e in
      let u := pq_edge e in
      if stale (dist_bwd st) u d then (true, st)
      else if dge d (best st) then (true, st)
      else (false, foldl (classic_relax_bwd g d u) st (adjacent (bwd_adj_ g) u))
  end.

(** The early-termination test at the end of the loop body. *)
Definition classic_exit (st : Search) : bool :=
  match heap_top (pq_fwd st), heap_top (pq_bwd st) with
  | Some tf, Some tb => dge (pq_dist tf) (best st) && dge (pq_dist tb) (best st)
  | None, None => true
  | _, _ => false
  end.

(** One round of the [while] body: the state, and whether the round ended
    in [break]. *)
Definition classic_body (g : ShortcutGraph) (st : Search) : bool * Search :=
  match classic_forward g st with
  | (true, st1) => (false, st1)
  | (false, st1) =>
      match classic_backward g st1 with
      | (true, st2) => (false, st2)
      | (false, st2) => (classic_exit st2, st2)
      end
  end.

(** [while (!pq_fwd.empty() || !pq_bwd.empty()) body], at most [fuel]
    rounds; [None] when the rounds run out. *)
Fixpoint classic_loop (fuel : nat) (g : ShortcutGraph) (st : Search) : option Search :=
  if heap_empty (pq_fwd st) && heap_empty (pq_bwd st) then Some st
  else
    match fuel with
    | O => None
    | S fuel' =>
        match classic_body g st with
        | (true, st') => Some st'
        | (false, st') => classic_loop fuel' g st'
        end
    end.

(** The state after the seeding of the single-endpoint queries. *)
Definition single_init (g : ShortcutGraph) (source_edge target_edge : Z) : Search :=
  let target_cost := get_edge_cost g target_edge in
  seeded {[ source_edge := dzero ]} {[ target_edge := target_cost ]}
         {[ source_edge := source_edge ]} {[ target_edge := target_edge ]}
         (heap_push {| pq_dist := dzero; pq_edge := source_edge |} [])
         (heap_push {| pq_dist := target_cost; pq_edge := target_edge |} []).

Definition query_classic (fuel : nat) (g : ShortcutGraph)
    (source_edge target_edge : Z) : option QueryResult :=
  if source_edge =? target_edge then
    Some {| distance := get_edge_cost g source_edge;
            path := [source_edge]; reachable := true |}
  else
    match classic_loop fuel g (single_init g source_edge target_edge) with
    | None => None
    | Some st => finish st
    end.

(** ** query_pruned *)

(** The relaxation of [query_pruned] and [query_multi]: the same code in
    both, with no meeting test. *)
Definition edge_fwd (d : D) (u : Z) (sc : Shortcut) (st : Search) : Search :=
  let nd := dadd d (sc_cost sc) in
  if improves (dist_fwd st) (sc_to sc) nd
  then update_fwd (sc_to sc) nd u st
  else st.

Definition edge_bwd (d : D) (u : Z) (sc : Shortcut) (st : Search) : Search :=
  let nd := dadd d (sc_cost sc) in
  if improves (dist_bwd st) (sc_from sc) nd
  then update_bwd (sc_from sc) nd u st
  else st.

Definition pruned_relax_fwd (g : ShortcutGraph) (d : D) (u : Z)
    (st : Search) (idx : nat) : Search :=
  match shortcuts_ g !! idx with
  | None => st
  | Some sc =>
      if negb (sc_inside sc =? 1) then st
      else edge_fwd d u sc st
  end.

(** The backward filter: [allowed] after the three-way [if]. *)
Definition pruned_allowed (inside : Z) (check at_high : bool) : bool :=
  if (inside =? -1) && check then true
  else if (inside =? 0) && (at_high || negb check) then true
  else if (inside =? -2) && negb check then true
  else false.

Definition pruned_relax_bwd (g : ShortcutGraph) (check at_high : bool)
    (d : D) (u : Z) (st : Search) (idx : nat) : Search :=
  match shortcuts_ g !! idx with
  | None => st
  | Some sc =>
      if negb (pruned_allowed (sc_inside sc) check at_high) then st
      else edge_bwd d u sc st
  end.

Definition pruned_forward (g : ShortcutGraph) (high : HighCell) (st : Search)
    : bool * Search :=
  match heap_pop (pq_fwd st) with
  | None => (false, st)
  | Some (e, rest) =>
      let st := set_pq_fwd rest st in
      let d := pq_dist e in
      let u := pq_edge e in
      let st := match dist_bwd st !! u with
                | Some b => meet (dadd d b) u st
                | None => st
                end in
      if stale (dist_fwd st) u d then (true, st)
      else if dge d (best st) then (true, st)
      else
        let u_cell := get_edge_cell g u in
        if negb (parent_check u_cell (hc_cell high) (hc_res high)) then (true, st)
        else (false, foldl (pruned_relax_fwd g d u) st (adjacent (fwd_adj_ g) u))
  end.

Definition pruned_backward (g : ShortcutGraph) (high : HighCell) (st : Search)
    : bool * Search :=
  match heap_pop (pq_bwd st) with
  | None => (false, st)
  | Some (e, rest) =>
      let st := set_pq_bwd rest st in
      let d := pq_dist e in
      let u := pq_edge e in
      let st := match dist_fwd st !! u with
                | Some f => meet (dadd f d) u st
                | None => st
                end in
      if stale (dist_bwd st) u d then (true, st)
      else if dge d (best st) then (true, st)
      else
        let u_cell := get_edge_cell g u in
        let check := parent_check u_cell (hc_cell high) (hc_res high) in
        let at_high := u_cell =? hc_cell high in
        (false, foldl (pruned_relax_bwd g check at_high d u) st
                  (adjacent (bwd_adj_ g) u))
  end.

(** [!pq.empty() && pq.top().dist < best] *)
Definition can_improve (q : MinHeap) (b : D) : bool :=
  match heap_top q with
  | Some t => dlt (pq_dist t) b
  | None => false
  end.

Definition pruned_exit (st : Search) : bool :=
  if dlt (best st) dinf then
    negb (can_improve (pq_fwd st) (best st)) && negb (can_improve (pq_bwd st) (best st))
  else false.

Definition pruned_body (g : ShortcutGraph) (high : HighCell) (st : Search)
    : bool * Search :=
  match pruned_forward g high st with
  | (true, st1) => (false, st1)
  | (false, st1) =>
      match pruned_backward g high st1 with
      | (true, st2) => (false, st2)
      | (false, st2) => (pruned_exit st2, st2)
      end
  end.

Fixpoint pruned_loop (fuel : nat) (g : ShortcutGraph) (high : HighCell)
    (st : Search) : option Search :=
  if heap_empty (pq_fwd st) && heap_empty (pq_bwd st) then Some st
  else
    match fuel with
    | O => None
    | S fuel' =>
        match pruned_body g high st with
        | (true, st') => Some st'
        | (false, st') => pruned_loop fuel' g high st'
        end
    end.

Definition query_pruned (fuel : nat) (g : ShortcutGraph)
    (source_edge target_edge : Z) : option QueryResult :=
  if source_edge =? target_edge then
    Some {| distance := get_edge_cost g source_edge;
            path := [source_edge]; reachable := true |}
  else
    let high := compute_high_cell g source_edge target_edge in
    match pruned_loop fuel g high (single_init g source_edge target_edge) with
    | None => None
    | Some st => finish st
    end.

(** ** query_multi *)

Definition set_dist_fwd (m : gmap Z D) (st : Search) : Search :=
  {| dist_fwd := m; dist_bwd := dist_bwd st;
     parent_fwd := parent_fwd st; parent_bwd := parent_bwd st;
     pq_fwd := pq_fwd st; pq_bwd := pq_bwd st;
     best := best st; meeting := meeting st; found := found st |}.

Definition set_dist_bwd (m : gmap Z D) (st : Search) : Search :=
  {| dist_fwd := dist_fwd st; dist_bwd := m;
     parent_fwd := parent_fwd st; parent_bwd := parent_bwd st;
     pq_fwd := pq_fwd st; pq_bwd := pq_bwd st;
     best := best st; meeting := meeting st; found := found st |}.

(** [dist[u]] read through [operator[]]: the value, and the table with
    the key inserted at [0.0] when it was absent. *)
Definition dist_index (dist : gmap Z D) (u : Z) : D * gmap Z D :=
  match dist !! u with
  | Some du => (du, dist)
  | None => (dzero, <[u := dzero]> dist)
  end.

(** One round of the source seeding loop; [source_dists[i]] is read at the
    index of the edge. *)
Definition multi_seed_source (g : ShortcutGraph) (st : Search) (sd : Z * D) : Search :=
  let '(src, d) := sd in
  match edge_meta_ g !! src with
  | Some _ => update_fwd src d src st
  | None => st
  end.

Definition multi_seed_target (g : ShortcutGraph) (st : Search) (td : Z * D) : Search :=
  let '(tgt, td) := td in
  let d := dadd td (get_edge_cost g tgt) in
  match edge_meta_ g !! tgt with
  | Some _ => update_bwd tgt d tgt st
  | None => st
  end.

Definition multi_init (g : ShortcutGraph)
    (source_edges : list Z) (source_dists : list D)
    (target_edges : list Z) (target_dists : list D) : Search :=
  let st0 := seeded ∅ ∅ ∅ ∅ [] [] in
  let st1 := foldl (multi_seed_source g) st0 (zip source_edges source_dists) in
  foldl (multi_seed_target g) st1 (zip target_edges target_dists).

(** The forward [for] body of [query_multi]. *)
Definition multi_relax_fwd (g : ShortcutGraph) (d : D) (u : Z)
    (st : Search) (idx : nat) : Search :=
  match shortcuts_ g !! idx with
  | None => st
  | Some sc =>
      if negb (sc_inside sc =? 1) then st
      else edge_fwd d u sc st
  end.

Definition multi_forward (g : ShortcutGraph) (st : Search) : bool * Search :=
  match heap_pop (pq_fwd st) with
  | None => (false, st)
  | Some (e, rest) =>
      let st := set_pq_fwd rest st in
      let d := pq_dist e in
      let u := pq_edge e in
      let st := match dist_bwd st !! u with
                | Some b => meet (dadd d b) u st
                | None => st
                end in
      if dge d (best st) then (true, st)
      else
        let '(du, m) := dist_index (dist_fwd st) u in
        let st := set_dist_fwd m st in
        if dgt d du then (true, st)
        else (false, foldl (multi_relax_fwd g d u) st (adjacent (fwd_adj_ g) u))
  end.

(** The backward [for] body of [query_multi]; its filter is the one of
    [query_classic], its relaxation has no meeting test. *)
Definition multi_relax_bwd (g : ShortcutGraph) (d : D) (u : Z)
    (st : Search) (idx : nat) : Search :=
  match shortcuts_ g !! idx with
  | None => st
  | Some sc =>
      if negb (sc_inside sc =? -1) && negb (sc_inside sc =? 0) then st
      else edge_bwd d u sc st
  end.

Definition multi_backward (g : ShortcutGraph) (st : Search) : bool * Search :=
  match heap_pop (pq_bwd st) with
  | None => (false, st)
  | Some (e, rest) =>
      let st := set_pq_bwd rest st in
      let d := pq_dist e in
      let u := pq_edge e in
      let st := match dist_fwd st !! u with
                | Some f => meet (dadd f d) u st
                | None => st
                end in
      if dge d (best st) then (true, st)
      else
        let '(du, m) := dist_index (dist_bwd st) u in
        let st := set_dist_bwd m st in
        if dgt d du then (true, st)
        else (false, foldl (multi_relax_bwd g d u) st (adjacent (bwd_adj_ g) u))
  end.

(** [if (!pq.empty() && pq.top().dist >= best) while (!pq.empty())
    pq.pop();] *)
Definition drain (q : MinHeap) (b : D) : MinHeap :=
  match heap_top q with
  | Some t => if dge (pq_dist t) b then [] else q
  | None => q
  end.

Definition multi_drain (st : Search) : Search :=
  if dlt (best st) dinf then
    let st := set_pq_fwd (drain (pq_fwd st) (best st)) st in
    set_pq_bwd (drain (pq_bwd st) (best st)) st
  else st.

Definition multi_body (g : ShortcutGraph) (st : Search) : Search :=
  match multi_forward g st with
  | (true, st1) => st1
  | (false, st1) =>
      match multi_backward g st1 with
      | (true, st2) => st2
      | (false, st2) => multi_drain st2
      end
  end.

Fixpoint multi_loop (fuel : nat) (g : ShortcutGraph) (st : Search) : option Search :=
  if heap_empty (pq_fwd st) && heap_empty (pq_bwd st) then Some st
  else
    match fuel with
    | O => None
    | S fuel' => multi_loop fuel' g (multi_body g st)
    end.

Definition query_multi (fuel : nat) (g : ShortcutGraph)
    (source_edges : list Z) (source_dists : list D)
    (target_edges : list Z) (target_dists : list D) : option QueryResult :=
  match multi_loop fuel g
          (multi_init g source_edges source_dists target_edges target_dists) with
  | None => None
  | Some st => finish st
  end.

(** ** Loading shortcuts

    A Parquet table is the list of its chunks, a chunk the list of its
    rows.  A file that cannot be opened or read makes the Arrow macros
    throw; the exception leaves [load_shortcuts], which is [None] here. *)

Record ShortcutRow := {
  incoming_edge : Z;       (* int64 *)
  outgoing_edge : Z;       (* int64 *)
  row_cost : D;            (* float64 *)
  row_via_edge : Z;        (* int64 *)
  row_cell : Z;            (* int64 *)
  row_inside : Z           (* int8 *)
}.

Definition ParquetTable := list (list ShortcutRow).

Definition to_uint32 (v : Z) : Z := v mod 2 ^ 32.
Definition to_uint64 (v : Z) : Z := v mod 2 ^ 64.

Definition shortcut_of_row (r : ShortcutRow) : Shortcut :=
  {| sc_from := to_uint32 (incoming_edge r);
     sc_to := to_uint32 (outgoing_edge r);
     sc_cost := row_cost r;
     sc_via_edge := to_uint32 (row_via_edge r);
     sc_cell := to_uint64 (row_cell r);
     sc_inside := row_inside r |}.

(** [adj[key].push_back(idx)] *)
Definition adj_push (key : Z) (idx : nat) (adj : gmap Z (list nat)) : gmap Z (list nat) :=
  <[key := default [] (adj !! key) ++ [idx]]> adj.

(** The three containers [load_parquet_file] fills. *)
Record Adjacency := {
  adj_shortcuts : list Shortcut;
  adj_fwd : gmap Z (list nat);
  adj_bwd : gmap Z (list nat)
}.

Definition load_row (a : Adjacency) (r : ShortcutRow) : Adjacency :=
  let sc := shortcut_of_row r in
  let idx := length (adj_shortcuts a) in
  {| adj_shortcuts := adj_shortcuts a ++ [sc];
     adj_fwd := adj_push (sc_from sc) idx (adj_fwd a);
     adj_bwd := adj_push (sc_to sc) idx (adj_bwd a) |}.

Definition load_parquet_file (file : option ParquetTable) (a : Adjacency)
    : option Adjacency :=
  match file with
  | None => None
  | Some table => Some (foldl (foldl load_row) a table)
  end.

(** What [path] names: a directory, listed as its entries (whether the
    name ends in [.parquet], and the file), or anything else. *)
Inductive ShortcutPath :=
| Directory (entries : list (bool * option ParquetTable))
| SingleFile (file : option ParquetTable).

Fixpoint load_directory (entries : list (bool * option ParquetTable))
    (a : Adjacency) : option Adjacency :=
  match entries with
  | [] => Some a
  | (is_parquet, file) :: rest =>
      if is_parquet then
        match load_parquet_file file a with
        | Some a' => load_directory rest a'
        | None => None
        end
      else load_directory rest a
  end.

Definition load_shortcuts (p : ShortcutPath) (g : ShortcutGraph)
    : option (bool * ShortcutGraph) :=
  let cleared := {| adj_shortcuts := []; adj_fwd := ∅; adj_bwd := ∅ |} in
  let loaded := match p with
                | Directory entries => load_directory entries cleared
                | SingleFile file => load_parquet_file file cleared
                end in
  match loaded with
  | None => None
  | Some a =>
      Some (match adj_shortcuts a with [] => false | _ :: _ => true end,
            {| shortcuts_ := adj_shortcuts a;
               fwd_adj_ := adj_fwd a;
               bwd_adj_ := adj_bwd a;
               edge_meta_ := edge_meta_ g |})
  end.

End Engine.

(** ** Loading edge metadata *)

(** The conversions of [<string>] the loader calls; [None] is a thrown
  [std::invalid_argument] or [std::out_of_range]. *)
Class StdParse (D : Type) := {
stoul : string -> option Z;     (* unsigned long *)
stoull : string -> option Z;    (* unsigned long long *)
stoi : string -> option Z;      (* int *)
stod : string -> option D       (* double *)
}.

Section Metadata.
Context {D : Type} {dops : DoubleOps D} {parse : StdParse D}.

Definition newline : ascii := Ascii.ascii_of_nat 10.
Definition quote : ascii := Ascii.ascii_of_nat 34.
Definition comma : ascii := Ascii.ascii_of_nat 44.

(** The lines successive [std::getline] calls read from a stream holding
    [content]: [getline_from line rest] has read [line] (reversed) of the
    current line already.  The last line needs no newline; the stream
    fails when nothing is left. *)
Fixpoint getline_from (line : list ascii) (content : string) : list string :=
  match content with
  | EmptyString =>
      match line with
      | [] => []
      | _ :: _ => [String.string_of_list_ascii (rev line)]
      end
  | String c rest =>
      if Ascii.eqb c newline then
        String.string_of_list_ascii (rev line) :: getline_first rest
      else getline_from (c :: line) rest
  end
with getline_first (content : string) : list string :=
  match content with
  | EmptyString => []
  | String c rest =>
      if Ascii.eqb c newline then EmptyString :: getline_first rest
      else getline_from [c] rest
  end.

Definition getlines (content : string) : list string := getline_first content.

(** The locals of the character loop: [row], [field], [in_quotes]. *)
Record CsvState := {
  csv_row : list string;
  csv_field : string;
  csv_in_quotes : bool
}.

Definition csv_char (s : CsvState) (c : ascii) : CsvState :=
  if Ascii.eqb c quote then
    {| csv_row := csv_row s; csv_field := csv_field s;
       csv_in_quotes := negb (csv_in_quotes s) |}
  else if Ascii.eqb c comma && negb (csv_in_quotes s) then
    {| csv_row := csv_row s ++ [csv_field s]; csv_field := EmptyString;
       csv_in_quotes := csv_in_quotes s |}
  else
    {| csv_row := csv_row s; csv_field := csv_field s +:+ String c EmptyString;
       csv_in_quotes := csv_in_quotes s |}.

Definition split_row (line : string) : list string :=
  let s := foldl csv_char
             {| csv_row := []; csv_field := EmptyString; csv_in_quotes := false |}
             (String.list_ascii_of_string line) in
  csv_row s ++ [csv_field s].

(** The [try] block: the identifier and the record, or [None] when a
    conversion throws.  [row] has at least 11 fields. *)
Definition parse_meta (row : list string) : option (Z * @EdgeMeta D) :=
  let col i := default EmptyString (row !! i) in
  match stoul (col 10%nat) with
  | None => None
  | Some id =>
    match stoull (col 7%nat) with
    | None => None
    | Some ic =>
      match stoull (col 8%nat) with
      | None => None
      | Some oc =>
        match stoi (col 9%nat) with
        | None => None
        | Some lr =>
          match stod (col 2%nat) with
          | None => None
          | Some len =>
            match stod (col 6%nat) with
            | None => None
            | Some c =>
                Some (to_uint32 id,
                      {| incoming_cell := ic; outgoing_cell := oc; lca_res := lr;
                         meta_length := len; meta_cost := c |})
            end
          end
        end
      end
    end
  end.

(** What one line contributes: [Some (id, meta)] when the row is stored. *)
Definition parse_line (line : string) : option (Z * @EdgeMeta D) :=
  let row := split_row line in
  if (11 <=? length row)%nat then parse_meta row else None.

(** The body of the [while (std::getline(file, line))] loop. *)
Definition load_meta_line (m : gmap Z (@EdgeMeta D)) (line : string) : gmap Z (@EdgeMeta D) :=
  match parse_line line with
  | Some (id, meta) => <[id := meta]> m
  | None => m
  end.

Definition set_edge_meta (m : gmap Z (@EdgeMeta D)) (g : @ShortcutGraph D) : @ShortcutGraph D :=
  {| shortcuts_ := shortcuts_ g; fwd_adj_ := fwd_adj_ g; bwd_adj_ := bwd_adj_ g;
     edge_meta_ := m |}.

(** [file] is the content of the file at [path], [None] when it cannot be
    opened.  The result is the return value and the store afterwards. *)
Definition load_edge_metadata (file : option string) (g : @ShortcutGraph D)
    : bool * @ShortcutGraph D :=
  match file with
  | None => (false, g)
  | Some content =>
      let data := tail (getlines content) in
      let m := foldl load_meta_line ∅ data in
      (negb (bool_decide (m = ∅)), set_edge_meta m g)
  end.

End Metadata.

(** * Properties *)

(** ** The reference H3 layout satisfies [H3Laws] *)

Module H3RefFacts.
Import H3Ref.

Lemma get_res_range h : 0 <= get_res h <= 15.
Proof.
  unfold get_res. split.
  - apply Z.land_nonneg. right. lia.
  - change 15 with (Z.ones 4) at 1. rewrite Z.land_ones by lia.
    pose proof (Z.mod_pos_bound (Z.shiftr h H3_RES_OFFSET) (2 ^ 4)). lia.
Qed.

Lemma testbit_small a n :
  0 <= a -> a < 2 ^ n -> 0 <= n -> forall k, n <= k -> Z.testbit a k = false.
Proof.
  intros Ha Hlt Hn k Hk.
  destruct (Z.eq_dec a 0) as [->|Hne]; [apply Z.bits_0|].
  apply Z.bits_above_log2; [lia|].
  apply Z.log2_lt_pow2; [lia|].
  eapply Z.lt_le_trans; [exact Hlt|]. apply Z.pow_le_mono_r; lia.
Qed.

(** The resolution only reads bits 52..55. *)
Lemma get_res_ext h h' :
  (forall k, 52 <= k < 56 -> Z.testbit h' k = Z.testbit h k) ->
  get_res h' = get_res h.
Proof.
  intros H. unfold get_res, H3_RES_OFFSET. apply Z.bits_inj'. intros n Hn.
  rewrite !Z.land_spec, !Z.shiftr_spec by lia.
  destruct (Z_lt_le_dec n 4).
  - rewrite H by lia. reflexivity.
  - rewrite (testbit_small 15 4) by lia. rewrite !andb_false_r. reflexivity.
Qed.

Lemma get_res_set_digit h i d :
  1 <= i <= 15 -> 0 <= d < 8 -> get_res (set_digit h i d) = get_res h.
Proof.
  intros Hi Hd. apply get_res_ext. intros k Hk.
  unfold set_digit, MAX_H3_RES, H3_PER_DIGIT_OFFSET, H3_DIGIT_MASK.
  rewrite Z.lor_spec, Z.ldiff_spec, !Z.shiftl_spec by lia.
  rewrite (testbit_small 7 3) by lia.
  rewrite (testbit_small d 3) by lia.
  rewrite andb_true_r, orb_false_r. reflexivity.
Qed.

Lemma testbit_15_low n : 0 <= n < 4 -> Z.testbit 15 n = true.
Proof.
  intros Hn.
  assert (n = 0 \/ n = 1 \/ n = 2 \/ n = 3) as [->|[->|[->| ->]]] by lia;
    reflexivity.
Qed.

Lemma get_res_set_res h r : 0 <= r <= 15 -> get_res (set_res h r) = r.
Proof.
  intros Hr. unfold get_res, set_res, H3_RES_OFFSET.
  apply Z.bits_inj'. intros n Hn.
  rewrite Z.land_spec, Z.shiftr_spec by lia.
  rewrite Z.lor_spec, Z.ldiff_spec, !Z.shiftl_spec by lia.
  replace (n + 52 - 52) with n by lia.
  destruct (Z_lt_le_dec n 4).
  - rewrite testbit_15_low by lia.
    rewrite andb_false_r, andb_true_r. reflexivity.
  - rewrite (testbit_small 15 4) by lia. rewrite andb_false_r.
    symmetry. apply (testbit_small r 4); lia.
Qed.

Lemma get_res_fill_digits n : forall r h,
  0 <= r -> r + Z.of_nat n <= 15 -> get_res (fill_digits n r h) = get_res h.
Proof.
  induction n as [|n IH]; intros r h Hr Hn; [reflexivity|].
  cbn [fill_digits]. rewrite IH by lia.
  apply get_res_set_digit; unfold H3_DIGIT_MASK; lia.
Qed.

Lemma laws : H3Laws api.
Proof.
  split.
  - intros c. apply get_res_range.
  - intros c r p Hp _. change (cell_to_parent c r = Some p) in Hp.
    change (get_res p = r).
    unfold cell_to_parent, MAX_H3_RES in Hp.
    pose proof (get_res_range c) as Hc.
    destruct (Z.ltb_spec r 0) as [E1|E1]; [discriminate|].
    destruct (Z.ltb_spec 15 r) as [E2|E2]; [discriminate|].
    cbn [orb] in Hp.
    destruct (Z.ltb_spec (get_res c) r) as [E3|E3]; [discriminate|].
    destruct (Z.eqb_spec r (get_res c)) as [E4|E4].
    + apply (inj Some) in Hp. subst p. symmetry; exact E4.
    + apply (inj Some) in Hp. rewrite <- Hp.
      rewrite get_res_fill_digits by lia.
      apply get_res_set_res. lia.
Qed.

End H3RefFacts.

(** ** h3_utils.cpp: the cell hierarchy *)

Section H3UtilsFacts.
Context {h3 : H3Api}.

Lemma cell_to_parent_no_cell r : cell_to_parent 0 r = 0.
Proof. reflexivity. Qed.

Lemma cell_to_parent_negative c r : r < 0 -> cell_to_parent c r = 0.
Proof.
  intros Hr. unfold cell_to_parent.
  destruct (Z.ltb_spec r 0); [|lia]. rewrite orb_true_r. reflexivity.
Qed.

Lemma cell_to_parent_finer c r :
  c <> 0 -> 0 <= r -> getResolution c <= r -> cell_to_parent c r = c.
Proof.
  intros Hc Hr Hres. unfold cell_to_parent.
  destruct (Z.eqb_spec c 0); [contradiction|].
  destruct (Z.ltb_spec r 0); [lia|]. cbn [orb].
  destruct (Z.geb_spec r (getResolution c)); [reflexivity|lia].
Qed.

Lemma lca_climb_same rounds min_res c :
  lca_climb rounds min_res c c = (c, c).
Proof.
  destruct rounds as [|n]; [reflexivity|].
  cbn [lca_climb]. rewrite Z.eqb_refl. reflexivity.
Qed.

Lemma find_lca_same c : find_lca c c = c.
Proof.
  unfold find_lca. destruct (Z.eqb_spec c 0) as [->|Hc]; [reflexivity|].
  cbn [orb]. cbv zeta. rewrite !Z.ltb_irrefl.
  rewrite lca_climb_same, Z.eqb_refl. reflexivity.
Qed.

(** C4.  [parent_check], rule by rule in the order the code tests them:
    no pruning ([high_cell = 0] or [high_res < 0]) gives [true]; under
    pruning a node without cell gives [false]; a constraint finer than the
    node's resolution gives [false]; otherwise the answer is whether the
    node's ancestor at [high_res] is [high_cell]. *)
Theorem parent_check_rules (node_cell high_cell high_res : Z) :
  (high_cell = 0 \/ high_res < 0 ->
     parent_check node_cell high_cell high_res = true) /\
  (high_cell <> 0 /\ 0 <= high_res -> node_cell = 0 ->
     parent_check node_cell high_cell high_res = false) /\
  (high_cell <> 0 /\ 0 <= high_res -> get_resolution node_cell < high_res ->
     parent_check node_cell high_cell high_res = false) /\
  (high_cell <> 0 /\ 0 <= high_res -> node_cell <> 0 ->
     high_res <= get_resolution node_cell ->
     parent_check node_cell high_cell high_res
     = bool_decide (cell_to_parent node_cell high_res = high_cell)).
Proof.
  unfold parent_check, get_resolution.
  repeat split.
  - intros [-> | Hneg]; [reflexivity|].
    destruct (Z.ltb_spec high_res 0); [|lia]. rewrite orb_true_r. reflexivity.
  - intros [Hc Hr] ->.
    destruct (Z.eqb_spec high_cell 0); [contradiction|].
    destruct (Z.ltb_spec high_res 0); [lia|]. reflexivity.
  - intros [Hc Hr] Hres.
    destruct (Z.eqb_spec high_cell 0); [contradiction|].
    destruct (Z.ltb_spec high_res 0); [lia|]. cbn [orb].
    destruct (Z.eqb_spec node_cell 0); [reflexivity|].
    destruct (Z.ltb_spec (getResolution node_cell) high_res); [reflexivity|lia].
  - intros [Hc Hr] Hn Hres.
    destruct (Z.eqb_spec high_cell 0); [contradiction|].
    destruct (Z.ltb_spec high_res 0); [lia|]. cbn [orb].
    destruct (Z.eqb_spec node_cell 0); [contradiction|].
    destruct (Z.ltb_spec (getResolution node_cell) high_res); [lia|].
    destruct (Z.eqb_spec (cell_to_parent node_cell high_res) high_cell);
      [rewrite bool_decide_eq_true_2 | rewrite bool_decide_eq_false_2]; done.
Qed.

Context {h3_laws : H3Laws h3}.

Lemma cell_to_parent_idempotent c r :
  cell_to_parent (cell_to_parent c r) r = cell_to_parent c r.
Proof.
  destruct (Z.eq_dec c 0) as [->|Hc]; [reflexivity|].
  destruct (Z_lt_le_dec r 0) as [Hr|Hr].
  { rewrite (cell_to_parent_negative c r Hr). reflexivity. }
  destruct (Z_le_gt_dec (getResolution c) r) as [Hres|Hres].
  { rewrite (cell_to_parent_finer c r) by assumption.
    apply cell_to_parent_finer; assumption. }
  assert (cell_to_parent c r = default 0 (cellToParent c r)) as Heq.
  { unfold cell_to_parent.
    destruct (Z.eqb_spec c 0); [contradiction|].
    destruct (Z.ltb_spec r 0); [lia|]. cbn [orb].
    destruct (Z.geb_spec r (getResolution c)); [lia|].
    destruct (cellToParent c r); reflexivity. }
  rewrite Heq. destruct (cellToParent c r) as [p|] eqn:Hp; [|reflexivity].
  change (default 0 (Some p)) with p.
  destruct (Z.eq_dec p 0) as [->|Hp0]; [reflexivity|].
  pose proof (cellToParent_resolution c r p Hp Hp0).
  apply cell_to_parent_finer; [assumption|assumption|lia].
Qed.

Lemma cell_to_parent_own_resolution c :
  cell_to_parent c (get_resolution c) = c.
Proof.
  unfold get_resolution. destruct (Z.eqb_spec c 0) as [->|Hc]; [reflexivity|].
  pose proof (getResolution_nonneg c).
  apply cell_to_parent_finer; [assumption|lia|lia].
Qed.

Lemma parent_check_own_parent c r :
  parent_check c (cell_to_parent c r) r = true <-> c = 0 \/ r <= get_resolution c.
Proof.
  unfold get_resolution.
  destruct (Z.eqb_spec c 0) as [->|Hc].
  { split; [auto|reflexivity]. }
  pose proof (getResolution_nonneg c) as Hnn.
  destruct (Z_lt_le_dec r 0) as [Hr|Hr].
  { rewrite (cell_to_parent_negative c r Hr). split; [right; lia|reflexivity]. }
  destruct (Z_le_gt_dec r (getResolution c)) as [Hres|Hres].
  - split; [auto|intros _].
    unfold parent_check.
    destruct (Z.eqb_spec (cell_to_parent c r) 0); [reflexivity|].
    destruct (Z.ltb_spec r 0); [lia|]. cbn [orb].
    destruct (Z.eqb_spec c 0); [contradiction|].
    destruct (Z.ltb_spec (getResolution c) r); [lia|].
    apply Z.eqb_refl.
  - rewrite (cell_to_parent_finer c r) by lia.
    unfold parent_check.
    destruct (Z.eqb_spec c 0); [contradiction|].
    destruct (Z.ltb_spec r 0); [lia|]. cbn [orb].
    destruct (Z.ltb_spec (getResolution c) r); [|lia].
    split; [discriminate|intros [?|?]; [contradiction|lia]].
Qed.

(** C5, amended.  Under the H3 contract: taking the parent at [r] twice is
    taking it once; the parent at a cell's own resolution is the cell; the
    lowest common ancestor of a cell with itself is the cell; and a cell
    passes the check against its own parent at [r] exactly when it has no
    cell or [r] is not finer than its resolution. *)
Theorem cell_hierarchy_laws (c r : Z) :
  cell_to_parent (cell_to_parent c r) r = cell_to_parent c r /\
  cell_to_parent c (get_resolution c) = c /\
  find_lca c c = c /\
  (parent_check c (cell_to_parent c r) r = true <->
     c = 0 \/ r <= get_resolution c).
Proof.
  split; [apply cell_to_parent_idempotent|].
  split; [apply cell_to_parent_own_resolution|].
  split; [apply find_lca_same|apply parent_check_own_parent].
Qed.

End H3UtilsFacts.

(** ** The result contract of the queries *)

Section QueryFacts.
Context {D : Type} {dops : DoubleOps D} {h3 : H3Api}.

(** What a query returns when no meeting node was recorded. *)
Definition unreachable_result : @QueryResult D :=
  {| distance := dneg1; path := []; reachable := false |}.

Lemma finish_not_found (st : @Search D) :
  found st = false -> finish st = Some unreachable_result.
Proof. intros H. unfold finish. rewrite H. reflexivity. Qed.

(** C6.  A query from an edge to itself returns the edge's own cost, the
    one-edge path and [reachable = true], for every store and without
    entering the search loop (the fuel plays no role). *)
Theorem query_same_edge (fuel : nat) (g : @ShortcutGraph D) (s : Z) :
  query_classic fuel g s s
  = Some {| distance := get_edge_cost g s; path := [s]; reachable := true |} /\
  query_pruned fuel g s s
  = Some {| distance := get_edge_cost g s; path := [s]; reachable := true |}.
Proof.
  unfold query_classic, query_pruned. rewrite Z.eqb_refl. split; reflexivity.
Qed.

(** C8.  When the loop of a query ends with no meeting node recorded, the
    query returns distance -1, the empty path and [reachable = false]; this
    holds for the classic and the pruned search between distinct edges and
    for the multi-endpoint search. *)
Theorem search_exhausted_unreachable (fuel : nat) (g : @ShortcutGraph D) (s t : Z) :
  s <> t ->
  (forall st, classic_loop fuel g (single_init g s t) = Some st ->
              found st = false ->
              query_classic fuel g s t = Some unreachable_result) /\
  (forall st, pruned_loop fuel g (compute_high_cell g s t) (single_init g s t) = Some st ->
              found st = false ->
              query_pruned fuel g s t = Some unreachable_result) /\
  (forall ses sds tes tds st,
              multi_loop fuel g (multi_init g ses sds tes tds) = Some st ->
              found st = false ->
              query_multi fuel g ses sds tes tds = Some unreachable_result).
Proof.
  intros Hne. apply Z.eqb_neq in Hne.
  split; [|split].
  - intros st Hloop Hfound. unfold query_classic.
    rewrite Hne, Hloop. apply finish_not_found, Hfound.
  - intros st Hloop Hfound. unfold query_pruned.
    rewrite Hne, Hloop. apply finish_not_found, Hfound.
  - intros ses sds tes tds st Hloop Hfound. unfold query_multi.
    rewrite Hloop. apply finish_not_found, Hfound.
Qed.


End QueryFacts.

(** ** Loading shortcuts: the adjacency indices *)

Section LoaderFacts.
Context {D : Type}.

(** The positions of [l], counted from [i], whose shortcut has [key] equal
    to [e], in increasing order. *)
Fixpoint positions_from (key : @Shortcut D -> Z) (e : Z) (i : nat)
    (l : list (@Shortcut D)) : list nat :=
  match l with
  | [] => []
  | sc :: l' =>
      if key sc =? e then i :: positions_from key e (S i) l'
      else positions_from key e (S i) l'
  end.

Definition positions (key : @Shortcut D -> Z) (e : Z) (l : list (@Shortcut D)) : list nat :=
  positions_from key e 0 l.

(** An index entry: no key for no position. *)
Definition index_entry (l : list nat) : option (list nat) :=
  match l with
  | [] => None
  | _ :: _ => Some l
  end.

(** The index [adj] is exact for the shortcuts [l] under [key]. *)
Definition exact_index (key : @Shortcut D -> Z) (l : list (@Shortcut D))
    (adj : gmap Z (list nat)) : Prop :=
  forall e, adj !! e = index_entry (positions key e l).

Lemma positions_from_app key e l sc : forall i,
  positions_from key e i (l ++ [sc])
  = positions_from key e i l ++ (if key sc =? e then [(i + length l)%nat] else []).
Proof.
  induction l as [|x l IH]; intros i; cbn [positions_from app length].
  - rewrite Nat.add_0_r. destruct (key sc =? e); reflexivity.
  - rewrite IH. replace (S i + length l)%nat with (i + S (length l))%nat by lia.
    destruct (key x =? e); reflexivity.
Qed.

Lemma elem_of_positions_from key e l : forall i k,
  k ∈ positions_from key e i l <->
  exists j sc, k = (i + j)%nat /\ l !! j = Some sc /\ key sc = e.
Proof.
  induction l as [|x l IH]; intros i k; cbn [positions_from].
  - split; [intros H; inversion H|intros (j & sc & _ & H & _); discriminate].
  - destruct (Z.eqb_spec (key x) e) as [Hx|Hx].
    + rewrite elem_of_cons, IH. split.
      * intros [->|(j & sc & -> & Hj & Hk)].
        -- exists 0%nat, x. split; [lia|]. split; [reflexivity|assumption].
        -- exists (S j), sc. split; [lia|]. split; assumption.
      * intros ([|j] & sc & -> & Hj & Hk).
        -- left. lia.
        -- right. exists j, sc. split; [lia|]. split; assumption.
    + rewrite IH. split.
      * intros (j & sc & -> & Hj & Hk).
        exists (S j), sc. split; [lia|]. split; assumption.
      * intros ([|j] & sc & -> & Hj & Hk).
        -- cbn in Hj. inversion Hj; subst. contradiction.
        -- exists j, sc. split; [lia|]. split; assumption.
Qed.

Lemma positions_from_lower key e l : forall i k,
  k ∈ positions_from key e i l -> (i <= k)%nat.
Proof.
  intros i k H. apply elem_of_positions_from in H as (j & sc & -> & _). lia.
Qed.

Lemma NoDup_positions_from key e l : forall i, NoDup (positions_from key e i l).
Proof.
  induction l as [|x l IH]; intros i; cbn [positions_from]; [constructor|].
  destruct (key x =? e); [|apply IH].
  constructor; [|apply IH].
  intros H. apply positions_from_lower in H. lia.
Qed.

Lemma default_index_entry l : default [] (index_entry l) = l.
Proof. destruct l; reflexivity. Qed.

Lemma exact_index_push key l adj sc :
  exact_index key l adj ->
  exact_index key (l ++ [sc]) (adj_push (key sc) (length l) adj).
Proof.
  intros H e. unfold adj_push, positions. rewrite positions_from_app.
  destruct (Z.eqb_spec (key sc) e) as [<-|Hne].
  - rewrite lookup_insert_eq, H, default_index_entry. cbn [Nat.add].
    fold (positions key (key sc) l).
    destruct (positions key (key sc) l); reflexivity.
  - rewrite lookup_insert_ne by assumption. rewrite app_nil_r. apply H.
Qed.

(** What [load_parquet_file] keeps true of the three containers. *)
Definition exact_adjacency (a : @Adjacency D) : Prop :=
  exact_index sc_from (adj_shortcuts a) (adj_fwd a) /\
  exact_index sc_to (adj_shortcuts a) (adj_bwd a).

Lemma load_row_exact a r : exact_adjacency a -> exact_adjacency (load_row a r).
Proof.
  intros [Hf Hb]. split; cbn [load_row adj_shortcuts adj_fwd adj_bwd].
  - apply (exact_index_push sc_from), Hf.
  - apply (exact_index_push sc_to), Hb.
Qed.

Lemma load_chunk_exact rows : forall a,
  exact_adjacency a -> exact_adjacency (foldl load_row a rows).
Proof.
  induction rows as [|r rows IH]; intros a Ha; [exact Ha|].
  apply IH, load_row_exact, Ha.
Qed.

Lemma load_table_exact table : forall a,
  exact_adjacency a -> exact_adjacency (foldl (foldl load_row) a table).
Proof.
  induction table as [|rows table IH]; intros a Ha; [exact Ha|].
  apply IH, load_chunk_exact, Ha.
Qed.

Lemma load_parquet_file_exact file a a' :
  load_parquet_file file a = Some a' -> exact_adjacency a -> exact_adjacency a'.
Proof.
  destruct file as [table|]; [|discriminate].
  intros [= <-]. apply load_table_exact.
Qed.

Lemma load_directory_exact entries : forall a a',
  load_directory entries a = Some a' -> exact_adjacency a -> exact_adjacency a'.
Proof.
  induction entries as [|[is_parquet file] entries IH]; intros a a' Hload Ha.
  - injection Hload as <-. exact Ha.
  - cbn [load_directory] in Hload. destruct is_parquet; [|eapply IH; eassumption].
    destruct (load_parquet_file file a) as [a1|] eqn:Hfile; [|discriminate].
    eapply IH; [eassumption|]. eapply load_parquet_file_exact; eassumption.
Qed.

Lemma cleared_exact :
  exact_adjacency {| adj_shortcuts := []; adj_fwd := ∅; adj_bwd := ∅ |}.
Proof. split; intros e; apply lookup_empty. Qed.

Lemma load_shortcuts_exact p (g : @ShortcutGraph D) b g' :
  load_shortcuts p g = Some (b, g') ->
  exact_index sc_from (shortcuts_ g') (fwd_adj_ g') /\
  exact_index sc_to (shortcuts_ g') (bwd_adj_ g').
Proof.
  unfold load_shortcuts. intros H.
  destruct (match p with
            | Directory entries => load_directory entries _
            | SingleFile file => load_parquet_file file _
            end) as [a|] eqn:Hload; [|discriminate].
  assert (exact_adjacency a) as Ha.
  { destruct p.
    - eapply load_directory_exact; [eassumption|apply cleared_exact].
    - eapply load_parquet_file_exact; [eassumption|apply cleared_exact]. }
  injection H as _ <-. exact Ha.
Qed.

Lemma exact_index_elem key l adj e i :
  exact_index key l adj ->
  i ∈ adjacent adj e <-> exists sc, l !! i = Some sc /\ key sc = e.
Proof.
  intros H. unfold adjacent. rewrite H, default_index_entry.
  unfold positions. rewrite elem_of_positions_from. split.
  - intros (j & sc & -> & Hj & Hk). exists sc. split; assumption.
  - intros (sc & Hi & Hk). exists i, sc. split; [reflexivity|]. split; assumption.
Qed.

Lemma exact_index_absent key l adj e :
  exact_index key l adj ->
  adj !! e = None <-> forall sc, sc ∈ l -> key sc <> e.
Proof.
  intros H. rewrite H. split.
  - intros Hnone sc Hsc Hk. apply list_elem_of_lookup in Hsc as [i Hi].
    assert (i ∈ positions key e l) as Hin.
    { unfold positions. apply elem_of_positions_from.
      exists i, sc. split; [reflexivity|]. split; assumption. }
    destruct (positions key e l); [inversion Hin|discriminate].
  - intros Hall. destruct (positions key e l) as [|i ps] eqn:Hps; [reflexivity|].
    assert (i ∈ positions key e l) as Hin by (rewrite Hps; left).
    unfold positions in Hin. apply elem_of_positions_from in Hin as (j & sc & _ & Hj & Hk).
    exfalso. apply (Hall sc); [|assumption].
    apply list_elem_of_lookup. exists j. assumption.
Qed.

(** C9.  After [load_shortcuts] has returned, for every edge [e]: the
    forward index lists exactly the positions whose shortcut starts at [e]
    and the backward index exactly those whose shortcut ends at [e]; every
    listed position is inside the shortcut array and is listed once; and a
    key is absent exactly when no shortcut is incident to it on that side,
    in which case the adjacency iterated over is empty. *)
Theorem load_shortcuts_adjacency (p : @ShortcutPath D) (g g' : @ShortcutGraph D)
    (b : bool) (e : Z) :
  load_shortcuts p g = Some (b, g') ->
  (forall i, i ∈ adjacent (fwd_adj_ g') e <->
             exists sc, shortcuts_ g' !! i = Some sc /\ sc_from sc = e) /\
  (forall i, i ∈ adjacent (bwd_adj_ g') e <->
             exists sc, shortcuts_ g' !! i = Some sc /\ sc_to sc = e) /\
  (forall i, i ∈ adjacent (fwd_adj_ g') e \/ i ∈ adjacent (bwd_adj_ g') e ->
             (i < length (shortcuts_ g'))%nat) /\
  NoDup (adjacent (fwd_adj_ g') e) /\
  NoDup (adjacent (bwd_adj_ g') e) /\
  (fwd_adj_ g' !! e = None <-> forall sc, sc ∈ shortcuts_ g' -> sc_from sc <> e) /\
  (bwd_adj_ g' !! e = None <-> forall sc, sc ∈ shortcuts_ g' -> sc_to sc <> e) /\
  (fwd_adj_ g' !! e = None -> adjacent (fwd_adj_ g') e = []) /\
  (bwd_adj_ g' !! e = None -> adjacent (bwd_adj_ g') e = []).
Proof.
  intros Hload. apply load_shortcuts_exact in Hload as [Hf Hb].
  split; [intros i; apply exact_index_elem, Hf|].
  split; [intros i; apply exact_index_elem, Hb|].
  split.
  { intros i [Hi|Hi].
    - apply (exact_index_elem _ _ _ _ _ Hf) in Hi as (sc & Hi & _).
      eapply lookup_lt_Some, Hi.
    - apply (exact_index_elem _ _ _ _ _ Hb) in Hi as (sc & Hi & _).
      eapply lookup_lt_Some, Hi. }
  split.
  { unfold adjacent. rewrite Hf, default_index_entry. apply NoDup_positions_from. }
  split.
  { unfold adjacent. rewrite Hb, default_index_entry. apply NoDup_positions_from. }
  split; [apply exact_index_absent, Hf|].
  split; [apply exact_index_absent, Hb|].
  split; intros H; unfold adjacent; rewrite H; reflexivity.
Qed.

End LoaderFacts.

(** ** Loading edge metadata *)

Section MetadataFacts.
Context {D : Type} {dops : DoubleOps D} {parse : StdParse D}.

(** The data lines of a file: everything [std::getline] reads after the
    header. *)
Definition data_lines (content : string) : list string :=
  tail (getlines content).

Lemma load_meta_line_nonempty (m : gmap Z (@EdgeMeta D)) line :
  m <> ∅ -> load_meta_line m line <> ∅.
Proof.
  intros Hm. unfold load_meta_line.
  destruct (parse_line line) as [[id meta]|]; [|exact Hm].
  apply insert_non_empty.
Qed.

Lemma load_meta_lines_nonempty lines : forall m : gmap Z (@EdgeMeta D),
  m <> ∅ -> foldl load_meta_line m lines <> ∅.
Proof.
  induction lines as [|l lines IH]; intros m Hm; [exact Hm|].
  apply IH, load_meta_line_nonempty, Hm.
Qed.

Lemma load_meta_lines_empty lines :
  foldl load_meta_line (∅ : gmap Z (@EdgeMeta D)) lines = ∅ <->
  forall line, line ∈ lines -> parse_line line = None.
Proof.
  induction lines as [|l lines IH]; cbn [foldl].
  - split; [intros _ line H; inversion H|reflexivity].
  - unfold load_meta_line at 2.
    destruct (parse_line l) as [[id meta]|] eqn:Hl.
    + split.
      * intros H. exfalso. revert H. apply load_meta_lines_nonempty, insert_non_empty.
      * intros H. specialize (H l (list_elem_of_here _ _)). congruence.
    + rewrite IH. split.
      * intros H line [->|Hin]%elem_of_cons; [assumption|apply H, Hin].
      * intros H line Hin. apply H. right. exact Hin.
Qed.

(** Every record in the table after the loop was there before or was parsed
    from one of the lines. *)
Lemma load_meta_lines_origin lines : forall (m : gmap Z (@EdgeMeta D)) id meta,
  foldl load_meta_line m lines !! id = Some meta ->
  m !! id = Some meta \/ exists line, line ∈ lines /\ parse_line line = Some (id, meta).
Proof.
  induction lines as [|l lines IH]; intros m id meta H; [left; exact H|].
  cbn [foldl] in H. apply IH in H as [H|(line & Hin & Hline)].
  - unfold load_meta_line in H.
    destruct (parse_line l) as [[id' meta']|] eqn:Hl; [|left; exact H].
    destruct (Z.eq_dec id' id) as [->|Hne].
    + rewrite lookup_insert_eq in H. injection H as ->.
      right. exists l. split; [left|exact Hl].
    + rewrite lookup_insert_ne in H by assumption. left. exact H.
  - right. exists line. split; [right; exact Hin|exact Hline].
Qed.

(** C10.  [load_edge_metadata] on a file that cannot be opened returns
    [false] and leaves the store as it was.  On a file that opens, it
    returns [true] exactly when some data line parses into a record; the
    shortcuts and indices are untouched; the metadata afterwards holds only
    records parsed from this file, whatever was loaded before; and when it
    returns [false] the metadata is left empty. *)
Theorem load_edge_metadata_outcomes (g : @ShortcutGraph D) :
  load_edge_metadata None g = (false, g) /\
  forall content,
    let '(ok, g') := load_edge_metadata (Some content) g in
    (ok = true <->
       exists line, line ∈ data_lines content /\ is_Some (parse_line line)) /\
    shortcuts_ g' = shortcuts_ g /\
    fwd_adj_ g' = fwd_adj_ g /\
    bwd_adj_ g' = bwd_adj_ g /\
    (forall id meta, edge_meta_ g' !! id = Some meta ->
       exists line, line ∈ data_lines content /\ parse_line line = Some (id, meta)) /\
    (ok = false -> edge_meta_ g' = ∅).
Proof.
  split; [reflexivity|].
  intros content. cbn [load_edge_metadata]. fold (data_lines content).
  set (m := foldl load_meta_line ∅ (data_lines content)).
  assert (m = ∅ <-> forall line, line ∈ data_lines content -> parse_line line = None)
    as Hempty by apply load_meta_lines_empty.
  split; [|split; [reflexivity|split; [reflexivity|split; [reflexivity|split]]]].
  - rewrite negb_true_iff, bool_decide_eq_false, Hempty. split.
    + intros Hsome.
      destruct (decide (Exists (fun line => is_Some (parse_line line)) (data_lines content)))
        as [Hex|Hnex].
      * apply Exists_exists in Hex as (line & Hin & His). exists line. split; assumption.
      * exfalso. apply Hsome. intros line Hin.
        destruct (parse_line line) eqn:Hl; [|reflexivity].
        exfalso. apply Hnex, Exists_exists. exists line. split; [exact Hin|].
        rewrite Hl. eexists. reflexivity.
    + intros (line & Hin & [x Hx]) Hall. rewrite (Hall line Hin) in Hx. discriminate.
  - intros id meta Hlook. cbn [set_edge_meta edge_meta_] in Hlook.
    apply load_meta_lines_origin in Hlook as [Hlook|Hlook]; [|exact Hlook].
    rewrite lookup_empty in Hlook. discriminate.
  - rewrite negb_false_iff, bool_decide_eq_true. intros Hm. exact Hm.
Qed.

End MetadataFacts.

(** ** Scenarios on binary64 costs and the reference H3 layout *)

(** Evaluation of closed binary64 comparisons and sums met while running a
    search by rewriting. *)
Ltac float_step :=
  match goal with
  | |- context [PrimFloat.leb ?x ?y] =>
      let v := eval vm_compute in (PrimFloat.leb x y) in
      change (PrimFloat.leb x y) with v
  | |- context [PrimFloat.ltb ?x ?y] =>
      let v := eval vm_compute in (PrimFloat.ltb x y) in
      change (PrimFloat.ltb x y) with v
  | |- context [PrimFloat.add ?x ?y] =>
      let v := eval vm_compute in (PrimFloat.add x y) in
      change (PrimFloat.add x y) with v
  end.

(** One step of a search run on a store whose edges are variables: table
    lookups by the map laws, the rest by computation. *)
Ltac search_step :=
  first
  [ rewrite lookup_singleton_eq
  | rewrite lookup_insert_eq
  | rewrite lookup_insert_ne by congruence
  | rewrite lookup_singleton_ne by congruence
  | rewrite lookup_empty
  | progress cbn [dist_fwd dist_bwd parent_fwd parent_bwd pq_fwd pq_bwd best meeting found
                  set_pq_fwd set_pq_bwd update_fwd update_bwd heap_push heap_pop heap_top
                  heap_empty extract_min fmap option_fmap option_map
                  pq_dist pq_edge sc_from sc_to sc_cost sc_inside
                  app foldl default from_option id lookup list_lookup
                  negb andb orb fst snd Z.eqb Pos.eqb]
  | progress cbv [dadd dlt dle dgt dge dzero dinf dneg1 binary64 entry_gt]
  | float_step ].

(** C7.  On a store whose only shortcut goes from edge [a] to a different
    edge [b] with [inside = +1] and cost 7.0, indexed as the loader indexes
    it, and where the metadata cost of [b] is 1.0, [query_classic a b]
    returns distance 8.0 = 7.0 + 1.0 with path [[a; b]]: two rounds of the
    loop are enough, and more rounds change nothing. *)
Theorem direct_shortcut_classic (g : @ShortcutGraph float) (a b via cell : Z)
    (fuel : nat) :
  a <> b ->
  shortcuts_ g = [ {| sc_from := a; sc_to := b; sc_cost := 7%float;
                      sc_via_edge := via; sc_cell := cell; sc_inside := 1 |} ] ->
  fwd_adj_ g = {[ a := [0%nat] ]} ->
  bwd_adj_ g = {[ b := [0%nat] ]} ->
  get_edge_cost g b = 1%float ->
  (2 <= fuel)%nat ->
  query_classic fuel g a b
  = Some {| distance := 8%float; path := [a; b]; reachable := true |}.
Proof.
  intros Hab Hsc Hf Hb Hc Hfuel. destruct fuel as [|[|fuel]]; [lia|lia|].
  unfold query_classic. destruct (Z.eqb_spec a b) as [|_]; [contradiction|].
  unfold classic_loop, classic_body, classic_forward, classic_backward, classic_exit,
    single_init, seeded, stale, adjacent, classic_relax_fwd, classic_relax_bwd,
    classic_edge_fwd, classic_edge_bwd, improves, meet.
  rewrite Hc, Hf, Hb, Hsc.
  repeat search_step.
  unfold finish, reconstruct. repeat search_step.
  rewrite !Nat.add_succ_r. cbn [walk_fwd walk_bwd]. unfold parent_at.
  repeat search_step.
  destruct (Z.eqb_spec a b) as [|_]; [contradiction|].
  repeat search_step. rewrite !Z.eqb_refl. reflexivity.
Qed.

Module Scenario.

#[local] Existing Instance H3Ref.api.

(** Three real H3 indexes: the resolution-0 cell of base cell 20, and its
    children of digit 0 and 1 at resolution 1. *)
Definition cell_r0 : Z := 0x8029fffffffffff.
Definition cell_r1_a : Z := 0x81283ffffffffff.
Definition cell_r1_b : Z := 0x8128bffffffffff.

Definition edge_meta (cell : Z) (cost : float) : @EdgeMeta float :=
  {| incoming_cell := cell; outgoing_cell := cell; lca_res := -1;
     meta_length := 0%float; meta_cost := cost |}.


Definition row (from to : Z) (cost : float) (inside : Z) : @ShortcutRow float :=
  {| incoming_edge := from; outgoing_edge := to; row_cost := cost;
     row_via_edge := 0; row_cell := cell_r0; row_inside := inside |}.

Definition empty_store : @ShortcutGraph float :=
  {| shortcuts_ := []; fwd_adj_ := ∅; bwd_adj_ := ∅; edge_meta_ := ∅ |}.

(** The store the loader builds from one file of [rows], with [meta] as
    its edge metadata. *)
Definition store_of (rows : list (@ShortcutRow float))
    (meta : list (Z * @EdgeMeta float)) : @ShortcutGraph float :=
  match load_shortcuts (SingleFile (Some [rows])) empty_store with
  | Some (_, g) => set_edge_meta (list_to_map meta) g
  | None => empty_store
  end.

(** Edges 10 and 20 lie in sibling cells; one ascending shortcut 10 -> 20. *)
Definition direct_store : @ShortcutGraph float :=
  store_of [row 10 20 7%float 1]
           [(10, edge_meta cell_r1_a 2%float); (20, edge_meta cell_r1_b 1%float)].


(** The same two edges with one ascending shortcut 20 -> 10: nothing leads
    from 10 to 20. *)
Definition reversed_store : @ShortcutGraph float :=
  store_of [row 20 10 7%float 1]
           [(10, edge_meta cell_r1_a 2%float); (20, edge_meta cell_r1_b 1%float)].

End Scenario.

Import Scenario.

Lemma direct_shortcut_classic_witness :
  query_classic 2 direct_store 10 20
  = Some {| distance := 8%float; path := [10; 20]; reachable := true |}.
Proof.
  apply (direct_shortcut_classic direct_store 10 20 0 cell_r0 2);
    [lia | reflexivity | reflexivity | reflexivity | reflexivity | lia].
Defined.


(** C5, counterexample.  The resolution-0 cell is its own parent at
    resolution 1, and fails the check against it there. *)
Lemma parent_check_own_parent_fails :
  get_resolution (h3 := H3Ref.api) cell_r0 = 0 /\
  cell_to_parent (h3 := H3Ref.api) cell_r0 1 = cell_r0 /\
  parent_check (h3 := H3Ref.api) cell_r0 (cell_to_parent (h3 := H3Ref.api) cell_r0 1) 1 = false.
Proof. repeat split; vm_compute; reflexivity. Qed.

Lemma cell_hierarchy_laws_witness :
  cell_to_parent (h3 := H3Ref.api) (cell_to_parent (h3 := H3Ref.api) cell_r1_a 0) 0
    = cell_to_parent (h3 := H3Ref.api) cell_r1_a 0 /\
  cell_to_parent (h3 := H3Ref.api) cell_r1_a (get_resolution (h3 := H3Ref.api) cell_r1_a)
    = cell_r1_a /\
  find_lca (h3 := H3Ref.api) cell_r1_a cell_r1_a = cell_r1_a /\
  (parent_check (h3 := H3Ref.api) cell_r1_a (cell_to_parent (h3 := H3Ref.api) cell_r1_a 0) 0 = true <->
     cell_r1_a = 0 \/ 0 <= get_resolution (h3 := H3Ref.api) cell_r1_a).
Proof.
  exact (@cell_hierarchy_laws H3Ref.api H3RefFacts.laws cell_r1_a 0).
Defined.

Lemma search_exhausted_unreachable_witness :
  query_classic 4 reversed_store 10 20 = Some unreachable_result /\
  query_pruned (h3 := H3Ref.api) 4 reversed_store 10 20 = Some unreachable_result /\
  query_multi 4 reversed_store [10] [0%float] [20] [0%float] = Some unreachable_result.
Proof.
  destruct (search_exhausted_unreachable (h3 := H3Ref.api) 4 reversed_store 10 20)
    as (Hclassic & Hpruned & Hmulti); [lia|].
  split; [|split].
  - eapply Hclassic; vm_compute; reflexivity.
  - eapply Hpruned; vm_compute; reflexivity.
  - eapply Hmulti; vm_compute; reflexivity.
Defined.


Lemma load_shortcuts_adjacency_witness :
  let g' := store_of [row 10 20 7%float 1; row 30 20 2%float 0; row 10 30 1%float 1] [] in
  adjacent (fwd_adj_ g') 10 = [0%nat; 2%nat] /\
  adjacent (bwd_adj_ g') 20 = [0%nat; 1%nat] /\
  fwd_adj_ g' !! 20 = None /\
  (forall i, i ∈ adjacent (fwd_adj_ g') 10 <->
             exists sc, shortcuts_ g' !! i = Some sc /\ sc_from sc = 10).
Proof.
  intros g'.
  pose proof (load_shortcuts_adjacency
                (SingleFile (Some [[row 10 20 7%float 1; row 30 20 2%float 0;
                                    row 10 30 1%float 1]]))
                empty_store g' true 10 eq_refl) as (Hfwd & _).
  split; [reflexivity|]. split; [reflexivity|]. split; [reflexivity|].
  exact Hfwd.
Defined.

(** * The searches are exact on lawful costs *)

(** ** Cost domains on which the searches are exact *)

Class CostLaws {D : Type} (dops : DoubleOps D) (ok : D -> Prop) : Prop := {
  ok_zero : ok dzero;
  ok_inf : ok dinf;
  ok_add : forall a b, ok a -> ok b -> ok (dadd a b);
  lt_irrefl : forall a, ok a -> dlt a a = false;
  lt_trans : forall a b c, ok a -> ok b -> ok c ->
    dlt a b = true -> dlt b c = true -> dlt a c = true;
  le_not_lt : forall a b, ok a -> ok b -> dle a b = negb (dlt b a);
  lt_connected : forall a b, ok a -> ok b ->
    dlt a b = false -> dlt b a = false -> a = b;
  add_mono_l : forall a b c, ok a -> ok b -> ok c ->
    dle a b = true -> dle (dadd a c) (dadd b c) = true;
  add_mono_r : forall a b c, ok a -> ok b -> ok c ->
    dle a b = true -> dle (dadd c a) (dadd c b) = true;
  add_le_l : forall a c, ok a -> ok c -> dle a (dadd a c) = true;
  add_le_r : forall a c, ok a -> ok c -> dle c (dadd a c) = true;
  add_zero_l : forall a, ok a -> dadd dzero a = a;
  le_inf : forall a, ok a -> dle a dinf = true
}.

Section Order.
Context {D : Type} {dops : DoubleOps D} {ok : D -> Prop} {laws : CostLaws dops ok}.

Lemma le_refl a : ok a -> dle a a = true.
Proof. intros Ha. rewrite le_not_lt, lt_irrefl by assumption. reflexivity. Qed.

Lemma le_iff a b : ok a -> ok b -> dle a b = true <-> dlt b a = false.
Proof. intros Ha Hb. rewrite le_not_lt by assumption. apply negb_true_iff. Qed.

Lemma lt_iff a b : ok a -> ok b -> dlt a b = true <-> dle b a = false.
Proof.
  intros Ha Hb. rewrite le_not_lt by assumption. symmetry. apply negb_false_iff.
Qed.

Lemma lt_le a b : ok a -> ok b -> dlt a b = true -> dle a b = true.
Proof.
  intros Ha Hb H. apply le_iff; [assumption..|].
  destruct (dlt b a) eqn:E; [|reflexivity].
  pose proof (lt_trans a b a Ha Hb Ha H E) as Hc.
  rewrite lt_irrefl in Hc by assumption. discriminate.
Qed.

Lemma le_total a b : ok a -> ok b -> dle a b = true \/ dle b a = true.
Proof.
  intros Ha Hb. destruct (dlt b a) eqn:E.
  - right. apply lt_le; assumption.
  - left. apply le_iff; assumption.
Qed.

Lemma le_lt_trans a b c : ok a -> ok b -> ok c ->
  dle a b = true -> dlt b c = true -> dlt a c = true.
Proof.
  intros Ha Hb Hc Hab Hbc.
  destruct (dlt a c) eqn:E; [reflexivity|].
  apply le_iff in Hab; [|assumption..].
  destruct (dlt c a) eqn:E2.
  - pose proof (lt_trans b c a Hb Hc Ha Hbc E2). congruence.
  - pose proof (lt_connected a c Ha Hc E E2). subst. congruence.
Qed.

Lemma lt_le_trans a b c : ok a -> ok b -> ok c ->
  dlt a b = true -> dle b c = true -> dlt a c = true.
Proof.
  intros Ha Hb Hc Hab Hbc.
  destruct (dlt a c) eqn:E; [reflexivity|].
  apply le_iff in Hbc; [|assumption..].
  destruct (dlt c a) eqn:E2.
  - pose proof (lt_trans c a b Hc Ha Hb E2 Hab). congruence.
  - pose proof (lt_connected a c Ha Hc E E2). subst. congruence.
Qed.

Lemma le_trans a b c : ok a -> ok b -> ok c ->
  dle a b = true -> dle b c = true -> dle a c = true.
Proof.
  intros Ha Hb Hc Hab Hbc. apply le_iff; [assumption..|].
  destruct (dlt c a) eqn:E; [|reflexivity].
  pose proof (lt_le_trans c a b Hc Ha Hb E Hab) as H.
  apply le_iff in Hbc; [|assumption..]. congruence.
Qed.

Lemma le_antisym a b : ok a -> ok b -> dle a b = true -> dle b a = true -> a = b.
Proof.
  intros Ha Hb Hab Hba. apply le_iff in Hab, Hba; [|assumption..].
  apply lt_connected; assumption.
Qed.

Lemma add_mono a b c d : ok a -> ok b -> ok c -> ok d ->
  dle a b = true -> dle c d = true -> dle (dadd a c) (dadd b d) = true.
Proof.
  intros Ha Hb Hc Hd Hab Hcd.
  apply (le_trans _ (dadd b c)); [apply ok_add; assumption..| |].
  - apply add_mono_l; assumption.
  - apply add_mono_r; assumption.
Qed.

End Order.

(** ** The order and the rounding of binary64, on integers

    [FloatAxioms] specifies the kernel's floats through [SpecFloat]:
    [Prim2SF] reads a float as a sign, a mantissa and an exponent, and
    [add_spec], [ltb_spec] and [leb_spec] say that [+], [<] and [<=] are
    the operations of [SpecFloat] on what it reads.  A float that is not a
    NaN and carries no negative sign is measured here by the integer
    [val]: its value in units of 2^-1074, the least subnormal, and
    [top] = 2^2098 for +infinity.  On these integers the order of the
    floats is the order of [Z], and the sum of two floats is the sum of
    their integers, rounded to 53 significant bits, ties to even
    ([round]), and cut at [top]. *)

Module F64.

(** The number of binary digits of a nonnegative integer. *)
Definition digits (S : Z) : Z := Zdigits2 S.

Lemma digits2_pos_size p : digits2_pos p = Pos.size p.
Proof. induction p as [p IH|p IH|]; cbn; [rewrite IH..|]; reflexivity. Qed.

Lemma digits_log2 S : 0 < S -> digits S = Z.log2 S + 1.
Proof.
  destruct S as [|p|p]; [lia| |lia]. intros _. unfold digits. cbn [Zdigits2].
  rewrite digits2_pos_size. destruct p as [p|p|]; cbn [Z.log2 Pos.size]; lia.
Qed.

Lemma digits_0 : digits 0 = 0.
Proof. reflexivity. Qed.

Lemma digits_bounds S : 0 < S -> 2 ^ (digits S - 1) <= S < 2 ^ digits S.
Proof.
  intros HS. rewrite (digits_log2 S HS).
  replace (Z.log2 S + 1 - 1) with (Z.log2 S) by lia.
  replace (Z.log2 S + 1) with (Z.succ (Z.log2 S)) by lia.
  apply Z.log2_spec, HS.
Qed.

Lemma digits_pos S : 0 < S -> 0 < digits S.
Proof. intros HS. rewrite (digits_log2 S HS). pose proof (Z.log2_nonneg S). lia. Qed.

Lemma digits_mono S S' : 0 < S -> S <= S' -> digits S <= digits S'.
Proof.
  intros HS Hle. rewrite !digits_log2 by lia.
  pose proof (Z.log2_le_mono S S' Hle). lia.
Qed.

Lemma digits_unique S d : 2 ^ (d - 1) <= S < 2 ^ d -> 0 < d -> digits S = d.
Proof.
  intros [Hlo Hhi] Hd.
  assert (0 < S) by (pose proof (Z.pow_pos_nonneg 2 (d - 1)); lia).
  rewrite (digits_log2 S) by assumption.
  rewrite (Z.log2_unique S (d - 1)); [lia|lia|].
  replace (Z.succ (d - 1)) with d by lia. lia.
Qed.

Lemma digits_shift m k : 0 < m -> 0 <= k -> digits (m * 2 ^ k) = digits m + k.
Proof.
  intros Hm Hk. pose proof (digits_bounds m Hm) as [Hlo Hhi].
  pose proof (digits_pos m Hm).
  apply digits_unique; [|lia].
  replace (digits m + k - 1) with ((digits m - 1) + k) by lia.
  rewrite !Z.pow_add_r by lia.
  pose proof (Z.pow_pos_nonneg 2 k). nia.
Qed.

(** Rounding to nearest, ties to even, at [prec] significant bits. *)
Definition pick (q rho n : Z) : Z :=
  if 2 * rho <? 2 ^ n then q
  else if 2 * rho =? 2 ^ n then (if Z.even q then q else q + 1)
  else q + 1.

Definition round (S : Z) : Z :=
  let n := digits S - prec in
  if n <=? 0 then S else pick (S / 2 ^ n) (S mod 2 ^ n) n * 2 ^ n.

Lemma pick_bounds q rho n : q <= pick q rho n <= q + 1.
Proof.
  unfold pick. destruct (2 * rho <? 2 ^ n); [lia|].
  destruct (2 * rho =? 2 ^ n); [destruct (Z.even q); lia|lia].
Qed.

Lemma pick_mono q rho rho' n : rho <= rho' -> pick q rho n <= pick q rho' n.
Proof.
  intros Hle. unfold pick.
  destruct (Z.ltb_spec (2 * rho) (2 ^ n)), (Z.ltb_spec (2 * rho') (2 ^ n));
    destruct (Z.eqb_spec (2 * rho) (2 ^ n)), (Z.eqb_spec (2 * rho') (2 ^ n));
    destruct (Z.even q); lia.
Qed.

Lemma round_small S : digits S <= prec -> round S = S.
Proof.
  intros H. unfold round. cbv zeta. destruct (Z.leb_spec (digits S - prec) 0); [reflexivity|lia].
Qed.

Lemma round_window S :
  0 < S -> 2 ^ (digits S - 1) <= round S <= 2 ^ digits S.
Proof.
  intros HS. pose proof (digits_bounds S HS) as [Hlo Hhi].
  unfold round. cbv zeta.
  destruct (Z.leb_spec (digits S - prec) 0) as [Hn|Hn]; [lia|].
  set (n := digits S - prec) in *.
  assert (0 < 2 ^ n) as Hpow by (apply Z.pow_pos_nonneg; lia).
  pose proof (pick_bounds (S / 2 ^ n) (S mod 2 ^ n) n) as [Hp1 Hp2].
  assert (2 ^ digits S = 2 ^ prec * 2 ^ n) as Hd.
  { rewrite <- Z.pow_add_r by (unfold prec; lia). f_equal. unfold n. lia. }
  assert (2 ^ (digits S - 1) = 2 ^ (prec - 1) * 2 ^ n) as Hd1.
  { rewrite <- Z.pow_add_r by (unfold prec; lia). f_equal. unfold n. lia. }
  assert (2 ^ (prec - 1) <= S / 2 ^ n) as Hq1.
  { apply Z.div_le_lower_bound; [lia|]. lia. }
  assert (S / 2 ^ n < 2 ^ prec) as Hq2.
  { apply Z.div_lt_upper_bound; [lia|]. lia. }
  split; nia.
Qed.

Lemma round_mono S S' : 0 <= S -> S <= S' -> round S <= round S'.
Proof.
  intros HS Hle.
  destruct (Z.eq_dec S 0) as [->|HS0].
  { rewrite (round_small 0) by (rewrite digits_0; unfold prec; lia).
    destruct (Z.eq_dec S' 0) as [->|HS'0].
    - rewrite (round_small 0) by (rewrite digits_0; unfold prec; lia). lia.
    - pose proof (round_window S' ltac:(lia)) as [Hlo _].
      pose proof (Z.pow_nonneg 2 (digits S' - 1)). lia. }
  assert (0 < S) as HSpos by lia. assert (0 < S') as HS'pos by lia.
  pose proof (digits_mono S S' HSpos Hle) as Hd.
  destruct (Z.eq_dec (digits S) (digits S')) as [Heq|Hne].
  - unfold round. cbv zeta. rewrite <- Heq.
    destruct (Z.leb_spec (digits S - prec) 0) as [Hn|Hn]; [exact Hle|].
    set (n := digits S - prec) in *.
    assert (0 < 2 ^ n) as Hpow by (apply Z.pow_pos_nonneg; lia).
    pose proof (Z.div_le_mono S S' (2 ^ n) Hpow Hle) as Hq.
    apply Z.mul_le_mono_nonneg_r; [lia|].
    destruct (Z.eq_dec (S / 2 ^ n) (S' / 2 ^ n)) as [Hqeq|Hqne].
    + rewrite <- Hqeq. apply pick_mono.
      pose proof (Z.div_mod S (2 ^ n) ltac:(lia)).
      pose proof (Z.div_mod S' (2 ^ n) ltac:(lia)). nia.
    + pose proof (pick_bounds (S / 2 ^ n) (S mod 2 ^ n) n).
      pose proof (pick_bounds (S' / 2 ^ n) (S' mod 2 ^ n) n). lia.
  - pose proof (round_window S HSpos) as [_ Hhi].
    pose proof (round_window S' HS'pos) as [Hlo _].
    assert (2 ^ digits S <= 2 ^ (digits S' - 1)).
    { apply Z.pow_le_mono_r; lia. }
    lia.
Qed.

Lemma round_exact m k :
  0 < m -> 0 <= k -> digits m <= prec -> round (m * 2 ^ k) = m * 2 ^ k.
Proof.
  intros Hm Hk Hd. unfold round. cbv zeta. rewrite digits_shift by assumption.
  destruct (Z.leb_spec (digits m + k - prec) 0) as [Hn|Hn]; [reflexivity|].
  set (n := digits m + k - prec) in *.
  assert (0 < 2 ^ n) as Hpow by (apply Z.pow_pos_nonneg; lia).
  assert (m * 2 ^ k = (m * 2 ^ (k - n)) * 2 ^ n) as Heq.
  { rewrite <- Z.mul_assoc, <- Z.pow_add_r by lia. do 2 f_equal. lia. }
  rewrite Heq at 1 2. rewrite Z.div_mul, Z.mod_mul by lia.
  unfold pick. destruct (Z.ltb_spec (2 * 0) (2 ^ n)); [|lia]. lia.
Qed.

(** ** The shifts of [SpecFloat] *)

Lemma iter_pos_nat {A} (f : A -> A) p : forall x,
  SpecFloat.iter_pos f p x = Nat.iter (Pos.to_nat p) f x.
Proof.
  induction p as [p IH|p IH|]; intros x; cbn [SpecFloat.iter_pos].
  - rewrite !IH, Pos2Nat.inj_xI.
    replace (S (2 * Pos.to_nat p)) with (Pos.to_nat p + (Pos.to_nat p + 1))%nat by lia.
    rewrite !Nat.iter_add. reflexivity.
  - rewrite !IH, Pos2Nat.inj_xO.
    replace (2 * Pos.to_nat p)%nat with (Pos.to_nat p + Pos.to_nat p)%nat by lia.
    rewrite Nat.iter_add. reflexivity.
  - reflexivity.
Qed.

Lemma shr_1_spec m r s :
  0 <= m ->
  shr_1 {| shr_m := m; shr_r := r; shr_s := s |}
  = {| shr_m := m / 2; shr_r := Z.odd m; shr_s := r || s |}.
Proof.
  intros Hm. destruct m as [|p|p]; [reflexivity| |lia].
  destruct p as [p|p|]; cbn [shr_1].
  - f_equal. rewrite Pos2Z.inj_xI. apply (Z.div_unique _ _ _ 1); lia.
  - f_equal. rewrite Pos2Z.inj_xO. apply (Z.div_unique _ _ _ 0); lia.
  - reflexivity.
Qed.

Lemma mod_pow2_succ M k :
  0 <= M -> 0 <= k ->
  M mod 2 ^ (k + 1) = (if Z.odd (M / 2 ^ k) then 2 ^ k else 0) + M mod 2 ^ k.
Proof.
  intros HM Hk. assert (0 < 2 ^ k) as Hpow by (apply Z.pow_pos_nonneg; lia).
  rewrite Z.pow_add_r, Z.pow_1_r by lia.
  rewrite Z.rem_mul_r by lia.
  rewrite (Z.add_comm (M mod 2 ^ k)). f_equal.
  rewrite <- Z.bit0_mod, Z.bit0_odd. destruct (Z.odd (M / 2 ^ k)); cbn [Z.b2z]; lia.
Qed.

(** After [k + 1] shifts of [M]: the quotient, the bit shifted out last,
    and whether a lower bit was set. *)
Lemma shr_iter M k :
  0 <= M ->
  Nat.iter (S k) shr_1 {| shr_m := M; shr_r := false; shr_s := false |}
  = {| shr_m := M / 2 ^ (Z.of_nat k + 1);
       shr_r := Z.odd (M / 2 ^ Z.of_nat k);
       shr_s := negb (M mod 2 ^ Z.of_nat k =? 0) |}.
Proof.
  intros HM. induction k as [|k IH].
  - cbn [Nat.iter]. rewrite shr_1_spec by assumption.
    change (Z.of_nat 0) with 0. rewrite Z.pow_0_r, Z.div_1_r, Z.mod_1_r. reflexivity.
  - change (Nat.iter (S (S k)) shr_1 ?x) with (shr_1 (Nat.iter (S k) shr_1 x)).
    rewrite IH. rewrite Nat2Z.inj_succ.
    replace (Z.succ (Z.of_nat k)) with (Z.of_nat k + 1) by lia.
    set (j := Z.of_nat k). assert (0 <= j) as Hj by (unfold j; lia).
    assert (0 < 2 ^ j) by (apply Z.pow_pos_nonneg; lia).
    assert (0 < 2 ^ (j + 1)) by (apply Z.pow_pos_nonneg; lia).
    rewrite shr_1_spec by (apply Z.div_pos; lia).
    f_equal.
    + rewrite Z.div_div by lia. f_equal.
      rewrite (Z.pow_add_r 2 (j + 1) 1) by lia. reflexivity.
    + rewrite (mod_pow2_succ M j HM Hj).
      pose proof (Z.mod_pos_bound M (2 ^ j) ltac:(lia)).
      destruct (Z.odd (M / 2 ^ j)); cbn [orb].
      * symmetry. apply negb_true_iff, Z.eqb_neq. lia.
      * f_equal.
Qed.

Lemma shr_pos M E p :
  0 <= M ->
  exists mrs,
    shr {| shr_m := M; shr_r := false; shr_s := false |} E (Zpos p) = (mrs, E + Zpos p) /\
    shr_m mrs = M / 2 ^ Zpos p /\
    round_nearest_even (shr_m mrs) (loc_of_shr_record mrs)
    = pick (M / 2 ^ Zpos p) (M mod 2 ^ Zpos p) (Zpos p).
Proof.
  intros HM. cbn [shr]. rewrite iter_pos_nat.
  destruct (Pos2Nat.is_succ p) as [k Hk]. rewrite Hk.
  rewrite (shr_iter M k HM).
  assert (Zpos p = Z.of_nat k + 1) as Hp by lia.
  eexists. split; [reflexivity|]. cbn [shr_m]. rewrite <- Hp.
  split; [reflexivity|].
  set (j := Z.of_nat k) in *. assert (0 <= j) as Hj by (unfold j; lia).
  rewrite Hp, (mod_pow2_succ M j HM Hj).
  assert (0 < 2 ^ j) by (apply Z.pow_pos_nonneg; lia).
  assert (2 ^ (j + 1) = 2 * 2 ^ j) as Hpow by (rewrite Z.pow_add_r, Z.pow_1_r by lia; lia).
  pose proof (Z.mod_pos_bound M (2 ^ j) ltac:(lia)) as Hmod.
  unfold pick. rewrite Hpow.
  destruct (Z.odd (M / 2 ^ j)); destruct (Z.eqb_spec (M mod 2 ^ j) 0) as [H0|H0];
    cbn [negb loc_of_shr_record round_nearest_even].
  - rewrite H0. destruct (Z.ltb_spec (2 * (2 ^ j + 0)) (2 * 2 ^ j)); [lia|].
    destruct (Z.eqb_spec (2 * (2 ^ j + 0)) (2 * 2 ^ j)); [reflexivity|lia].
  - destruct (Z.ltb_spec (2 * (2 ^ j + M mod 2 ^ j)) (2 * 2 ^ j)); [lia|].
    destruct (Z.eqb_spec (2 * (2 ^ j + M mod 2 ^ j)) (2 * 2 ^ j)); [lia|reflexivity].
  - rewrite H0. destruct (Z.ltb_spec (2 * (0 + 0)) (2 * 2 ^ j)); [reflexivity|lia].
  - destruct (Z.ltb_spec (2 * (0 + M mod 2 ^ j)) (2 * 2 ^ j)); [reflexivity|lia].
Qed.

(** ** The value of a float, in units of the least subnormal *)

Definition top : Z := 2 ^ 2098.

Definition val (x : spec_float) : Z :=
  match x with
  | S754_zero _ => 0
  | S754_finite _ m e => Zpos m * 2 ^ (e + 1074)
  | S754_infinity _ => top
  | S754_nan => -1
  end.

(** Zero, a positive number or plus infinity. *)
Definition nonneg (x : spec_float) : Prop :=
  match x with
  | S754_zero s | S754_infinity s | S754_finite s _ _ => s = false
  | S754_nan => False
  end.

Lemma fexp_eq e : fexp prec emax e = Z.max (e - 53) (-1074).
Proof. reflexivity. Qed.

Lemma pow_split a b : 0 <= a -> 0 <= b -> 2 ^ (a + b) = 2 ^ a * 2 ^ b.
Proof. intros. apply Z.pow_add_r; assumption. Qed.

Lemma top_split e : -1074 <= e -> e <= 1024 -> top = 2 ^ (1024 - e) * 2 ^ (e + 1074).
Proof.
  intros H1 H2. unfold top. rewrite <- Z.pow_add_r by lia. f_equal. lia.
Qed.

Lemma canonical_bounds m e :
  bounded prec emax m e = true ->
  -1074 <= e <= 971 /\ digits (Zpos m) <= 53 /\
  (e = -1074 \/ digits (Zpos m) = 53).
Proof.
  unfold bounded, canonical_mantissa. intros [Hc He]%andb_true_iff.
  apply Z.eqb_eq in Hc. apply Z.leb_le in He. rewrite fexp_eq in Hc.
  change (Zpos (digits2_pos m)) with (digits (Zpos m)) in Hc.
  change (emax - prec) with 971 in He. lia.
Qed.

Lemma val_finite_bounds m e :
  bounded prec emax m e = true ->
  0 < Zpos m * 2 ^ (e + 1074) < top.
Proof.
  intros H. destruct (canonical_bounds m e H) as (He & Hd & _).
  pose proof (digits_bounds (Zpos m) ltac:(lia)) as [_ Hhi].
  assert (0 < 2 ^ (e + 1074)) by (apply Z.pow_pos_nonneg; lia).
  split; [lia|].
  rewrite (top_split e) by lia.
  assert (2 ^ digits (Zpos m) <= 2 ^ (1024 - e)) by (apply Z.pow_le_mono_r; lia).
  nia.
Qed.

Lemma val_range x :
  valid_binary x = true -> nonneg x -> 0 <= val x <= top.
Proof.
  intros Hv Hn. assert (0 < top) by (apply Z.pow_pos_nonneg; lia).
  destruct x as [s|s| |s m e]; cbn [val]; try lia; [destruct Hn|].
  pose proof (val_finite_bounds m e Hv). lia.
Qed.

Lemma round_val x :
  valid_binary x = true -> nonneg x -> round (val x) = val x.
Proof.
  intros Hv Hn. destruct x as [s|s| |s m e]; cbn [val].
  - apply round_small. rewrite digits_0. unfold prec. lia.
  - unfold top. rewrite <- (Z.mul_1_l (2 ^ 2098)).
    apply round_exact; [lia|lia|]. change (digits 1) with 1. unfold prec. lia.
  - destruct Hn.
  - destruct (canonical_bounds m e Hv) as (He & Hd & _).
    apply round_exact; [lia|lia|exact Hd].
Qed.

Lemma round_top S : top <= S -> Z.min top (round S) = top.
Proof.
  intros H. assert (0 < top) by (apply Z.pow_pos_nonneg; lia).
  pose proof (round_mono top S ltac:(lia) H) as Hm.
  assert (round top = top) as Ht.
  { unfold top. rewrite <- (Z.mul_1_l (2 ^ 2098)).
    apply round_exact; [lia|lia|]. change (digits 1) with 1. unfold prec. lia. }
  lia.
Qed.

(** ** The order *)

Lemma compare_val x y :
  valid_binary x = true -> valid_binary y = true -> nonneg x -> nonneg y ->
  SFcompare x y = Some (val x ?= val y).
Proof.
  intros Hvx Hvy Hnx Hny.
  assert (0 < top) as Htop by (apply Z.pow_pos_nonneg; lia).
  destruct x as [sx|sx| |sx mx ex]; destruct y as [sy|sy| |sy my ey];
    cbn [nonneg] in Hnx, Hny; try contradiction; subst; cbn [SFcompare val valid_binary] in *.
  - reflexivity.
  - apply f_equal. symmetry. apply Z.compare_lt_iff. exact Htop.
  - apply f_equal. symmetry. apply Z.compare_lt_iff. apply (val_finite_bounds my ey Hvy).
  - apply f_equal. symmetry. apply Z.compare_gt_iff. exact Htop.
  - apply f_equal. symmetry. apply Z.compare_eq_iff. reflexivity.
  - apply f_equal. symmetry. apply Z.compare_gt_iff. apply (val_finite_bounds my ey Hvy).
  - apply f_equal. symmetry. apply Z.compare_gt_iff. apply (val_finite_bounds mx ex Hvx).
  - apply f_equal. symmetry. apply Z.compare_lt_iff. apply (val_finite_bounds mx ex Hvx).
  - apply f_equal.
    destruct (canonical_bounds mx ex Hvx) as (Hex & Hdx & Hcx).
    destruct (canonical_bounds my ey Hvy) as (Hey & Hdy & Hcy).
    pose proof (digits_bounds (Zpos mx) ltac:(lia)) as [Hxlo Hxhi].
    pose proof (digits_bounds (Zpos my) ltac:(lia)) as [Hylo Hyhi].
    destruct (Z.compare_spec ex ey) as [Heq|Hlt|Hgt].
    + subst ey. rewrite Pos.compare_cont_spec. cbn [Pos.switch_Eq].
      assert (0 < 2 ^ (ex + 1074)) by (apply Z.pow_pos_nonneg; lia).
      change (Pos.compare mx my) with (Z.compare (Zpos mx) (Zpos my)).
      destruct (Z.compare_spec (Zpos mx) (Zpos my)) as [H1|H1|H1]; symmetry.
      * apply Z.compare_eq_iff. congruence.
      * apply Z.compare_lt_iff. nia.
      * apply Z.compare_gt_iff. nia.
    + symmetry. apply Z.compare_lt_iff.
      assert (digits (Zpos my) = 53) as Hy53 by lia.
      rewrite Hy53 in Hylo.
      assert (2 ^ (ey + 1074) = 2 ^ (ey - ex) * 2 ^ (ex + 1074)) as Hsplit.
      { rewrite <- Z.pow_add_r by lia. f_equal. lia. }
      rewrite Hsplit.
      assert (0 < 2 ^ (ex + 1074)) by (apply Z.pow_pos_nonneg; lia).
      assert (2 ^ 1 <= 2 ^ (ey - ex)) by (apply Z.pow_le_mono_r; lia).
      assert (2 ^ digits (Zpos mx) <= 2 ^ 53) by (apply Z.pow_le_mono_r; lia).
      change (2 ^ (53 - 1)) with 4503599627370496 in Hylo.
      change (2 ^ 53) with 9007199254740992 in *. change (2 ^ 1) with 2 in *.
      nia.
    + symmetry. apply Z.compare_gt_iff.
      assert (digits (Zpos mx) = 53) as Hx53 by lia.
      rewrite Hx53 in Hxlo.
      assert (2 ^ (ex + 1074) = 2 ^ (ex - ey) * 2 ^ (ey + 1074)) as Hsplit.
      { rewrite <- Z.pow_add_r by lia. f_equal. lia. }
      rewrite Hsplit.
      assert (0 < 2 ^ (ey + 1074)) by (apply Z.pow_pos_nonneg; lia).
      assert (2 ^ 1 <= 2 ^ (ex - ey)) by (apply Z.pow_le_mono_r; lia).
      assert (2 ^ digits (Zpos my) <= 2 ^ 53) by (apply Z.pow_le_mono_r; lia).
      change (2 ^ (53 - 1)) with 4503599627370496 in Hxlo.
      change (2 ^ 53) with 9007199254740992 in *. change (2 ^ 1) with 2 in *.
      nia.
Qed.

Lemma val_inj x y :
  valid_binary x = true -> valid_binary y = true -> nonneg x -> nonneg y ->
  val x = val y -> x = y.
Proof.
  intros Hvx Hvy Hnx Hny Hval.
  pose proof (compare_val x y Hvx Hvy Hnx Hny) as Hc.
  rewrite Hval, Z.compare_refl in Hc.
  destruct x as [sx|sx| |sx mx ex]; destruct y as [sy|sy| |sy my ey];
    cbn [nonneg] in Hnx, Hny; try contradiction; subst; cbn [SFcompare] in Hc;
    try discriminate; try reflexivity.
  destruct (Z.compare_spec ex ey) as [Heq|Hlt|Hgt]; try discriminate.
  subst ey. injection Hc as Hc. rewrite Pos.compare_cont_spec in Hc.
  destruct (Pos.compare_spec mx my) as [Hm|Hm|Hm]; try discriminate.
  subst my. reflexivity.
Qed.

(** ** Rounding as [SpecFloat] computes it *)

Definition pack (m e : Z) : spec_float :=
  match m with
  | Z0 => S754_zero false
  | Zpos p => if e <=? emax - prec then S754_finite false p e else S754_infinity false
  | Zneg _ => S754_nan
  end.

Lemma round_aux_unfold mx ex :
  binary_round_aux prec emax false mx ex loc_Exact =
  let '(mrs', e') := shr_fexp prec emax mx ex loc_Exact in
  let '(mrs'', e'') :=
    shr_fexp prec emax (round_nearest_even (shr_m mrs') (loc_of_shr_record mrs')) e'
      loc_Exact in
  pack (shr_m mrs'') e''.
Proof. reflexivity. Qed.

Lemma shr_fexp_cases M E :
  0 < M -> E <= fexp prec emax (digits M + E) ->
  let n := fexp prec emax (digits M + E) - E in
  (n = 0 /\
   shr_fexp prec emax M E loc_Exact
   = ({| shr_m := M; shr_r := false; shr_s := false |}, E)) \/
  (0 < n /\
   exists mrs,
     shr_fexp prec emax M E loc_Exact = (mrs, E + n) /\
     shr_m mrs = M / 2 ^ n /\
     round_nearest_even (shr_m mrs) (loc_of_shr_record mrs)
     = pick (M / 2 ^ n) (M mod 2 ^ n) n).
Proof.
  intros HM HE. cbv zeta. unfold shr_fexp. cbn [shr_record_of_loc].
  change (Zdigits2 M) with (digits M).
  destruct (fexp prec emax (digits M + E) - E) as [|p|p] eqn:Hn; [left|right|lia].
  - split; reflexivity.
  - split; [lia|]. apply shr_pos. lia.
Qed.

Lemma pack_val m e :
  0 < m < 2 ^ 53 -> -1074 <= e -> (e <= 971 \/ 2 ^ 52 <= m) ->
  nonneg (pack m e) /\ val (pack m e) = Z.min top (m * 2 ^ (e + 1074)).
Proof.
  intros Hm He Hcase. destruct m as [|p|p]; [lia| |lia]. cbn [pack].
  change (emax - prec) with 971.
  assert (0 < 2 ^ (e + 1074)) by (apply Z.pow_pos_nonneg; lia).
  destruct (Z.leb_spec e 971) as [Hle|Hgt]; cbn [nonneg val].
  - split; [reflexivity|].
    rewrite (top_split e) by lia.
    assert (2 ^ 53 <= 2 ^ (1024 - e)) by (apply Z.pow_le_mono_r; lia).
    nia.
  - split; [reflexivity|]. destruct Hcase as [?|Hbig]; [lia|].
    assert (2 ^ 2046 <= 2 ^ (e + 1074)) by (apply Z.pow_le_mono_r; lia).
    assert (top = 2 ^ 52 * 2 ^ 2046) as Ht.
    { unfold top. rewrite <- Z.pow_add_r by lia. reflexivity. }
    assert (0 < 2 ^ 52) by (apply Z.pow_pos_nonneg; lia).
    assert (0 < 2 ^ 2046) by (apply Z.pow_pos_nonneg; lia).
    set (T := 2 ^ 2046) in *. set (X := 2 ^ (e + 1074)) in *. set (B := 2 ^ 52) in *.
    nia.
Qed.

Lemma pick_scale q rho n k :
  0 <= k -> 0 <= n -> pick q (rho * 2 ^ k) (n + k) = pick q rho n.
Proof.
  intros Hk Hn. unfold pick. rewrite (Z.pow_add_r 2 n k) by assumption.
  assert (0 < 2 ^ k) by (apply Z.pow_pos_nonneg; lia).
  destruct (Z.ltb_spec (2 * (rho * 2 ^ k)) (2 ^ n * 2 ^ k)), (Z.ltb_spec (2 * rho) (2 ^ n));
    try nia; try reflexivity.
  destruct (Z.eqb_spec (2 * (rho * 2 ^ k)) (2 ^ n * 2 ^ k)), (Z.eqb_spec (2 * rho) (2 ^ n));
    try nia; reflexivity.
Qed.

Lemma round_scale M k :
  0 < M -> 0 <= k -> 0 < digits M - 53 ->
  round (M * 2 ^ k)
  = pick (M / 2 ^ (digits M - 53)) (M mod 2 ^ (digits M - 53)) (digits M - 53)
    * 2 ^ (digits M - 53 + k).
Proof.
  intros HM Hk Hn. unfold round. cbv zeta. rewrite digits_shift by assumption.
  change prec with 53.
  destruct (Z.leb_spec (digits M + k - 53) 0) as [?|_]; [lia|].
  set (n := digits M - 53) in *.
  replace (digits M + k - 53) with (n + k) by (unfold n; lia).
  assert (0 < 2 ^ k) by (apply Z.pow_pos_nonneg; lia).
  assert (0 < 2 ^ n) by (apply Z.pow_pos_nonneg; lia).
  rewrite (Z.pow_add_r 2 n k) by lia.
  rewrite Z.div_mul_cancel_r by lia.
  rewrite Z.mul_mod_distr_r by lia.
  rewrite <- (Z.pow_add_r 2 n k) by lia.
  rewrite pick_scale by lia. reflexivity.
Qed.

(** The rounding of a positive integer [M * 2^E]. *)
Lemma round_aux_spec (M : positive) (E : Z) :
  -1074 <= E -> E <= fexp prec emax (digits (Zpos M) + E) ->
  nonneg (binary_round_aux prec emax false (Zpos M) E loc_Exact) /\
  val (binary_round_aux prec emax false (Zpos M) E loc_Exact)
  = Z.min top (round (Zpos M * 2 ^ (E + 1074))).
Proof.
  intros HE Hf. rewrite round_aux_unfold.
  pose proof (digits_bounds (Zpos M) ltac:(lia)) as [Hlo Hhi].
  pose proof (digits_pos (Zpos M) ltac:(lia)) as Hdpos.
  destruct (shr_fexp_cases (Zpos M) E ltac:(lia) Hf) as [[Hn Hshr]|(Hn & mrs & Hshr & Hm & Hrne)];
    cbv zeta in Hn; rewrite fexp_eq in Hn, Hf.
  - (* the mantissa fits *)
    rewrite Hshr. cbn [shr_m loc_of_shr_record round_nearest_even].
    rewrite Hshr. cbn [shr_m].
    assert (digits (Zpos M) <= 53) as Hd by lia.
    rewrite (round_exact (Zpos M) (E + 1074)) by (unfold prec; lia).
    apply pack_val; [|lia|].
    + split; [lia|]. eapply Z.lt_le_trans; [exact Hhi|]. apply Z.pow_le_mono_r; lia.
    + destruct (Z.le_gt_cases E 971) as [?|Hbig]; [left; assumption|right].
      assert (digits (Zpos M) = 53) as Hd53 by lia.
      rewrite Hd53 in Hlo. exact Hlo.
  - (* [n] low bits are rounded away *)
    assert (fexp prec emax (digits (Zpos M) + E) - E = digits (Zpos M) - 53) as Hneq
      by (rewrite fexp_eq; lia).
    rewrite Hneq in Hshr, Hm, Hrne.
    set (n := digits (Zpos M) - 53) in *.
    assert (0 < n) as Hnpos by lia.
    rewrite Hshr, Hrne.
    set (q := Zpos M / 2 ^ n) in *. set (rho := Zpos M mod 2 ^ n) in *.
    assert (0 < 2 ^ n) as Hpow by (apply Z.pow_pos_nonneg; lia).
    assert (2 ^ digits (Zpos M) = 2 ^ 53 * 2 ^ n) as Hd.
    { rewrite <- Z.pow_add_r by lia. f_equal. unfold n. lia. }
    assert (2 ^ (digits (Zpos M) - 1) = 2 ^ 52 * 2 ^ n) as Hd1.
    { rewrite <- Z.pow_add_r by lia. f_equal. unfold n. lia. }
    assert (2 ^ 52 <= q) as Hq1 by (apply Z.div_le_lower_bound; lia).
    assert (q < 2 ^ 53) as Hq2 by (apply Z.div_lt_upper_bound; lia).
    pose proof (pick_bounds q rho n) as Hpick.
    set (m1 := pick q rho n) in *.
    rewrite (round_scale (Zpos M) (E + 1074)) by lia.
    fold n q rho m1.
    assert (0 < 2 ^ (E + n + 1074)) as Hpe by (apply Z.pow_pos_nonneg; lia).
    replace (n + (E + 1074)) with (E + n + 1074) by lia.
    destruct (Z.eq_dec m1 (2 ^ 53)) as [Hcarry|Hno].
    + (* the rounding carried into a new bit *)
      assert (digits m1 = 54) as Hd54.
      { rewrite Hcarry. apply digits_unique; [|lia]. change (54 - 1) with 53.
        split; [lia|]. apply Z.pow_lt_mono_r; lia. }
      destruct (shr_fexp_cases m1 (E + n) ltac:(lia)) as [[Hn2 _]|(Hn2 & mrs2 & Hshr2 & Hm2 & _)];
        cbv zeta in *; try rewrite fexp_eq in *; try rewrite Hd54 in *; try lia.
      assert (Z.max (54 + (E + n) - 53) (-1074) - (E + n) = 1) as H1 by lia.
      rewrite H1 in Hshr2, Hm2. rewrite Hshr2, Hm2, Hcarry.
      change (2 ^ 53 / 2 ^ 1) with (2 ^ 52).
      replace (2 ^ 53 * 2 ^ (E + n + 1074)) with (2 ^ 52 * 2 ^ (E + n + 1 + 1074)).
      2:{ rewrite <- !Z.pow_add_r by lia. f_equal. lia. }
      apply pack_val; [|lia|right; lia].
      split; [apply Z.pow_pos_nonneg; lia|apply Z.pow_lt_mono_r; lia].
    + assert (digits m1 = 53) as Hd53.
      { apply digits_unique; [|lia]. change (53 - 1) with 52. lia. }
      destruct (shr_fexp_cases m1 (E + n) ltac:(lia)) as [[Hn2 Hshr2]|(Hn2 & _)];
        cbv zeta in *; try rewrite fexp_eq in *; try rewrite Hd53 in *; try lia.
      rewrite Hshr2. cbn [shr_m].
      apply pack_val; [lia|lia|right; lia].
Qed.

(** ** Addition *)

Lemma pos_iter_xO m d : Zpos (Pos.iter xO m d) = Zpos m * 2 ^ Zpos d.
Proof.
  induction d as [|d IH] using Pos.peano_ind.
  - cbn [Pos.iter]. rewrite Pos2Z.inj_xO. change (2 ^ 1) with 2. lia.
  - rewrite Pos.iter_succ, Pos2Z.inj_xO, IH, Pos2Z.inj_succ, Z.pow_succ_r by lia. lia.
Qed.

Lemma shl_align_val mx ex ez :
  ez <= ex -> Zpos (fst (shl_align mx ex ez)) = Zpos mx * 2 ^ (ex - ez).
Proof.
  intros Hle. unfold shl_align.
  destruct (ez - ex) as [|d|d] eqn:Hd; cbn [fst]; [|lia|].
  - replace (ex - ez) with 0 by lia. rewrite Z.pow_0_r. lia.
  - rewrite pos_iter_xO. f_equal. f_equal. lia.
Qed.

Lemma binary_round_noshift (M : positive) E :
  E <= fexp prec emax (digits (Zpos M) + E) ->
  binary_round prec emax false M E
  = binary_round_aux prec emax false (Zpos M) E loc_Exact.
Proof.
  intros H. unfold binary_round, shl_align.
  change (Zpos (digits2_pos M)) with (digits (Zpos M)).
  destruct (fexp prec emax (digits (Zpos M) + E) - E) as [|d|d] eqn:Hd; [reflexivity..|lia].
Qed.

Lemma add_finite mx ex my ey :
  bounded prec emax mx ex = true -> bounded prec emax my ey = true ->
  nonneg (SFadd prec emax (S754_finite false mx ex) (S754_finite false my ey)) /\
  val (SFadd prec emax (S754_finite false mx ex) (S754_finite false my ey))
  = Z.min top (round (Zpos mx * 2 ^ (ex + 1074) + Zpos my * 2 ^ (ey + 1074))).
Proof.
  intros Hx Hy.
  destruct (canonical_bounds mx ex Hx) as (Hex & Hdx & Hcx).
  destruct (canonical_bounds my ey Hy) as (Hey & Hdy & Hcy).
  pose proof (digits_bounds (Zpos mx) ltac:(lia)) as [Hxlo _].
  pose proof (digits_bounds (Zpos my) ltac:(lia)) as [Hylo _].
  cbn [SFadd cond_Zopp]. set (ez := Z.min ex ey).
  assert (ez <= ex) as Hzx by (unfold ez; lia).
  assert (ez <= ey) as Hzy by (unfold ez; lia).
  pose proof (shl_align_val mx ex ez Hzx) as Ha.
  pose proof (shl_align_val my ey ez Hzy) as Hb.
  set (pa := fst (shl_align mx ex ez)) in *. set (pb := fst (shl_align my ey ez)) in *.
  change (Zpos pa + Zpos pb) with (Zpos (pa + pb)).
  cbn [binary_normalize].
  assert (Zpos (pa + pb) = Zpos mx * 2 ^ (ex - ez) + Zpos my * 2 ^ (ey - ez)) as HM
    by (rewrite Pos2Z.inj_add, Ha, Hb; reflexivity).
  assert (0 < 2 ^ (ex - ez)) by (apply Z.pow_pos_nonneg; lia).
  assert (0 < 2 ^ (ey - ez)) by (apply Z.pow_pos_nonneg; lia).
  assert (ez <= fexp prec emax (digits (Zpos (pa + pb)) + ez)) as Hns.
  { rewrite fexp_eq.
    destruct (Z.eq_dec ez (-1074)) as [->|Hne]; [lia|].
    assert (2 ^ 52 <= Zpos (pa + pb)) as Hbig.
    { change (2 ^ 52) with (2 ^ (53 - 1)).
      destruct (Z.le_ge_cases ex ey).
      - assert (ez = ex) by (unfold ez; lia).
        assert (digits (Zpos mx) = 53) as Hd by lia. rewrite Hd in Hxlo. nia.
      - assert (ez = ey) by (unfold ez; lia).
        assert (digits (Zpos my) = 53) as Hd by lia. rewrite Hd in Hylo. nia. }
    pose proof (digits_mono (2 ^ 52) (Zpos (pa + pb)) ltac:(lia) Hbig) as Hd.
    assert (digits (2 ^ 52) = 53) as H53.
    { apply digits_unique; [|lia]. change (53 - 1) with 52.
      split; [lia|]. apply Z.pow_lt_mono_r; lia. }
    lia. }
  rewrite (binary_round_noshift _ _ Hns).
  destruct (round_aux_spec (pa + pb) ez ltac:(lia) Hns) as [Hnn Hval].
  split; [exact Hnn|]. rewrite Hval. do 2 f_equal.
  rewrite HM, Z.mul_add_distr_r, <- !Z.mul_assoc, <- !Z.pow_add_r by lia.
  do 2 f_equal; f_equal; lia.
Qed.

Lemma sfadd_spec x y :
  valid_binary x = true -> valid_binary y = true -> nonneg x -> nonneg y ->
  nonneg (SF64add x y) /\
  val (SF64add x y) = Z.min top (round (val x + val y)).
Proof.
  intros Hvx Hvy Hnx Hny. unfold SF64add.
  assert (0 < top) as Htop by (apply Z.pow_pos_nonneg; lia).
  destruct x as [sx|sx| |sx mx ex]; destruct y as [sy|sy| |sy my ey];
    cbn [nonneg] in Hnx, Hny; try contradiction; subst.
  - cbn [SFadd nonneg val]. split; [reflexivity|]. rewrite Z.add_0_l.
    rewrite (round_small 0) by (rewrite digits_0; unfold prec; lia). lia.
  - cbn [SFadd nonneg val]. split; [reflexivity|]. symmetry. apply round_top. lia.
  - cbn [SFadd nonneg]. split; [reflexivity|].
    rewrite Z.add_0_l, (round_val _ Hvy eq_refl).
    pose proof (val_range _ Hvy eq_refl). lia.
  - cbn [SFadd nonneg val]. split; [reflexivity|]. symmetry. apply round_top. lia.
  - cbn [SFadd nonneg val]. split; [reflexivity|]. symmetry. apply round_top. lia.
  - cbn [SFadd nonneg]. split; [reflexivity|]. symmetry. apply round_top.
    pose proof (val_range _ Hvy eq_refl). cbn [val] in *. lia.
  - cbn [SFadd nonneg]. split; [reflexivity|].
    rewrite Z.add_0_r, (round_val _ Hvx eq_refl).
    pose proof (val_range _ Hvx eq_refl). lia.
  - cbn [SFadd nonneg]. split; [reflexivity|]. symmetry. apply round_top.
    pose proof (val_range _ Hvx eq_refl). cbn [val] in *. lia.
  - apply (add_finite mx ex my ey Hvx Hvy).
Qed.

(** ** The laws on [float] *)

(** A cost the searches are exact on: [+0], a positive number or
    [+infinity]; not a NaN, not negative, not [-0]. *)
Definition valid_cost (x : float) : Prop := nonneg (Prim2SF x).

Definition fval (x : float) : Z := val (Prim2SF x).

Lemma fval_range x : valid_cost x -> 0 <= fval x <= top.
Proof. intros H. apply val_range; [apply Prim2SF_valid|exact H]. Qed.

Lemma fval_inj x y : valid_cost x -> valid_cost y -> fval x = fval y -> x = y.
Proof.
  intros Hx Hy H. apply Prim2SF_inj.
  apply val_inj; try apply Prim2SF_valid; assumption.
Qed.

Lemma ltb_fval x y : valid_cost x -> valid_cost y -> (x <? y)%float = (fval x <? fval y).
Proof.
  intros Hx Hy. rewrite ltb_spec. unfold SFltb.
  rewrite (compare_val _ _ (Prim2SF_valid x) (Prim2SF_valid y) Hx Hy).
  unfold Z.ltb, fval. destruct (val (Prim2SF x) ?= val (Prim2SF y)); reflexivity.
Qed.

Lemma leb_fval x y : valid_cost x -> valid_cost y -> (x <=? y)%float = (fval x <=? fval y).
Proof.
  intros Hx Hy. rewrite leb_spec. unfold SFleb.
  rewrite (compare_val _ _ (Prim2SF_valid x) (Prim2SF_valid y) Hx Hy).
  unfold Z.leb, fval. destruct (val (Prim2SF x) ?= val (Prim2SF y)); reflexivity.
Qed.

Lemma add_fval x y :
  valid_cost x -> valid_cost y ->
  valid_cost (x + y) /\ fval (x + y) = Z.min top (round (fval x + fval y)).
Proof.
  intros Hx Hy. unfold valid_cost, fval. rewrite add_spec.
  apply sfadd_spec; try apply Prim2SF_valid; assumption.
Qed.

Lemma round_fval x : valid_cost x -> round (fval x) = fval x.
Proof. intros H. apply round_val; [apply Prim2SF_valid|exact H]. Qed.

Lemma valid_zero : valid_cost 0.
Proof. reflexivity. Qed.

Lemma valid_infinity : valid_cost infinity.
Proof. reflexivity. Qed.

Lemma fval_zero : fval 0 = 0.
Proof. reflexivity. Qed.

Lemma fval_infinity : fval infinity = top.
Proof. reflexivity. Qed.

Lemma add_mono_fval a b c :
  valid_cost a -> valid_cost b -> valid_cost c -> fval a <= fval b ->
  fval (a + c) <= fval (b + c) /\ fval (c + a) <= fval (c + b).
Proof.
  intros Ha Hb Hc Hle.
  destruct (add_fval a c Ha Hc) as [_ ->]. destruct (add_fval b c Hb Hc) as [_ ->].
  destruct (add_fval c a Hc Ha) as [_ ->]. destruct (add_fval c b Hc Hb) as [_ ->].
  pose proof (fval_range a Ha). pose proof (fval_range c Hc).
  pose proof (round_mono (fval a + fval c) (fval b + fval c) ltac:(lia) ltac:(lia)).
  pose proof (round_mono (fval c + fval a) (fval c + fval b) ltac:(lia) ltac:(lia)).
  lia.
Qed.

Lemma add_le_fval a c :
  valid_cost a -> valid_cost c ->
  fval a <= fval (a + c) /\ fval c <= fval (a + c).
Proof.
  intros Ha Hc. destruct (add_fval a c Ha Hc) as [_ ->].
  pose proof (fval_range a Ha). pose proof (fval_range c Hc).
  pose proof (round_mono (fval a) (fval a + fval c) ltac:(lia) ltac:(lia)) as H1.
  pose proof (round_mono (fval c) (fval a + fval c) ltac:(lia) ltac:(lia)) as H2.
  rewrite round_fval in H1, H2 by assumption. lia.
Qed.

Lemma add_zero_fval a : valid_cost a -> (0 + a)%float = a.
Proof.
  intros Ha. destruct (add_fval 0 a valid_zero Ha) as [Hv Hf].
  apply fval_inj; [exact Hv|exact Ha|].
  rewrite Hf, fval_zero, Z.add_0_l, round_fval by assumption.
  pose proof (fval_range a Ha). lia.
Qed.

End F64.

(** [binary64] satisfies the laws on its valid costs.  The proof rests on
    the specification of the primitive floats in [FloatAxioms]. *)
Lemma binary64_laws : CostLaws binary64 F64.valid_cost.
Proof.
  split; cbn [dzero dinf dadd dlt dle binary64].
  - exact F64.valid_zero.
  - exact F64.valid_infinity.
  - intros a b Ha Hb. apply (F64.add_fval a b Ha Hb).
  - intros a Ha. rewrite F64.ltb_fval by assumption. apply Z.ltb_irrefl.
  - intros a b c Ha Hb Hc. rewrite !F64.ltb_fval by assumption. lia.
  - intros a b Ha Hb. rewrite F64.leb_fval, F64.ltb_fval by assumption. lia.
  - intros a b Ha Hb. rewrite !F64.ltb_fval by assumption. intros H1 H2.
    apply F64.fval_inj; [assumption..|lia].
  - intros a b c Ha Hb Hc. rewrite F64.leb_fval by assumption. intros Hle.
    rewrite F64.leb_fval by (apply F64.add_fval; assumption).
    apply Z.leb_le. apply (F64.add_mono_fval a b c); [assumption..|lia].
  - intros a b c Ha Hb Hc. rewrite F64.leb_fval by assumption. intros Hle.
    rewrite F64.leb_fval by (apply F64.add_fval; assumption).
    apply Z.leb_le. apply (F64.add_mono_fval a b c); [assumption..|lia].
  - intros a c Ha Hc. rewrite F64.leb_fval by (try apply F64.add_fval; assumption).
    apply Z.leb_le. apply (F64.add_le_fval a c); assumption.
  - intros a c Ha Hc. rewrite F64.leb_fval by (try apply F64.add_fval; assumption).
    apply Z.leb_le. apply (F64.add_le_fval a c); assumption.
  - intros a Ha. apply F64.add_zero_fval, Ha.
  - intros a Ha. rewrite F64.leb_fval by (assumption || exact F64.valid_infinity).
    apply Z.leb_le. rewrite F64.fval_infinity. apply (F64.fval_range a Ha).
Qed.

(** ** The priority queue *)

Section HeapFacts.
Context {D : Type} {dops : DoubleOps D} {ok : D -> Prop} {laws : CostLaws dops ok}.

Lemma extract_min_perm (l : list (@PQEntry D)) : forall x m r,
  extract_min x l = (m, r) -> x :: l ≡ₚ m :: r.
Proof.
  induction l as [|y l IH]; intros x m r H; cbn [extract_min] in H.
  - injection H as <- <-. reflexivity.
  - destruct (entry_gt x y).
    + destruct (extract_min y l) as [m' r'] eqn:E. injection H as <- <-.
      rewrite (IH _ _ _ E). apply perm_swap.
    + destruct (extract_min x l) as [m' r'] eqn:E. injection H as <- <-.
      rewrite (perm_swap y x l), (IH _ _ _ E). apply perm_swap.
Qed.

Lemma extract_min_least (l : list (@PQEntry D)) : forall x m r,
  extract_min x l = (m, r) ->
  (forall e, e ∈ x :: l -> ok (pq_dist e)) ->
  forall e, e ∈ x :: l -> dle (pq_dist m) (pq_dist e) = true.
Proof.
  induction l as [|y l IH]; intros x m r H Hok e He; cbn [extract_min] in H.
  - injection H as <- <-. apply list_elem_of_singleton in He as ->.
    apply le_refl, Hok. left.
  - assert (ok (pq_dist x)) as Hx by (apply Hok; left).
    assert (ok (pq_dist y)) as Hy by (apply Hok; right; left).
    unfold entry_gt, dgt in H. destruct (dlt (pq_dist y) (pq_dist x)) eqn:Exy.
    + destruct (extract_min y l) as [m' r'] eqn:E. injection H as <- <-.
      assert (forall e, e ∈ y :: l -> ok (pq_dist e)) as Hok'
        by (intros e' He'; apply Hok; right; exact He').
      assert (ok (pq_dist m')) as Hm.
      { apply Hok'. eapply elem_of_Permutation_proper; [apply (extract_min_perm _ _ _ _ E)|left]. }
      apply elem_of_cons in He as [->|He]; [|eapply IH; eassumption].
      apply (le_trans _ (pq_dist y)); [assumption..| |].
      * eapply IH; [eassumption..|left].
      * apply lt_le; assumption.
    + destruct (extract_min x l) as [m' r'] eqn:E. injection H as <- <-.
      assert (forall e, e ∈ x :: l -> ok (pq_dist e)) as Hok'.
      { intros e' [->|He']%elem_of_cons; apply Hok; [left|right; right; exact He']. }
      assert (ok (pq_dist m')) as Hm.
      { apply Hok'. eapply elem_of_Permutation_proper; [apply (extract_min_perm _ _ _ _ E)|left]. }
      apply elem_of_cons in He as [->|[->|He]%elem_of_cons].
      * eapply IH; [eassumption..|left].
      * apply (le_trans _ (pq_dist x)); [assumption..| |].
        -- eapply IH; [eassumption..|left].
        -- apply le_iff; assumption.
      * eapply IH; [eassumption..|right; exact He].
Qed.

Lemma heap_pop_perm (q : @MinHeap D) e rest :
  heap_pop q = Some (e, rest) -> q ≡ₚ e :: rest.
Proof.
  destruct q as [|x l]; [discriminate|]. cbn [heap_pop]. intros [= H].
  eapply extract_min_perm, H.
Qed.

Lemma heap_pop_least (q : @MinHeap D) e rest :
  heap_pop q = Some (e, rest) ->
  (forall e', e' ∈ q -> ok (pq_dist e')) ->
  forall e', e' ∈ q -> dle (pq_dist e) (pq_dist e') = true.
Proof.
  destruct q as [|x l]; [discriminate|]. cbn [heap_pop]. intros [= H].
  eapply extract_min_least, H.
Qed.

Lemma heap_pop_None (q : @MinHeap D) : heap_pop q = None <-> q = [].
Proof. destruct q; cbn; split; intros; congruence. Qed.

Lemma heap_empty_true (q : @MinHeap D) : heap_empty q = true <-> q = [].
Proof. destruct q; cbn; split; intros; congruence. Qed.

Lemma heap_top_pop (q : @MinHeap D) :
  heap_top q = fst <$> heap_pop q.
Proof. reflexivity. Qed.

End HeapFacts.

(** ** One direction of a search *)

Section FrontierDefs.
Context {D : Type} {dops : DoubleOps D}.

(** The distance table, the parent table and the queue of one direction. *)
Record Frontier := {
  f_dist : gmap Z D;
  f_parent : gmap Z Z;
  f_pq : @MinHeap D
}.

Definition fwd_of (st : @Search D) : Frontier :=
  {| f_dist := dist_fwd st; f_parent := parent_fwd st; f_pq := pq_fwd st |}.

Definition bwd_of (st : @Search D) : Frontier :=
  {| f_dist := dist_bwd st; f_parent := parent_bwd st; f_pq := pq_bwd st |}.

Definition with_pq (q : @MinHeap D) (f : Frontier) : Frontier :=
  {| f_dist := f_dist f; f_parent := f_parent f; f_pq := q |}.

(** The relaxation of an edge into [v] found from [u] at distance [nd]. *)
Definition relax (u v : Z) (nd : D) (f : Frontier) : Frontier :=
  if improves (f_dist f) v nd then
    {| f_dist := <[v := nd]> (f_dist f);
       f_parent := <[v := u]> (f_parent f);
       f_pq := heap_push {| pq_dist := nd; pq_edge := v |} (f_pq f) |}
  else f.

End FrontierDefs.

Section FrontierInv.
Context {D : Type} {dops : DoubleOps D} {ok : D -> Prop} {laws : CostLaws dops ok}.

(** The edges a direction may relax, its seed and the seed's distance. *)
Variable E : Z -> Z -> D -> Prop.
Variable seed : Z.
Variable seedv : D.
Hypothesis E_ok : forall u v c, E u v c -> ok c.
Hypothesis seedv_ok : ok seedv.

(** [reach u x]: some walk from the seed to [u] costs [x], the costs added
    in the order the search adds them. *)
Inductive reach : Z -> D -> Prop :=
| reach_seed : reach seed seedv
| reach_step u x v c : reach u x -> E u v c -> reach v (dadd x c).

Lemma reach_ok u x : reach u x -> ok x.
Proof.
  induction 1 as [|u x v c _ IH HE]; [exact seedv_ok|].
  apply ok_add; [exact IH|eapply E_ok, HE].
Qed.

Lemma reach_ge_seed u x : reach u x -> dle seedv x = true.
Proof.
  induction 1 as [|u x v c Hr IH HE]; [apply le_refl, seedv_ok|].
  pose proof (reach_ok _ _ Hr). pose proof (E_ok _ _ _ HE).
  apply (le_trans _ x); [assumption|assumption|apply ok_add; assumption|assumption|].
  apply add_le_l; assumption.
Qed.

Definition pending (f : @Frontier D) (u : Z) (x : D) : Prop :=
  {| pq_dist := x; pq_edge := u |} ∈ f_pq f.

(** The invariant of a direction.  [cur] is the entry being expanded, if
    any; [b] the best total so far; [rank] numbers the expanded edges in
    the order of their expansion. *)
Record finv (cur : option (Z * D)) (f : @Frontier D) (b : D) (rank : gmap Z nat) : Prop := {
  fi_reach : forall u x, f_dist f !! u = Some x -> reach u x;
  fi_seed : f_dist f !! seed = Some seedv;
  fi_parent_seed : f_parent f !! seed = Some seed;
  fi_dom : forall u, is_Some (f_parent f !! u) <-> is_Some (f_dist f !! u);
  fi_queue : forall e, e ∈ f_pq f ->
    reach (pq_edge e) (pq_dist e) /\
    exists x, f_dist f !! pq_edge e = Some x /\ dle x (pq_dist e) = true;
  fi_cover : forall u x, f_dist f !! u = Some x ->
    cur = Some (u, x) \/ pending f u x \/ dle b x = true \/ is_Some (rank !! u);
  fi_cur : forall u d, cur = Some (u, d) ->
    f_dist f !! u = Some d /\
    (forall e, e ∈ f_pq f -> dle d (pq_dist e) = true) /\
    (forall w r x, rank !! w = Some r -> f_dist f !! w = Some x -> dle x d = true);
  fi_done : forall u r, rank !! u = Some r ->
    exists x, f_dist f !! u = Some x /\
      (forall v c, E u v c -> exists y, f_dist f !! v = Some y /\ dle y (dadd x c) = true) /\
      (forall e, e ∈ f_pq f -> dle x (pq_dist e) = true);
  fi_rank : forall u r, rank !! u = Some r -> (r < size rank)%nat;
  fi_forest : forall v p, f_parent f !! v = Some p -> p <> v ->
    (exists rp, rank !! p = Some rp /\ forall rv, rank !! v = Some rv -> (rp < rv)%nat) \/
    ((exists d, cur = Some (p, d)) /\ rank !! v = None)
}.

Lemma finv_dist_ok cur f b rank u x :
  finv cur f b rank -> f_dist f !! u = Some x -> ok x.
Proof. intros H Hu. eapply reach_ok, fi_reach; eassumption. Qed.

Lemma finv_queue_ok cur f b rank e :
  finv cur f b rank -> e ∈ f_pq f -> ok (pq_dist e).
Proof. intros H He. eapply reach_ok, (fi_queue _ _ _ _ H e He). Qed.

(** The bound may drop. *)
Lemma finv_bound cur f b b' rank :
  ok b -> ok b' -> dle b' b = true -> finv cur f b rank -> finv cur f b' rank.
Proof.
  intros Hb Hb' Hle H. destruct H. split; try assumption.
  intros u x Hu. destruct (fi_cover0 u x Hu) as [?|[?|[Hbx|?]]]; auto.
  right; right; left. apply (le_trans _ b); try assumption.
  eapply reach_ok, fi_reach0, Hu.
Qed.

(** Popping an entry that is then discarded: it is stale, or it is not
    below the bound. *)
Lemma finv_pop_skip f b rank e rest :
  ok b ->
  finv None f b rank ->
  heap_pop (f_pq f) = Some (e, rest) ->
  stale (f_dist f) (pq_edge e) (pq_dist e) = true \/ dge (pq_dist e) b = true ->
  finv None (with_pq rest f) b rank.
Proof.
  intros Hb H Hpop Hskip.
  pose proof (heap_pop_perm _ _ _ Hpop) as Hperm.
  assert (forall e', e' ∈ rest -> e' ∈ f_pq f) as Hsub.
  { intros e' He'. rewrite Hperm. right. exact He'. }
  destruct H. split; cbn [with_pq f_dist f_parent f_pq]; try assumption.
  - intros e' He'. apply fi_queue0, Hsub, He'.
  - intros u x Hu. destruct (fi_cover0 u x Hu) as [?|[Hp|[?|?]]]; auto.
    unfold pending in Hp. rewrite Hperm in Hp.
    apply elem_of_cons in Hp as [Heq|Hp]; [|right; left; exact Hp].
    subst e. cbn [pq_edge pq_dist] in Hskip.
    assert (ok x) as Hx by (eapply reach_ok, fi_reach0, Hu).
    destruct Hskip as [Hst|Hge].
    + unfold stale in Hst. rewrite Hu in Hst. unfold dgt in Hst.
      rewrite lt_irrefl in Hst by assumption. discriminate.
    + right; right; left. exact Hge.
  - intros u d Hcur. discriminate.
  - intros u r Hr. destruct (fi_done0 u r Hr) as (x & Hx & Hrel & Hleast).
    exists x. split; [exact Hx|]. split; [exact Hrel|].
    intros e' He'. apply Hleast, Hsub, He'.
Qed.

(** Emptying a queue none of whose entries is below the bound. *)
Lemma finv_drain f b rank :
  finv None f b rank ->
  (forall e, e ∈ f_pq f -> dle b (pq_dist e) = true) ->
  finv None (with_pq [] f) b rank.
Proof.
  intros H Hall.
  destruct H. split; cbn [with_pq f_dist f_parent f_pq]; try assumption.
  - intros e' He'. inversion He'.
  - intros u x Hu. destruct (fi_cover0 u x Hu) as [?|[Hp|[?|?]]]; auto.
    right; right; left. apply (Hall _ Hp).
  - intros u d Hcur. discriminate.
  - intros u r Hr. destruct (fi_done0 u r Hr) as (x & Hx & Hrel & Hleast).
    exists x. split; [exact Hx|]. split; [exact Hrel|].
    intros e' He'. inversion He'.
Qed.

(** Popping an entry that is not stale: its distance is the recorded one,
    and no entry left in the queue is below it. *)
Lemma finv_pop_begin f b rank e rest :
  finv None f b rank ->
  heap_pop (f_pq f) = Some (e, rest) ->
  stale (f_dist f) (pq_edge e) (pq_dist e) = false ->
  finv (Some (pq_edge e, pq_dist e)) (with_pq rest f) b rank.
Proof.
  intros H Hpop Hst.
  pose proof (heap_pop_perm _ _ _ Hpop) as Hperm.
  assert (forall e', e' ∈ rest -> e' ∈ f_pq f) as Hsub.
  { intros e' He'. rewrite Hperm. right. exact He'. }
  assert (e ∈ f_pq f) as He by (rewrite Hperm; left).
  assert (forall e', e' ∈ f_pq f -> ok (pq_dist e')) as Hok.
  { intros e' He'. eapply finv_queue_ok; eassumption. }
  pose proof (heap_pop_least _ _ _ Hpop Hok) as Hleast.
  destruct (fi_queue _ _ _ _ H e He) as (Hre & x & Hx & Hxe).
  assert (x = pq_dist e) as ->.
  { assert (ok x) by (eapply finv_dist_ok; eassumption).
    apply le_antisym; [assumption|apply Hok, He|exact Hxe|].
    apply le_iff; [apply Hok, He|assumption|].
    unfold stale in Hst. rewrite Hx in Hst. exact Hst. }
  destruct H. split; cbn [with_pq f_dist f_parent f_pq]; try assumption.
  - intros e' He'. apply fi_queue0, Hsub, He'.
  - intros u y Hu. destruct (fi_cover0 u y Hu) as [?|[Hp|[?|?]]]; auto; [discriminate|].
    unfold pending in Hp. rewrite Hperm in Hp.
    apply elem_of_cons in Hp as [Heq|Hp]; [|right; left; exact Hp].
    left. subst e. reflexivity.
  - intros u d [= <- <-]. split; [exact Hx|]. split.
    + intros e' He'. apply Hleast, Hsub, He'.
    + intros w r y Hr Hy. destruct (fi_done0 w r Hr) as (y' & Hy' & _ & Hl).
      rewrite Hy in Hy'. injection Hy' as <-. apply Hl, He.
  - intros u r Hr. destruct (fi_done0 u r Hr) as (y & Hy & Hrel & Hl).
    exists y. split; [exact Hy|]. split; [exact Hrel|].
    intros e' He'. apply Hl, Hsub, He'.
  - intros v p Hp Hne. destruct (fi_forest0 v p Hp Hne) as [?|[[d [=]] _]]. left. assumption.
Qed.

(** Distances only drop. *)
Definition dist_le (m m' : gmap Z D) : Prop :=
  forall w y, m !! w = Some y -> exists y', m' !! w = Some y' /\ dle y' y = true.

Lemma relax_unfold u v nd (f : @Frontier D) :
  relax u v nd f =
  if improves (f_dist f) v nd then
    {| f_dist := <[v := nd]> (f_dist f);
       f_parent := <[v := u]> (f_parent f);
       f_pq := f_pq f ++ [{| pq_dist := nd; pq_edge := v |}] |}
  else f.
Proof. reflexivity. Qed.

(** Relaxing an edge out of the entry being expanded. *)
Lemma finv_relax f b rank u d v c :
  finv (Some (u, d)) f b rank ->
  E u v c ->
  let f' := relax u v (dadd d c) f in
  finv (Some (u, d)) f' b rank /\
  (exists y, f_dist f' !! v = Some y /\ dle y (dadd d c) = true) /\
  dist_le (f_dist f) (f_dist f') /\
  (length (f_pq f') <= S (length (f_pq f)))%nat /\
  (is_Some (rank !! u) -> f' = f).
Proof.
  intros H HE f'.
  destruct (fi_cur _ _ _ _ H u d eq_refl) as (Hu & Hleast & Hranked).
  assert (reach u d) as Hru by (eapply fi_reach; eassumption).
  assert (ok d) as Hd by (eapply reach_ok; eassumption).
  assert (ok c) as Hc by (eapply E_ok; eassumption).
  set (nd := dadd d c) in *.
  assert (reach v nd) as Hrv by (eapply reach_step; eassumption).
  assert (ok nd) as Hnd by (eapply reach_ok; eassumption).
  assert (dle d nd = true) as Hdnd by (apply add_le_l; assumption).
  subst f'. rewrite relax_unfold.
  destruct (improves (f_dist f) v nd) eqn:Himp.
  2:{ (* no improvement *)
    split; [exact H|]. split.
    { unfold improves in Himp. destruct (f_dist f !! v) as [y|] eqn:Hy; [|discriminate].
      exists y. split; [reflexivity|]. apply le_iff; [|assumption..].
      eapply finv_dist_ok; eassumption. }
    split; [intros w y Hw; exists y; split; [exact Hw|]; apply le_refl;
            eapply finv_dist_ok; eassumption|].
    split; [lia|reflexivity]. }
  (* improvement *)
  assert (forall y, f_dist f !! v = Some y -> dlt nd y = true) as Hlt.
  { intros y Hy. unfold improves in Himp. rewrite Hy in Himp. exact Himp. }
  assert (forall y, f_dist f !! v = Some y -> dle y nd = true -> False) as Habs.
  { intros y Hy Hle. apply le_iff in Hle; [|eapply finv_dist_ok; eassumption|assumption].
    rewrite (Hlt y Hy) in Hle. discriminate. }
  assert (v <> u) as Hvu.
  { intros ->. eapply Habs; eassumption. }
  assert (v <> seed) as Hvs.
  { intros ->. eapply Habs; [eapply fi_seed; eassumption|].
    eapply reach_ge_seed; eassumption. }
  assert (rank !! v = None) as Hvr.
  { destruct (rank !! v) as [r|] eqn:Hr; [|reflexivity]. exfalso.
    destruct (fi_done _ _ _ _ H v r Hr) as (x & Hx & _ & _).
    eapply Habs; [exact Hx|].
    apply (le_trans _ d); [eapply finv_dist_ok; eassumption|assumption..| |assumption].
    eapply Hranked; eassumption. }
  assert (rank !! u = None) as Hur.
  { destruct (rank !! u) as [r|] eqn:Hr; [|reflexivity]. exfalso.
    destruct (fi_done _ _ _ _ H u r Hr) as (x & Hx & Hrel & _).
    rewrite Hu in Hx. injection Hx as <-.
    destruct (Hrel v c HE) as (y & Hy & Hle). eapply Habs; eassumption. }
  split; [|split; [|split; [|split]]].
  - destruct H. split; cbn [f_dist f_parent f_pq].
    + intros w x Hw. destruct (Z.eq_dec v w) as [<-|Hne].
      * rewrite lookup_insert_eq in Hw. injection Hw as <-. exact Hrv.
      * rewrite lookup_insert_ne in Hw by assumption. eapply fi_reach0, Hw.
    + rewrite lookup_insert_ne by assumption. exact fi_seed0.
    + rewrite lookup_insert_ne by assumption. exact fi_parent_seed0.
    + intros w. destruct (Z.eq_dec v w) as [<-|Hne].
      * rewrite !lookup_insert_eq. split; intros _; eexists; reflexivity.
      * rewrite !lookup_insert_ne by assumption. apply fi_dom0.
    + intros e [He|He]%elem_of_app.
      * destruct (fi_queue0 e He) as (Hre & x & Hx & Hxe). split; [exact Hre|].
        destruct (Z.eq_dec v (pq_edge e)) as [Heq|Hne].
        -- exists nd. rewrite <- Heq, lookup_insert_eq. split; [reflexivity|].
           rewrite <- Heq in Hx.
           assert (ok x) by (eapply reach_ok, fi_reach0, Hx).
           assert (ok (pq_dist e)) by (eapply reach_ok, Hre).
           apply (le_trans _ x); [assumption..| |exact Hxe].
           apply lt_le; [assumption..|]. apply Hlt, Hx.
        -- exists x. rewrite lookup_insert_ne by assumption. split; assumption.
      * apply list_elem_of_singleton in He as ->. cbn [pq_edge pq_dist].
        split; [exact Hrv|]. exists nd. rewrite lookup_insert_eq.
        split; [reflexivity|apply le_refl, Hnd].
    + intros w x Hw. destruct (Z.eq_dec v w) as [<-|Hne].
      * rewrite lookup_insert_eq in Hw. injection Hw as <-.
        right; left. unfold pending. cbn [f_pq]. apply elem_of_app. right. left.
      * rewrite lookup_insert_ne in Hw by assumption.
        destruct (fi_cover0 w x Hw) as [?|[Hp|[?|?]]]; auto.
        right; left. unfold pending in *. cbn [f_pq]. apply elem_of_app. left. exact Hp.
    + intros w dw [= <- <-]. rewrite lookup_insert_ne by assumption.
      split; [exact Hu|]. split.
      * intros e [He|He]%elem_of_app; [apply Hleast, He|].
        apply list_elem_of_singleton in He as ->. exact Hdnd.
      * intros w r x Hr Hx. assert (v <> w) by congruence.
        rewrite lookup_insert_ne in Hx by assumption. eapply Hranked; eassumption.
    + intros w r Hr. assert (v <> w) as Hne by congruence.
      destruct (fi_done0 w r Hr) as (x & Hx & Hrel & Hl).
      exists x. rewrite lookup_insert_ne by assumption. split; [exact Hx|]. split.
      * intros v' c' HE'. destruct (Hrel v' c' HE') as (y & Hy & Hle).
        destruct (Z.eq_dec v v') as [<-|Hne'].
        -- exists nd. rewrite lookup_insert_eq. split; [reflexivity|].
           assert (ok x) by (eapply reach_ok, fi_reach0, Hx).
           assert (ok y) by (eapply reach_ok, fi_reach0, Hy).
           assert (ok c') by (eapply E_ok, HE').
           apply (le_trans _ y); [assumption|assumption|apply ok_add; assumption| |exact Hle].
           apply lt_le; [assumption..|]. apply Hlt, Hy.
        -- exists y. rewrite lookup_insert_ne by assumption. split; assumption.
      * intros e [He|He]%elem_of_app; [apply Hl, He|].
        apply list_elem_of_singleton in He as ->. cbn [pq_dist].
        assert (ok x) by (eapply reach_ok, fi_reach0, Hx).
        apply (le_trans _ d); [assumption..| |exact Hdnd].
        eapply Hranked; eassumption.
    + exact fi_rank0.
    + intros w p Hp Hne. destruct (Z.eq_dec v w) as [<-|Hne'].
      * rewrite lookup_insert_eq in Hp. injection Hp as <-.
        right. split; [eexists; reflexivity|exact Hvr].
      * rewrite lookup_insert_ne in Hp by assumption. apply fi_forest0; assumption.
  - exists nd. cbn [f_dist]. rewrite lookup_insert_eq. split; [reflexivity|apply le_refl, Hnd].
  - intros w y Hw. cbn [f_dist]. destruct (Z.eq_dec v w) as [<-|Hne].
    + exists nd. rewrite lookup_insert_eq. split; [reflexivity|].
      apply lt_le; [assumption|eapply finv_dist_ok; eassumption|]. apply Hlt, Hw.
    + exists y. rewrite lookup_insert_ne by assumption. split; [exact Hw|].
      apply le_refl. eapply finv_dist_ok; eassumption.
  - cbn [f_pq]. rewrite length_app. cbn. lia.
  - intros [r Hr]. congruence.
Qed.

(** The rank an edge gets when its expansion ends. *)
Definition rank_add (u : Z) (rank : gmap Z nat) : gmap Z nat :=
  match rank !! u with
  | Some _ => rank
  | None => <[u := size rank]> rank
  end.

Lemma rank_add_lookup u rank : is_Some (rank_add u rank !! u).
Proof.
  unfold rank_add. destruct (rank !! u) eqn:Hu; [rewrite Hu; eauto|].
  rewrite lookup_insert_eq. eauto.
Qed.

Lemma rank_add_keep u rank w r : rank !! w = Some r -> rank_add u rank !! w = Some r.
Proof.
  intros Hw. unfold rank_add. destruct (rank !! u) eqn:Hu; [exact Hw|].
  rewrite lookup_insert_ne by congruence. exact Hw.
Qed.

Lemma rank_add_other u rank w : w <> u -> rank_add u rank !! w = rank !! w.
Proof.
  intros Hne. unfold rank_add. destruct (rank !! u) eqn:Hu; [reflexivity|].
  rewrite lookup_insert_ne by congruence. reflexivity.
Qed.

(** The end of an expansion: every edge out of [u] has been relaxed. *)
Lemma finv_expanded f b rank u d :
  finv (Some (u, d)) f b rank ->
  (forall v c, E u v c -> exists y, f_dist f !! v = Some y /\ dle y (dadd d c) = true) ->
  finv None f b (rank_add u rank).
Proof.
  intros H Hrel.
  destruct (fi_cur _ _ _ _ H u d eq_refl) as (Hu & Hleast & Hranked).
  destruct H. split; try assumption.
  - intros w x Hw. destruct (fi_cover0 w x Hw) as [Heq|[?|[?|[r Hr]]]]; auto.
    + injection Heq as <- <-. right; right; right. apply rank_add_lookup.
    + right; right; right. exists r. apply rank_add_keep, Hr.
  - intros w dw [=].
  - intros w r Hr. destruct (Z.eq_dec w u) as [->|Hne].
    + exists d. split; [exact Hu|]. split; [exact Hrel|exact Hleast].
    + rewrite rank_add_other in Hr by assumption. eapply fi_done0, Hr.
  - intros w r Hr. unfold rank_add in *. destruct (rank !! u) eqn:Hru.
    + eapply fi_rank0, Hr.
    + rewrite map_size_insert_None by assumption.
      destruct (Z.eq_dec u w) as [->|Hne].
      * rewrite lookup_insert_eq in Hr. injection Hr as <-. lia.
      * rewrite lookup_insert_ne in Hr by assumption.
        pose proof (fi_rank0 w r Hr). lia.
  - intros v p Hp Hne. left.
    destruct (fi_forest0 v p Hp Hne) as [(rp & Hrp & Hlt)|[[d' Heq] Hv]];
      [|injection Heq as <- <-].
    + exists rp. split; [apply rank_add_keep, Hrp|].
      intros rv Hrv. destruct (Z.eq_dec v u) as [->|Hvu].
      * unfold rank_add in Hrv. destruct (rank !! u) eqn:Hru.
        -- apply Hlt. congruence.
        -- rewrite lookup_insert_eq in Hrv. injection Hrv as <-.
           eapply fi_rank0, Hrp.
      * rewrite rank_add_other in Hrv by assumption. apply Hlt, Hrv.
    + destruct (rank_add_lookup u rank) as [ru Hru]. exists ru. split; [exact Hru|].
      intros rv Hrv. rewrite rank_add_other in Hrv by congruence. congruence.
Qed.

Lemma dist_le_refl cur f b rank : finv cur f b rank -> dist_le (f_dist f) (f_dist f).
Proof.
  intros H w y Hw. exists y. split; [exact Hw|].
  apply le_refl. eapply finv_dist_ok; eassumption.
Qed.

Lemma dist_le_trans cur1 f1 b1 r1 cur2 f2 b2 r2 cur3 f3 b3 r3 :
  finv cur1 f1 b1 r1 -> finv cur2 f2 b2 r2 -> finv cur3 f3 b3 r3 ->
  dist_le (f_dist f1) (f_dist f2) -> dist_le (f_dist f2) (f_dist f3) ->
  dist_le (f_dist f1) (f_dist f3).
Proof.
  intros H1 H2 H3 H12 H23 w y Hw.
  destruct (H12 w y Hw) as (y2 & Hy2 & Hle2).
  destruct (H23 w y2 Hy2) as (y3 & Hy3 & Hle3).
  exists y3. split; [exact Hy3|].
  apply (le_trans _ y2); [| | |assumption|assumption].
  - eapply (finv_dist_ok _ _ _ _ _ _ H3), Hy3.
  - eapply (finv_dist_ok _ _ _ _ _ _ H2), Hy2.
  - eapply (finv_dist_ok _ _ _ _ _ _ H1), Hw.
Qed.

(** The [for] loop over the admissible edges out of [u]. *)
Definition relax_all (u : Z) (d : D) (edges : list (Z * D)) (f : @Frontier D) : @Frontier D :=
  foldl (fun f vc => relax u vc.1 (dadd d vc.2) f) f edges.

Lemma finv_relax_all u d b rank edges : forall f,
  finv (Some (u, d)) f b rank ->
  (forall v c, (v, c) ∈ edges -> E u v c) ->
  let f' := relax_all u d edges f in
  finv (Some (u, d)) f' b rank /\
  (forall v c, (v, c) ∈ edges ->
     exists y, f_dist f' !! v = Some y /\ dle y (dadd d c) = true) /\
  dist_le (f_dist f) (f_dist f') /\
  (length (f_pq f') <= length (f_pq f) + length edges)%nat /\
  (is_Some (rank !! u) -> f' = f).
Proof.
  induction edges as [|[v c] edges IH]; intros f H HE; cbn [relax_all foldl].
  - split; [exact H|]. split; [intros v c Hin; inversion Hin|].
    split; [eapply dist_le_refl, H|]. split; [cbn; lia|reflexivity].
  - assert (E u v c) as Hvc by (apply HE; left).
    destruct (finv_relax f b rank u d v c H Hvc) as (H1 & Hv & Hle1 & Hlen1 & Hsame1).
    cbn [fst snd].
    destruct (IH (relax u v (dadd d c) f) H1) as (H2 & Hall & Hle2 & Hlen2 & Hsame2).
    { intros v' c' Hin. apply HE. right. exact Hin. }
    fold (relax_all u d edges (relax u v (dadd d c) f)) in *.
    split; [exact H2|]. split; [|split; [|split]].
    + intros v' c' [[= -> ->]|Hin]%elem_of_cons; [|apply Hall, Hin].
      destruct Hv as (y & Hy & Hyle). destruct (Hle2 v y Hy) as (y' & Hy' & Hle').
      exists y'. split; [exact Hy'|].
      apply (le_trans _ y); [| | |assumption|assumption].
      * eapply (finv_dist_ok _ _ _ _ _ _ H2), Hy'.
      * eapply (finv_dist_ok _ _ _ _ _ _ H1), Hy.
      * apply ok_add; [|eapply E_ok, Hvc].
        eapply reach_ok, (fi_reach _ _ _ _ H), (fi_cur _ _ _ _ H u d eq_refl).
    + eapply (dist_le_trans _ _ _ _ _ _ _ _ _ _ _ _ H H1 H2); assumption.
    + cbn [length]. lia.
    + intros Hr. rewrite Hsame2 by exact Hr. apply Hsame1, Hr.
Qed.

(** The adjacency weight of the edges not expanded yet. *)
Definition weight (adj : gmap Z (list nat)) (rank : gmap Z nat) : nat :=
  sum_list_with (fun ul : Z * list nat =>
                   match rank !! ul.1 with Some _ => 0%nat | None => length ul.2 end)
                (map_to_list adj).

Lemma sum_list_with_ext {A} (f g : A -> nat) l :
  (forall x, x ∈ l -> f x = g x) -> sum_list_with f l = sum_list_with g l.
Proof.
  induction l as [|x l IH]; intros H; [reflexivity|].
  cbn. rewrite (H x) by left. rewrite IH; [reflexivity|].
  intros y Hy. apply H. right. exact Hy.
Qed.

Lemma weight_rank_add adj rank u :
  (weight adj (rank_add u rank)
   + match rank !! u with Some _ => 0 | None => length (adjacent adj u) end
   = weight adj rank)%nat.
Proof.
  unfold rank_add. destruct (rank !! u) eqn:Hru; [lia|].
  unfold weight, adjacent.
  destruct (adj !! u) as [l|] eqn:Hau.
  - rewrite <- !(map_to_list_delete adj u l Hau). cbn [sum_list_with fst snd default].
    rewrite lookup_insert_eq, Hru.
    rewrite (sum_list_with_ext _ (fun ul : Z * list nat =>
               match rank !! ul.1 with Some _ => 0%nat | None => length ul.2 end)).
    + unfold id. lia.
    + intros [w lw] Hin. apply elem_of_map_to_list in Hin. cbn [fst snd].
      assert (u <> w).
      { intros <-. rewrite lookup_delete_eq in Hin. discriminate. }
      rewrite lookup_insert_ne by assumption. reflexivity.
  - cbn [default length]. rewrite Nat.add_0_r. apply sum_list_with_ext.
    intros [w lw] Hin. apply elem_of_map_to_list in Hin. cbn [fst snd].
    assert (u <> w) by congruence.
    rewrite lookup_insert_ne by assumption. reflexivity.
Qed.

(** The whole expansion of a popped entry that is not stale. *)
Lemma finv_expand f b rank e rest edges :
  finv None f b rank ->
  heap_pop (f_pq f) = Some (e, rest) ->
  stale (f_dist f) (pq_edge e) (pq_dist e) = false ->
  (forall v c, (v, c) ∈ edges <-> E (pq_edge e) v c) ->
  let f' := relax_all (pq_edge e) (pq_dist e) edges (with_pq rest f) in
  finv None f' b (rank_add (pq_edge e) rank) /\
  dist_le (f_dist f) (f_dist f') /\
  forall adj, (length edges <= length (adjacent adj (pq_edge e)))%nat ->
    (S (length (f_pq f') + weight adj (rank_add (pq_edge e) rank))
     <= length (f_pq f) + weight adj rank)%nat.
Proof.
  intros H Hpop Hst Hedges f'.
  pose proof (finv_pop_begin f b rank e rest H Hpop Hst) as Hmid.
  destruct (finv_relax_all (pq_edge e) (pq_dist e) b rank edges (with_pq rest f) Hmid)
    as (H2 & Hall & Hle & Hlen & Hsame).
  { intros v c Hin. apply Hedges, Hin. }
  fold f' in H2, Hall, Hle, Hlen, Hsame.
  split; [|split].
  - apply (finv_expanded f' b rank (pq_edge e) (pq_dist e) H2).
    intros v c HE. apply Hall, Hedges, HE.
  - exact Hle.
  - intros adj Hdeg. pose proof (weight_rank_add adj rank (pq_edge e)) as Hw.
    pose proof (Permutation_length (heap_pop_perm _ _ _ Hpop)) as Hpl.
    cbn [length with_pq f_pq] in Hpl, Hlen.
    destruct (rank !! pq_edge e) eqn:Hr.
    + rewrite Hsame in * by eauto. cbn [with_pq f_pq]. lia.
    + lia.
Qed.

Lemma finv_pop_skip_measure f e rest adj rank :
  heap_pop (f_pq f) = Some (e, rest) ->
  (S (length (f_pq (with_pq rest f)) + weight adj rank)
   <= length (f_pq f) + weight adj rank)%nat.
Proof.
  intros Hpop. pose proof (Permutation_length (heap_pop_perm _ _ _ Hpop)) as Hpl.
  cbn [length with_pq f_pq] in *. lia.
Qed.

(** When no queued entry is below the bound, every walk cheaper than the
    bound is matched by the distance table. *)
Lemma finv_complete f b rank :
  finv None f b rank -> ok b ->
  (forall e, e ∈ f_pq f -> dle b (pq_dist e) = true) ->
  forall u x, reach u x -> dlt x b = true ->
  exists y, f_dist f !! u = Some y /\ dle y x = true.
Proof.
  intros H Hb Hq u x Hr. induction Hr as [|u x v c Hr IH HE]; intros Hlt.
  - exists seedv. split; [eapply fi_seed, H|apply le_refl, seedv_ok].
  - pose proof (reach_ok _ _ Hr) as Hx. pose proof (E_ok _ _ _ HE) as Hc.
    assert (ok (dadd x c)) as Hxc by (apply ok_add; assumption).
    assert (dlt x b = true) as Hxb.
    { apply (le_lt_trans _ (dadd x c)); [assumption..| |exact Hlt].
      apply add_le_l; assumption. }
    destruct (IH Hxb) as (y & Hy & Hyx).
    assert (ok y) as Hoy by (eapply finv_dist_ok; eassumption).
    assert (dle b y = true -> False) as Habs.
    { intros Hby. pose proof (le_trans _ _ _ Hb Hoy Hx Hby Hyx) as Hbx.
      apply le_iff in Hbx; [|assumption..]. congruence. }
    destruct (fi_cover _ _ _ _ H u y Hy) as [[=]|[Hp|[Hby|[r Hrk]]]].
    + exfalso. apply Habs. apply (Hq _ Hp).
    + exfalso. apply Habs, Hby.
    + destruct (fi_done _ _ _ _ H u r Hrk) as (y' & Hy' & Hrel & _).
      rewrite Hy in Hy'. injection Hy' as <-.
      destruct (Hrel v c HE) as (z & Hz & Hzle). exists z. split; [exact Hz|].
      apply (le_trans _ (dadd y c)); [eapply finv_dist_ok; eassumption| |assumption|exact Hzle|].
      * apply ok_add; assumption.
      * apply add_mono_l; assumption.
Qed.

(** The state of a direction after its seeding. *)
Definition seeded_frontier : @Frontier D :=
  {| f_dist := {[ seed := seedv ]};
     f_parent := {[ seed := seed ]};
     f_pq := [ {| pq_dist := seedv; pq_edge := seed |} ] |}.

Lemma finv_seeded b : finv None seeded_frontier b ∅.
Proof.
  split; cbn [seeded_frontier f_dist f_parent f_pq].
  - intros u x [<- <-]%lookup_singleton_Some. constructor.
  - apply lookup_singleton_eq.
  - apply lookup_singleton_eq.
  - intros u. destruct (Z.eq_dec seed u) as [<-|Hne].
    + rewrite !lookup_singleton_eq. split; intros _; eauto.
    + rewrite !lookup_singleton_ne by assumption.
      split; intros [? [=]].
  - intros e ->%list_elem_of_singleton. cbn [pq_edge pq_dist].
    split; [constructor|]. exists seedv. rewrite lookup_singleton_eq.
    split; [reflexivity|apply le_refl, seedv_ok].
  - intros u x [<- <-]%lookup_singleton_Some. right; left. left.
  - intros u d [=].
  - intros u r Hr. rewrite lookup_empty in Hr. discriminate.
  - intros u r Hr. rewrite lookup_empty in Hr. discriminate.
  - intros v p [<- <-]%lookup_singleton_Some Hne. contradiction.
Qed.

(** *** The parent chains end *)

Lemma walk_fwd_more parent : forall n m curr l,
  (n <= m)%nat -> walk_fwd n parent curr = Some l -> walk_fwd m parent curr = Some l.
Proof.
  induction n as [|n IH]; intros m curr l Hle H; [discriminate|].
  destruct m as [|m]; [lia|]. cbn [walk_fwd] in *.
  destruct (parent_at parent curr =? curr); [exact H|].
  destruct (walk_fwd n parent (parent_at parent curr)) as [l'|] eqn:Hw; [|discriminate].
  rewrite (IH m _ l') by (lia || assumption). exact H.
Qed.

Lemma walk_bwd_more parent : forall n m curr l,
  (n <= m)%nat -> walk_bwd n parent curr = Some l -> walk_bwd m parent curr = Some l.
Proof.
  induction n as [|n IH]; intros m curr l Hle H; [discriminate|].
  destruct m as [|m]; [lia|]. cbn [walk_bwd] in *.
  destruct (parent_at parent curr =? curr); [exact H|].
  destruct (walk_bwd n parent (parent_at parent curr)) as [l'|] eqn:Hw; [|discriminate].
  rewrite (IH m _ l') by (lia || assumption). exact H.
Qed.

Lemma finv_ranked_parent f b rank u r :
  finv None f b rank -> rank !! u = Some r ->
  parent_at (f_parent f) u = u \/
  exists rp, rank !! parent_at (f_parent f) u = Some rp /\ (rp < r)%nat.
Proof.
  intros H Hr.
  destruct (fi_done _ _ _ _ H u r Hr) as (x & Hx & _).
  destruct (proj2 (fi_dom _ _ _ _ H u) (ex_intro _ x Hx)) as [p Hp].
  unfold parent_at. rewrite Hp. cbn [default from_option id].
  destruct (Z.eq_dec p u) as [->|Hne]; [left; reflexivity|right].
  destruct (fi_forest _ _ _ _ H u p Hp Hne) as [(rp & Hrp & Hlt)|[[d [=]] _]].
  exists rp. split; [exact Hrp|apply Hlt, Hr].
Qed.

Lemma walk_fwd_ranked f b rank :
  finv None f b rank ->
  forall r u, rank !! u = Some r -> is_Some (walk_fwd (S r) (f_parent f) u).
Proof.
  intros H r. induction r as [r IH] using lt_wf_ind. intros u Hr.
  cbn [walk_fwd].
  destruct (finv_ranked_parent f b rank u r H Hr) as [Heq|(rp & Hrp & Hlt)].
  - rewrite Heq, Z.eqb_refl. eauto.
  - destruct (parent_at (f_parent f) u =? u); [eauto|].
    destruct (IH rp Hlt _ Hrp) as [l Hl].
    rewrite (walk_fwd_more _ (S rp) r _ l) by (lia || assumption). cbn. eauto.
Qed.

Lemma walk_bwd_ranked f b rank :
  finv None f b rank ->
  forall r u, rank !! u = Some r -> is_Some (walk_bwd (S r) (f_parent f) u).
Proof.
  intros H r. induction r as [r IH] using lt_wf_ind. intros u Hr.
  cbn [walk_bwd].
  destruct (finv_ranked_parent f b rank u r H Hr) as [Heq|(rp & Hrp & Hlt)].
  - rewrite Heq, Z.eqb_refl. eauto.
  - destruct (parent_at (f_parent f) u =? u); [eauto|].
    destruct (IH rp Hlt _ Hrp) as [l Hl].
    rewrite (walk_bwd_more _ (S rp) r _ l) by (lia || assumption). cbn. eauto.
Qed.

Lemma finv_rank_size f b rank :
  finv None f b rank -> (size rank <= size (f_parent f))%nat.
Proof.
  intros H. rewrite <- (size_dom rank), <- (size_dom (f_parent f)).
  apply subseteq_size. intros u [r Hr]%elem_of_dom. apply elem_of_dom.
  destruct (fi_done _ _ _ _ H u r Hr) as (x & Hx & _).
  apply (fi_dom _ _ _ _ H u). eauto.
Qed.

(** From an edge with a recorded distance, both walks of the
    reconstruction end within the rounds it allows. *)
Lemma finv_walks_end f b rank u :
  finv None f b rank -> is_Some (f_dist f !! u) ->
  is_Some (walk_fwd (size (f_parent f) + 3) (f_parent f) u) /\
  is_Some (walk_bwd (size (f_parent f) + 3) (f_parent f) u).
Proof.
  intros H Hu. pose proof (finv_rank_size f b rank H) as Hsize.
  destruct (proj2 (fi_dom _ _ _ _ H u) Hu) as [p Hp].
  replace (size (f_parent f) + 3)%nat with (S (size (f_parent f) + 2)) by lia.
  cbn [walk_fwd walk_bwd]. unfold parent_at at 1 3. rewrite Hp. cbn [default from_option id].
  destruct (Z.eqb_spec p u) as [->|Hne]; [split; eauto|].
  destruct (fi_forest _ _ _ _ H u p Hp Hne) as [(rp & Hrp & _)|[[d [=]] _]].
  pose proof (fi_rank _ _ _ _ H p rp Hrp) as Hlt.
  unfold parent_at. rewrite Hp. cbn [default from_option id].
  destruct (walk_fwd_ranked f b rank H rp p Hrp) as [l Hl].
  destruct (walk_bwd_ranked f b rank H rp p Hrp) as [l' Hl'].
  rewrite (walk_fwd_more _ (S rp) _ _ l) by (lia || assumption).
  rewrite (walk_bwd_more _ (S rp) _ _ l') by (lia || assumption).
  split; cbn; eauto.
Qed.

End FrontierInv.

(** ** The two directions of a search over a store *)

Section Edges.
Context {D : Type} {dops : DoubleOps D}.

(** The edges the forward [for] loops relax, read off the positions
    [idxs] of an adjacency: target and cost of every [inside = +1]
    shortcut. *)
Definition fwd_targets (g : @ShortcutGraph D) (idxs : list nat) : list (Z * D) :=
  omap (fun idx =>
          match shortcuts_ g !! idx with
          | Some sc => if sc_inside sc =? 1 then Some (sc_to sc, sc_cost sc) else None
          | None => None
          end) idxs.

(** The edges the backward loops of the classic and the multi-endpoint
    search relax: origin and cost of every shortcut with [inside] -1 or 0. *)
Definition bwd_targets (g : @ShortcutGraph D) (idxs : list nat) : list (Z * D) :=
  omap (fun idx =>
          match shortcuts_ g !! idx with
          | Some sc =>
              if negb (sc_inside sc =? -1) && negb (sc_inside sc =? 0) then None
              else Some (sc_from sc, sc_cost sc)
          | None => None
          end) idxs.

Definition fwd_edge (g : @ShortcutGraph D) (u v : Z) (c : D) : Prop :=
  (v, c) ∈ fwd_targets g (adjacent (fwd_adj_ g) u).

Definition bwd_edge (g : @ShortcutGraph D) (u v : Z) (c : D) : Prop :=
  (v, c) ∈ bwd_targets g (adjacent (bwd_adj_ g) u).

Lemma fwd_targets_cons (g : @ShortcutGraph D) idx idxs :
  fwd_targets g (idx :: idxs) =
  match shortcuts_ g !! idx with
  | Some sc =>
      if sc_inside sc =? 1 then (sc_to sc, sc_cost sc) :: fwd_targets g idxs
      else fwd_targets g idxs
  | None => fwd_targets g idxs
  end.
Proof.
  unfold fwd_targets. cbn. destruct (shortcuts_ g !! idx) as [sc|]; [|reflexivity].
  destruct (sc_inside sc =? 1); reflexivity.
Qed.

Lemma bwd_targets_cons (g : @ShortcutGraph D) idx idxs :
  bwd_targets g (idx :: idxs) =
  match shortcuts_ g !! idx with
  | Some sc =>
      if negb (sc_inside sc =? -1) && negb (sc_inside sc =? 0) then bwd_targets g idxs
      else (sc_from sc, sc_cost sc) :: bwd_targets g idxs
  | None => bwd_targets g idxs
  end.
Proof.
  unfold bwd_targets. cbn. destruct (shortcuts_ g !! idx) as [sc|]; [|reflexivity].
  destruct (negb (sc_inside sc =? -1) && negb (sc_inside sc =? 0)); reflexivity.
Qed.

Lemma omap_length_le {A B} (f : A -> option B) l : (length (omap f l) <= length l)%nat.
Proof. induction l as [|x l IH]; cbn; [lia|]. destruct (f x); cbn; lia. Qed.

Lemma fwd_of_set_pq_fwd q (st : @Search D) : fwd_of (set_pq_fwd q st) = with_pq q (fwd_of st).
Proof. reflexivity. Qed.

Lemma bwd_of_set_pq_bwd q (st : @Search D) : bwd_of (set_pq_bwd q st) = with_pq q (bwd_of st).
Proof. reflexivity. Qed.

Lemma fwd_of_edge_fwd d u sc (st : @Search D) :
  fwd_of (edge_fwd d u sc st) = relax u (sc_to sc) (dadd d (sc_cost sc)) (fwd_of st).
Proof.
  unfold edge_fwd, relax. cbn [fwd_of f_dist].
  destruct (improves (dist_fwd st) (sc_to sc) (dadd d (sc_cost sc))); reflexivity.
Qed.

Lemma bwd_of_edge_bwd d u sc (st : @Search D) :
  bwd_of (edge_bwd d u sc st) = relax u (sc_from sc) (dadd d (sc_cost sc)) (bwd_of st).
Proof.
  unfold edge_bwd, relax. cbn [bwd_of f_dist].
  destruct (improves (dist_bwd st) (sc_from sc) (dadd d (sc_cost sc))); reflexivity.
Qed.

(** What a relaxation without meeting test leaves alone. *)
Lemma edge_fwd_frame d u sc (st : @Search D) :
  bwd_of (edge_fwd d u sc st) = bwd_of st /\
  best (edge_fwd d u sc st) = best st /\
  meeting (edge_fwd d u sc st) = meeting st /\
  found (edge_fwd d u sc st) = found st.
Proof.
  unfold edge_fwd. destruct (improves _ _ _); repeat split; reflexivity.
Qed.

Lemma edge_bwd_frame d u sc (st : @Search D) :
  fwd_of (edge_bwd d u sc st) = fwd_of st /\
  best (edge_bwd d u sc st) = best st /\
  meeting (edge_bwd d u sc st) = meeting st /\
  found (edge_bwd d u sc st) = found st.
Proof.
  unfold edge_bwd. destruct (improves _ _ _); repeat split; reflexivity.
Qed.

Lemma multi_fold_fwd (g : @ShortcutGraph D) d u idxs : forall st,
  let st' := foldl (multi_relax_fwd g d u) st idxs in
  fwd_of st' = relax_all u d (fwd_targets g idxs) (fwd_of st) /\
  bwd_of st' = bwd_of st /\ best st' = best st /\
  meeting st' = meeting st /\ found st' = found st.
Proof.
  induction idxs as [|idx idxs IH]; intros st; [repeat split; reflexivity|].
  cbn [foldl]. rewrite fwd_targets_cons. specialize (IH (multi_relax_fwd g d u st idx)).
  cbv zeta in IH. destruct IH as (IHf & IHb & IHbest & IHm & IHfound).
  rewrite IHf, IHb, IHbest, IHm, IHfound. clear IHf IHb IHbest IHm IHfound.
  unfold multi_relax_fwd. destruct (shortcuts_ g !! idx) as [sc|]; [|repeat split; reflexivity].
  destruct (sc_inside sc =? 1); cbn [negb]; [|repeat split; reflexivity].
  unfold relax_all at 2. cbn [foldl fst snd]. rewrite fwd_of_edge_fwd.
  destruct (edge_fwd_frame d u sc st) as (-> & -> & -> & ->).
  repeat split; reflexivity.
Qed.

Lemma multi_fold_bwd (g : @ShortcutGraph D) d u idxs : forall st,
  let st' := foldl (multi_relax_bwd g d u) st idxs in
  bwd_of st' = relax_all u d (bwd_targets g idxs) (bwd_of st) /\
  fwd_of st' = fwd_of st /\ best st' = best st /\
  meeting st' = meeting st /\ found st' = found st.
Proof.
  induction idxs as [|idx idxs IH]; intros st; [repeat split; reflexivity|].
  cbn [foldl]. rewrite bwd_targets_cons. specialize (IH (multi_relax_bwd g d u st idx)).
  cbv zeta in IH. destruct IH as (IHf & IHb & IHbest & IHm & IHfound).
  rewrite IHf, IHb, IHbest, IHm, IHfound. clear IHf IHb IHbest IHm IHfound.
  unfold multi_relax_bwd. destruct (shortcuts_ g !! idx) as [sc|]; [|repeat split; reflexivity].
  destruct (negb (sc_inside sc =? -1) && negb (sc_inside sc =? 0)); [repeat split; reflexivity|].
  unfold relax_all at 2. cbn [foldl fst snd]. rewrite bwd_of_edge_bwd.
  destruct (edge_bwd_frame d u sc st) as (-> & -> & -> & ->).
  repeat split; reflexivity.
Qed.

End Edges.

(** *** What relaxations do to a direction, whatever the invariant *)

Section RelaxFacts.
Context {D : Type} {dops : DoubleOps D}.

Lemma relax_grows u v nd (f : @Frontier D) :
  let f' := relax u v nd f in
  (forall e, e ∈ f_pq f -> e ∈ f_pq f') /\
  (forall m, is_Some (f_dist f !! m) -> is_Some (f_dist f' !! m)) /\
  (forall m x, f_dist f' !! m = Some x ->
     f_dist f !! m = Some x \/ {| pq_dist := x; pq_edge := m |} ∈ f_pq f').
Proof.
  unfold relax. destruct (improves (f_dist f) v nd); cbn [f_dist f_pq heap_push].
  - split; [intros e He; apply elem_of_app; left; exact He|]. split.
    + intros m Hm. destruct (Z.eq_dec v m) as [<-|Hne].
      * rewrite lookup_insert_eq. eauto.
      * rewrite lookup_insert_ne by assumption. exact Hm.
    + intros m x Hm. destruct (Z.eq_dec v m) as [<-|Hne].
      * rewrite lookup_insert_eq in Hm. injection Hm as <-.
        right. apply elem_of_app. right. left.
      * rewrite lookup_insert_ne in Hm by assumption. left. exact Hm.
  - split; [auto|]. split; [auto|]. intros m x Hm. left. exact Hm.
Qed.

Lemma relax_all_grows u d edges : forall f : @Frontier D,
  let f' := relax_all u d edges f in
  (forall e, e ∈ f_pq f -> e ∈ f_pq f') /\
  (forall m, is_Some (f_dist f !! m) -> is_Some (f_dist f' !! m)) /\
  (forall m x, f_dist f' !! m = Some x ->
     f_dist f !! m = Some x \/ {| pq_dist := x; pq_edge := m |} ∈ f_pq f').
Proof.
  induction edges as [|[v c] edges IH]; intros f; cbn [relax_all foldl fst snd].
  - split; [auto|]. split; [auto|]. intros m x Hm. left. exact Hm.
  - destruct (relax_grows u v (dadd d c) f) as (Hq1 & Hk1 & Hd1).
    destruct (IH (relax u v (dadd d c) f)) as (Hq2 & Hk2 & Hd2).
    fold (relax_all u d edges (relax u v (dadd d c) f)) in *.
    split; [intros e He; apply Hq2, Hq1, He|].
    split; [intros m Hm; apply Hk2, Hk1, Hm|].
    intros m x Hm. destruct (Hd2 m x Hm) as [Hm'|Hp]; [|right; exact Hp].
    destruct (Hd1 m x Hm') as [Hm''|Hp]; [left; exact Hm''|right; apply Hq2, Hp].
Qed.

End RelaxFacts.

(** ** The invariant across the two directions *)

Section Cross.
Context {D : Type} {dops : DoubleOps D} {ok : D -> Prop} {laws : CostLaws dops ok}.

Variables Ef Eb : Z -> Z -> D -> Prop.
Variables (s t : Z) (scost tcost : D).
Hypothesis Ef_ok : forall u v c, Ef u v c -> ok c.
Hypothesis Eb_ok : forall u v c, Eb u v c -> ok c.
Hypothesis scost_ok : ok scost.
Hypothesis tcost_ok : ok tcost.

Let reach_f := reach Ef s scost.
Let reach_b := reach Eb t tcost.

(** Every recorded distance is the cost of a walk. *)
Definition tables_reach (st : @Search D) : Prop :=
  (forall m x, dist_fwd st !! m = Some x -> reach_f m x) /\
  (forall m y, dist_bwd st !! m = Some y -> reach_b m y).

(** [best], [meeting] and [found] against the two tables.  A search that
    tests for a meeting when it pops ([lazy]) may owe the test for an edge
    whose current entry is still queued. *)
Record cross (lazy : bool) (st : @Search D) : Prop := {
  cr_ok : ok (best st);
  cr_found :
    if found st then
      dlt (best st) dinf = true /\
      is_Some (dist_fwd st !! meeting st) /\
      is_Some (dist_bwd st !! meeting st) /\
      exists x y, reach_f (meeting st) x /\ reach_b (meeting st) y /\
                  best st = dadd x y
    else best st = dinf;
  cr_meet : forall m x y,
    dist_fwd st !! m = Some x -> dist_bwd st !! m = Some y ->
    dle (best st) (dadd x y) = true \/
    (lazy = true /\ (pending (fwd_of st) m x \/ pending (bwd_of st) m y))
}.

Lemma reach_f_ok m x : reach_f m x -> ok x.
Proof. apply reach_ok; assumption. Qed.

Lemma reach_b_ok m y : reach_b m y -> ok y.
Proof. apply reach_ok; assumption. Qed.

Lemma meet_frame total m (st : @Search D) :
  fwd_of (meet total m st) = fwd_of st /\ bwd_of (meet total m st) = bwd_of st.
Proof. unfold meet. destruct (dlt total (best st)); split; reflexivity. Qed.

Lemma meet_best total m (st : @Search D) :
  ok total -> ok (best st) ->
  ok (best (meet total m st)) /\
  dle (best (meet total m st)) (best st) = true /\
  dle (best (meet total m st)) total = true.
Proof.
  intros Ht Hb. unfold meet. destruct (dlt total (best st)) eqn:Hlt; cbn [best].
  - split; [exact Ht|]. split; [apply lt_le; assumption|apply le_refl, Ht].
  - split; [exact Hb|]. split; [apply le_refl, Hb|apply le_iff; assumption].
Qed.

Lemma cross_meet lazy st m x y :
  cross lazy st -> tables_reach st ->
  reach_f m x -> reach_b m y ->
  is_Some (dist_fwd st !! m) -> is_Some (dist_bwd st !! m) ->
  cross lazy (meet (dadd x y) m st).
Proof.
  intros H [Htf Htb] Hx Hy Hmf Hmb.
  assert (ok (dadd x y)) as Hxy.
  { apply ok_add; [eapply reach_f_ok|eapply reach_b_ok]; eassumption. }
  pose proof (cr_ok _ _ H) as Hb.
  destruct (meet_best (dadd x y) m st Hxy Hb) as (Hok & Hle & _).
  destruct (meet_frame (dadd x y) m st) as (Hf & Hbw).
  split.
  - exact Hok.
  - unfold meet. destruct (dlt (dadd x y) (best st)) eqn:Hlt; [|apply (cr_found _ _ H)].
    cbn [found best meeting dist_fwd dist_bwd].
    split; [|split; [exact Hmf|split; [exact Hmb|]]].
    + apply (lt_le_trans _ (best st)); [assumption|assumption|apply ok_inf|exact Hlt|].
      apply le_inf, Hb.
    + exists x, y. repeat split; assumption.
  - intros m' x' y' Hx' Hy'.
    assert (dist_fwd st !! m' = Some x') as Hx0.
    { change (f_dist (fwd_of (meet (dadd x y) m st)) !! m' = Some x') in Hx'.
      rewrite Hf in Hx'. exact Hx'. }
    assert (dist_bwd st !! m' = Some y') as Hy0.
    { change (f_dist (bwd_of (meet (dadd x y) m st)) !! m' = Some y') in Hy'.
      rewrite Hbw in Hy'. exact Hy'. }
    rewrite Hf, Hbw.
    destruct (cr_meet _ _ H m' x' y' Hx0 Hy0) as [Hle'|Hp]; [left|right; exact Hp].
    apply (le_trans _ (best st)); try assumption.
    apply ok_add; [eapply reach_f_ok, Htf, Hx0|eapply reach_b_ok, Htb, Hy0].
Qed.

(** The bound of a state whose tables and queues are those of [st]. *)
Lemma cross_frame lazy st st' :
  cross lazy st ->
  fwd_of st' = fwd_of st -> bwd_of st' = bwd_of st ->
  best st' = best st -> meeting st' = meeting st -> found st' = found st ->
  cross lazy st'.
Proof.
  intros H Hf Hb Hbest Hm Hfound.
  assert (dist_fwd st' = dist_fwd st) as Hdf by exact (f_equal f_dist Hf).
  assert (dist_bwd st' = dist_bwd st) as Hdb by exact (f_equal f_dist Hb).
  destruct H. split.
  - rewrite Hbest. assumption.
  - rewrite Hfound, Hbest, Hm, Hdf, Hdb. assumption.
  - rewrite Hbest, Hdf, Hdb, Hf, Hb. assumption.
Qed.

(** The whole invariant: both directions under the bound [best], and the
    bound against the tables. *)
Record sinv (lazy : bool) (st : @Search D) (rf rb : gmap Z nat) : Prop := {
  si_fwd : finv Ef s scost None (fwd_of st) (best st) rf;
  si_bwd : finv Eb t tcost None (bwd_of st) (best st) rb;
  si_cross : cross lazy st
}.

Lemma sinv_tables lazy st rf rb : sinv lazy st rf rb -> tables_reach st.
Proof.
  intros [Hf Hb _]. split; intros m x Hm.
  - apply (fi_reach _ _ _ _ _ _ _ Hf m x Hm).
  - apply (fi_reach _ _ _ _ _ _ _ Hb m x Hm).
Qed.

(** A lazy search pops a forward entry and tests it for a meeting. *)
Lemma lazy_pop_fwd st rf rb e rest :
  sinv true st rf rb ->
  heap_pop (pq_fwd st) = Some (e, rest) ->
  let st1 := set_pq_fwd rest st in
  let st2 := match dist_bwd st1 !! pq_edge e with
             | Some y => meet (dadd (pq_dist e) y) (pq_edge e) st1
             | None => st1
             end in
  cross true st2 /\
  fwd_of st2 = with_pq rest (fwd_of st) /\ bwd_of st2 = bwd_of st /\
  ok (best st2) /\ dle (best st2) (best st) = true.
Proof.
  intros H Hpop st1 st2.
  pose proof (sinv_tables _ _ _ _ H) as [Htf Htb].
  destruct H as [Hf Hb Hc].
  pose proof (heap_pop_perm _ _ _ Hpop) as Hperm.
  assert (e ∈ pq_fwd st) as He by (rewrite Hperm; left).
  destruct (fi_queue _ _ _ _ _ _ _ Hf e He) as (Hre & x & Hx & Hxe).
  assert (ok (pq_dist e)) as Hd by (eapply reach_f_ok, Hre).
  pose proof (cr_ok _ _ Hc) as Hbok.
  assert (cross true st1 \/ True) as _ by (right; exact I).
  assert (forall y, dist_bwd st !! pq_edge e = Some y ->
            st2 = meet (dadd (pq_dist e) y) (pq_edge e) st1) as Hsome.
  { intros y Hy. subst st2. cbn [st1 set_pq_fwd dist_bwd]. rewrite Hy. reflexivity. }
  assert (dist_bwd st !! pq_edge e = None -> st2 = st1) as Hnone.
  { intros Hy. subst st2. cbn [st1 set_pq_fwd dist_bwd]. rewrite Hy. reflexivity. }
  assert (fwd_of st2 = with_pq rest (fwd_of st) /\ bwd_of st2 = bwd_of st) as [Hfr Hbr].
  { destruct (dist_bwd st !! pq_edge e) as [y|] eqn:Hy.
    - rewrite (Hsome y eq_refl).
      destruct (meet_frame (dadd (pq_dist e) y) (pq_edge e) st1) as [-> ->].
      split; reflexivity.
    - rewrite (Hnone eq_refl). split; reflexivity. }
  assert (ok (best st2) /\ dle (best st2) (best st) = true /\
          (forall y, dist_bwd st !! pq_edge e = Some y ->
             dle (best st2) (dadd (pq_dist e) y) = true)) as (Hok2 & Hle2 & Hmeet2).
  { destruct (dist_bwd st !! pq_edge e) as [y|] eqn:Hy.
    - rewrite (Hsome y eq_refl).
      assert (ok (dadd (pq_dist e) y)) as Hty.
      { apply ok_add; [exact Hd|eapply reach_b_ok, Htb, Hy]. }
      destruct (meet_best (dadd (pq_dist e) y) (pq_edge e) st1 Hty Hbok) as (? & ? & ?).
      split; [assumption|]. split; [assumption|]. intros y' [= <-]. assumption.
    - rewrite (Hnone eq_refl). split; [exact Hbok|].
      split; [apply le_refl, Hbok|intros y' [=]]. }
  split; [|repeat split; assumption].
  assert (dist_fwd st2 = dist_fwd st) as Hdf by exact (f_equal f_dist Hfr).
  assert (dist_bwd st2 = dist_bwd st) as Hdb by exact (f_equal f_dist Hbr).
  split.
  - exact Hok2.
  - destruct (dist_bwd st !! pq_edge e) as [y|] eqn:Hy.
    + rewrite (Hsome y eq_refl). unfold meet.
      destruct (dlt (dadd (pq_dist e) y) (best st1)) eqn:Hlt; [|apply (cr_found _ _ Hc)].
      cbn [found best meeting dist_fwd dist_bwd st1 set_pq_fwd].
      split; [|split; [eauto|split; [eauto|]]].
      * apply (lt_le_trans _ (best st)); [|assumption|apply ok_inf|exact Hlt|apply le_inf, Hbok].
        apply ok_add; [exact Hd|eapply reach_b_ok, Htb, Hy].
      * exists (pq_dist e), y. split; [exact Hre|]. split; [apply Htb, Hy|reflexivity].
    + rewrite (Hnone eq_refl). apply (cr_found _ _ Hc).
  - intros m x' y' Hx' Hy'. rewrite Hdf in Hx'. rewrite Hdb in Hy'.
    rewrite Hfr, Hbr.
    assert (ok (dadd x' y')) as Hxy.
    { apply ok_add; [eapply reach_f_ok, Htf, Hx'|eapply reach_b_ok, Htb, Hy']. }
    destruct (cr_meet _ _ Hc m x' y' Hx' Hy') as [Hle|[_ [Hp|Hp]]].
    + left. apply (le_trans _ (best st)); assumption.
    + unfold pending in Hp. cbn [fwd_of f_pq] in Hp. rewrite Hperm in Hp.
      apply elem_of_cons in Hp as [Heq|Hp].
      * left. subst e. cbn [pq_edge pq_dist] in *. apply Hmeet2, Hy'.
      * right. split; [reflexivity|]. left. exact Hp.
    + right. split; [reflexivity|]. right. exact Hp.
Qed.

Lemma lazy_pop_bwd st rf rb e rest :
  sinv true st rf rb ->
  heap_pop (pq_bwd st) = Some (e, rest) ->
  let st1 := set_pq_bwd rest st in
  let st2 := match dist_fwd st1 !! pq_edge e with
             | Some x => meet (dadd x (pq_dist e)) (pq_edge e) st1
             | None => st1
             end in
  cross true st2 /\
  bwd_of st2 = with_pq rest (bwd_of st) /\ fwd_of st2 = fwd_of st /\
  ok (best st2) /\ dle (best st2) (best st) = true.
Proof.
  intros H Hpop st1 st2.
  pose proof (sinv_tables _ _ _ _ H) as [Htf Htb].
  destruct H as [Hf Hb Hc].
  pose proof (heap_pop_perm _ _ _ Hpop) as Hperm.
  assert (e ∈ pq_bwd st) as He by (rewrite Hperm; left).
  destruct (fi_queue _ _ _ _ _ _ _ Hb e He) as (Hre & x & Hx & Hxe).
  assert (ok (pq_dist e)) as Hd by (eapply reach_b_ok, Hre).
  pose proof (cr_ok _ _ Hc) as Hbok.
  assert (forall y, dist_fwd st !! pq_edge e = Some y ->
            st2 = meet (dadd y (pq_dist e)) (pq_edge e) st1) as Hsome.
  { intros y Hy. subst st2. cbn [st1 set_pq_bwd dist_fwd]. rewrite Hy. reflexivity. }
  assert (dist_fwd st !! pq_edge e = None -> st2 = st1) as Hnone.
  { intros Hy. subst st2. cbn [st1 set_pq_bwd dist_fwd]. rewrite Hy. reflexivity. }
  assert (bwd_of st2 = with_pq rest (bwd_of st) /\ fwd_of st2 = fwd_of st) as [Hbr Hfr].
  { destruct (dist_fwd st !! pq_edge e) as [y|] eqn:Hy.
    - rewrite (Hsome y eq_refl).
      destruct (meet_frame (dadd y (pq_dist e)) (pq_edge e) st1) as [-> ->].
      split; reflexivity.
    - rewrite (Hnone eq_refl). split; reflexivity. }
  assert (ok (best st2) /\ dle (best st2) (best st) = true /\
          (forall y, dist_fwd st !! pq_edge e = Some y ->
             dle (best st2) (dadd y (pq_dist e)) = true)) as (Hok2 & Hle2 & Hmeet2).
  { destruct (dist_fwd st !! pq_edge e) as [y|] eqn:Hy.
    - rewrite (Hsome y eq_refl).
      assert (ok (dadd y (pq_dist e))) as Hty.
      { apply ok_add; [eapply reach_f_ok, Htf, Hy|exact Hd]. }
      destruct (meet_best (dadd y (pq_dist e)) (pq_edge e) st1 Hty Hbok) as (? & ? & ?).
      split; [assumption|]. split; [assumption|]. intros y' [= <-]. assumption.
    - rewrite (Hnone eq_refl). split; [exact Hbok|].
      split; [apply le_refl, Hbok|intros y' [=]]. }
  split; [|repeat split; assumption].
  assert (dist_fwd st2 = dist_fwd st) as Hdf by exact (f_equal f_dist Hfr).
  assert (dist_bwd st2 = dist_bwd st) as Hdb by exact (f_equal f_dist Hbr).
  split.
  - exact Hok2.
  - destruct (dist_fwd st !! pq_edge e) as [y|] eqn:Hy.
    + rewrite (Hsome y eq_refl). unfold meet.
      destruct (dlt (dadd y (pq_dist e)) (best st1)) eqn:Hlt; [|apply (cr_found _ _ Hc)].
      cbn [found best meeting dist_fwd dist_bwd st1 set_pq_bwd].
      split; [|split; [eauto|split; [eauto|]]].
      * apply (lt_le_trans _ (best st)); [|assumption|apply ok_inf|exact Hlt|apply le_inf, Hbok].
        apply ok_add; [eapply reach_f_ok, Htf, Hy|exact Hd].
      * exists y, (pq_dist e). split; [apply Htf, Hy|]. split; [exact Hre|reflexivity].
    + rewrite (Hnone eq_refl). apply (cr_found _ _ Hc).
  - intros m x' y' Hx' Hy'. rewrite Hdf in Hx'. rewrite Hdb in Hy'.
    rewrite Hfr, Hbr.
    assert (ok (dadd x' y')) as Hxy.
    { apply ok_add; [eapply reach_f_ok, Htf, Hx'|eapply reach_b_ok, Htb, Hy']. }
    destruct (cr_meet _ _ Hc m x' y' Hx' Hy') as [Hle|[_ [Hp|Hp]]].
    + left. apply (le_trans _ (best st)); assumption.
    + right. split; [reflexivity|]. left. exact Hp.
    + unfold pending in Hp. cbn [bwd_of f_pq] in Hp. rewrite Hperm in Hp.
      apply elem_of_cons in Hp as [Heq|Hp].
      * left. subst e. cbn [pq_edge pq_dist] in *. apply Hmeet2, Hx'.
      * right. split; [reflexivity|]. right. exact Hp.
Qed.

(** Relaxations without meeting test keep the lazy invariant: what they
    write is queued. *)
Lemma cross_relax_fwd st st' u d edges :
  cross true st ->
  fwd_of st' = relax_all u d edges (fwd_of st) ->
  bwd_of st' = bwd_of st ->
  best st' = best st -> meeting st' = meeting st -> found st' = found st ->
  cross true st'.
Proof.
  intros H Hf Hb Hbest Hm Hfound.
  destruct (relax_all_grows u d edges (fwd_of st)) as (Hq & Hk & Hd).
  rewrite <- Hf in Hq, Hk, Hd.
  assert (dist_bwd st' = dist_bwd st) as Hdb by exact (f_equal f_dist Hb).
  destruct H. split.
  - rewrite Hbest. assumption.
  - rewrite Hfound, Hbest, Hm, Hdb. destruct (found st); [|assumption].
    destruct cr_found0 as (? & ? & ? & ?). split; [assumption|].
    split; [apply Hk; assumption|]. split; assumption.
  - intros m x y Hx Hy. rewrite Hbest, Hb. rewrite Hdb in Hy.
    destruct (Hd m x Hx) as [Hx0|Hp]; [|right; split; [reflexivity|left; exact Hp]].
    destruct (cr_meet0 m x y Hx0 Hy) as [?|[_ [Hp|Hp]]]; [left; assumption| |].
    + right. split; [reflexivity|]. left. apply Hq, Hp.
    + right. split; [reflexivity|]. right. exact Hp.
Qed.

Lemma cross_relax_bwd st st' u d edges :
  cross true st ->
  bwd_of st' = relax_all u d edges (bwd_of st) ->
  fwd_of st' = fwd_of st ->
  best st' = best st -> meeting st' = meeting st -> found st' = found st ->
  cross true st'.
Proof.
  intros H Hb Hf Hbest Hm Hfound.
  destruct (relax_all_grows u d edges (bwd_of st)) as (Hq & Hk & Hd).
  rewrite <- Hb in Hq, Hk, Hd.
  assert (dist_fwd st' = dist_fwd st) as Hdf by exact (f_equal f_dist Hf).
  destruct H. split.
  - rewrite Hbest. assumption.
  - rewrite Hfound, Hbest, Hm, Hdf. destruct (found st); [|assumption].
    destruct cr_found0 as (? & ? & ? & ?). split; [assumption|].
    split; [assumption|]. split; [apply Hk; assumption|assumption].
  - intros m x y Hx Hy. rewrite Hbest, Hf. rewrite Hdf in Hx.
    destruct (Hd m y Hy) as [Hy0|Hp]; [|right; split; [reflexivity|right; exact Hp]].
    destruct (cr_meet0 m x y Hx Hy0) as [?|[_ [Hp|Hp]]]; [left; assumption| |].
    + right. split; [reflexivity|]. left. exact Hp.
    + right. split; [reflexivity|]. right. apply Hq, Hp.
Qed.

Lemma fwd_of_update_fwd v nd u (st : @Search D) :
  fwd_of (update_fwd v nd u st) =
  {| f_dist := <[v := nd]> (dist_fwd st); f_parent := <[v := u]> (parent_fwd st);
     f_pq := heap_push {| pq_dist := nd; pq_edge := v |} (pq_fwd st) |}.
Proof. reflexivity. Qed.

(** The classic relaxation with its inline meeting test keeps the bound
    below every total of the two tables. *)
Lemma classic_edge_fwd_spec st d u sc :
  cross false st -> tables_reach st ->
  reach_f (sc_to sc) (dadd d (sc_cost sc)) ->
  let st' := classic_edge_fwd d u sc st in
  fwd_of st' = relax u (sc_to sc) (dadd d (sc_cost sc)) (fwd_of st) /\
  bwd_of st' = bwd_of st /\
  cross false st' /\ tables_reach st' /\
  dle (best st') (best st) = true.
Proof.
  intros Hc [Htf Htb] Hr. unfold classic_edge_fwd, relax. cbn [fwd_of f_dist].
  set (v := sc_to sc) in *. set (nd := dadd d (sc_cost sc)) in *.
  pose proof (cr_ok _ _ Hc) as Hbok.
  assert (ok nd) as Hnd by (eapply reach_f_ok, Hr).
  destruct (improves (dist_fwd st) v nd) eqn:Himp.
  2:{ split; [reflexivity|]. split; [reflexivity|]. split; [exact Hc|].
      split; [split; assumption|apply le_refl, Hbok]. }
  set (st1 := update_fwd v nd u st).
  assert (tables_reach st1) as Ht1.
  { split; [|exact Htb]. intros m x Hm. cbn [st1 update_fwd dist_fwd] in Hm.
    destruct (Z.eq_dec v m) as [<-|Hne].
    - rewrite lookup_insert_eq in Hm. injection Hm as <-. exact Hr.
    - rewrite lookup_insert_ne in Hm by assumption. apply Htf, Hm. }
  set (st2 := match dist_bwd st1 !! v with
              | Some b => meet (dadd nd b) v st1
              | None => st1
              end).
  assert (fwd_of st2 = fwd_of st1 /\ bwd_of st2 = bwd_of st) as [Hf2 Hb2].
  { subst st2. destruct (dist_bwd st1 !! v) as [y|]; [|split; reflexivity].
    destruct (meet_frame (dadd nd y) v st1) as [-> ->]. split; reflexivity. }
  assert (ok (best st2) /\ dle (best st2) (best st) = true /\
          forall y, dist_bwd st !! v = Some y -> dle (best st2) (dadd nd y) = true)
    as (Hok2 & Hle2 & Hmeet2).
  { subst st2. change (dist_bwd st1) with (dist_bwd st).
    destruct (dist_bwd st !! v) as [y|] eqn:Hy.
    - assert (ok (dadd nd y)) as Hty by (apply ok_add; [exact Hnd|eapply reach_b_ok, Htb, Hy]).
      destruct (meet_best (dadd nd y) v st1 Hty Hbok) as (? & ? & ?).
      split; [assumption|]. split; [assumption|]. intros y' [= <-]. assumption.
    - split; [exact Hbok|]. split; [apply le_refl, Hbok|intros y' [=]]. }
  assert (dist_fwd st2 = <[v := nd]> (dist_fwd st)) as Hdf2 by exact (f_equal f_dist Hf2).
  assert (dist_bwd st2 = dist_bwd st) as Hdb2 by exact (f_equal f_dist Hb2).
  split; [exact Hf2|]. split; [exact Hb2|].
  split; [|split; [|exact Hle2]].
  - split.
    + exact Hok2.
    + subst st2. change (dist_bwd st1) with (dist_bwd st) in *.
      destruct (dist_bwd st !! v) as [y|] eqn:Hy.
      * unfold meet. destruct (dlt (dadd nd y) (best st1)) eqn:Hlt.
        -- cbn [found best meeting dist_fwd dist_bwd st1 update_fwd].
           split; [|split; [rewrite lookup_insert_eq; eauto|split; [rewrite Hy; eauto|]]].
           ++ apply (lt_le_trans _ (best st)); [|assumption|apply ok_inf|exact Hlt|apply le_inf, Hbok].
              apply ok_add; [exact Hnd|eapply reach_b_ok, Htb, Hy].
           ++ exists nd, y. split; [exact Hr|]. split; [apply Htb, Hy|reflexivity].
        -- pose proof (cr_found _ _ Hc) as Hfd.
           cbn [found best meeting dist_fwd dist_bwd st1 update_fwd].
           destruct (found st); [|exact Hfd].
           destruct Hfd as (? & Hk & ? & ?). split; [assumption|]. split; [|split; assumption].
           destruct (Z.eq_dec v (meeting st)) as [<-|Hne];
             [rewrite lookup_insert_eq; eauto|rewrite lookup_insert_ne by assumption; exact Hk].
      * pose proof (cr_found _ _ Hc) as Hfd.
        cbn [found best meeting dist_fwd dist_bwd st1 update_fwd].
        destruct (found st); [|exact Hfd].
        destruct Hfd as (? & Hk & ? & ?). split; [assumption|]. split; [|split; assumption].
        destruct (Z.eq_dec v (meeting st)) as [<-|Hne];
          [rewrite lookup_insert_eq; eauto|rewrite lookup_insert_ne by assumption; exact Hk].
    + intros m x y Hx Hy. rewrite Hdf2 in Hx. rewrite Hdb2 in Hy. left.
      destruct (Z.eq_dec v m) as [<-|Hne].
      * rewrite lookup_insert_eq in Hx. injection Hx as <-. apply Hmeet2, Hy.
      * rewrite lookup_insert_ne in Hx by assumption.
        destruct (cr_meet _ _ Hc m x y Hx Hy) as [Hle|[[=] _]].
        apply (le_trans _ (best st)); try assumption.
        apply ok_add; [eapply reach_f_ok, Htf, Hx|eapply reach_b_ok, Htb, Hy].
  - split; [rewrite Hdf2|rewrite Hdb2; exact Htb].
    intros m x Hm. destruct (Z.eq_dec v m) as [<-|Hne].
    + rewrite lookup_insert_eq in Hm. injection Hm as <-. exact Hr.
    + rewrite lookup_insert_ne in Hm by assumption. apply Htf, Hm.
Qed.

Lemma classic_edge_bwd_spec st d u sc :
  cross false st -> tables_reach st ->
  reach_b (sc_from sc) (dadd d (sc_cost sc)) ->
  let st' := classic_edge_bwd d u sc st in
  bwd_of st' = relax u (sc_from sc) (dadd d (sc_cost sc)) (bwd_of st) /\
  fwd_of st' = fwd_of st /\
  cross false st' /\ tables_reach st' /\
  dle (best st') (best st) = true.
Proof.
  intros Hc [Htf Htb] Hr. unfold classic_edge_bwd, relax. cbn [bwd_of f_dist].
  set (v := sc_from sc) in *. set (nd := dadd d (sc_cost sc)) in *.
  pose proof (cr_ok _ _ Hc) as Hbok.
  assert (ok nd) as Hnd by (eapply reach_b_ok, Hr).
  destruct (improves (dist_bwd st) v nd) eqn:Himp.
  2:{ split; [reflexivity|]. split; [reflexivity|]. split; [exact Hc|].
      split; [split; assumption|apply le_refl, Hbok]. }
  set (st1 := update_bwd v nd u st).
  set (st2 := match dist_fwd st1 !! v with
              | Some f => meet (dadd f nd) v st1
              | None => st1
              end).
  assert (bwd_of st2 = bwd_of st1 /\ fwd_of st2 = fwd_of st) as [Hb2 Hf2].
  { subst st2. destruct (dist_fwd st1 !! v) as [y|]; [|split; reflexivity].
    destruct (meet_frame (dadd y nd) v st1) as [-> ->]. split; reflexivity. }
  assert (ok (best st2) /\ dle (best st2) (best st) = true /\
          forall y, dist_fwd st !! v = Some y -> dle (best st2) (dadd y nd) = true)
    as (Hok2 & Hle2 & Hmeet2).
  { subst st2. change (dist_fwd st1) with (dist_fwd st).
    destruct (dist_fwd st !! v) as [y|] eqn:Hy.
    - assert (ok (dadd y nd)) as Hty by (apply ok_add; [eapply reach_f_ok, Htf, Hy|exact Hnd]).
      destruct (meet_best (dadd y nd) v st1 Hty Hbok) as (? & ? & ?).
      split; [assumption|]. split; [assumption|]. intros y' [= <-]. assumption.
    - split; [exact Hbok|]. split; [apply le_refl, Hbok|intros y' [=]]. }
  assert (dist_bwd st2 = <[v := nd]> (dist_bwd st)) as Hdb2 by exact (f_equal f_dist Hb2).
  assert (dist_fwd st2 = dist_fwd st) as Hdf2 by exact (f_equal f_dist Hf2).
  split; [exact Hb2|]. split; [exact Hf2|].
  split; [|split; [|exact Hle2]].
  - split.
    + exact Hok2.
    + subst st2. change (dist_fwd st1) with (dist_fwd st) in *.
      destruct (dist_fwd st !! v) as [y|] eqn:Hy.
      * unfold meet. destruct (dlt (dadd y nd) (best st1)) eqn:Hlt.
        -- cbn [found best meeting dist_fwd dist_bwd st1 update_bwd].
           split; [|split; [rewrite Hy; eauto|split; [rewrite lookup_insert_eq; eauto|]]].
           ++ apply (lt_le_trans _ (best st)); [|assumption|apply ok_inf|exact Hlt|apply le_inf, Hbok].
              apply ok_add; [eapply reach_f_ok, Htf, Hy|exact Hnd].
           ++ exists y, nd. split; [apply Htf, Hy|]. split; [exact Hr|reflexivity].
        -- pose proof (cr_found _ _ Hc) as Hfd.
           cbn [found best meeting dist_fwd dist_bwd st1 update_bwd].
           destruct (found st); [|exact Hfd].
           destruct Hfd as (? & ? & Hk & ?). split; [assumption|]. split; [assumption|].
           split; [|assumption].
           destruct (Z.eq_dec v (meeting st)) as [<-|Hne];
             [rewrite lookup_insert_eq; eauto|rewrite lookup_insert_ne by assumption; exact Hk].
      * pose proof (cr_found _ _ Hc) as Hfd.
        cbn [found best meeting dist_fwd dist_bwd st1 update_bwd].
        destruct (found st); [|exact Hfd].
        destruct Hfd as (? & ? & Hk & ?). split; [assumption|]. split; [assumption|].
        split; [|assumption].
        destruct (Z.eq_dec v (meeting st)) as [<-|Hne];
          [rewrite lookup_insert_eq; eauto|rewrite lookup_insert_ne by assumption; exact Hk].
    + intros m x y Hx Hy. rewrite Hdf2 in Hx. rewrite Hdb2 in Hy. left.
      destruct (Z.eq_dec v m) as [<-|Hne].
      * rewrite lookup_insert_eq in Hy. injection Hy as <-. apply Hmeet2, Hx.
      * rewrite lookup_insert_ne in Hy by assumption.
        destruct (cr_meet _ _ Hc m x y Hx Hy) as [Hle|[[=] _]].
        apply (le_trans _ (best st)); try assumption.
        apply ok_add; [eapply reach_f_ok, Htf, Hx|eapply reach_b_ok, Htb, Hy].
  - split; [rewrite Hdf2; exact Htf|rewrite Hdb2].
    intros m x Hm. destruct (Z.eq_dec v m) as [<-|Hne].
    + rewrite lookup_insert_eq in Hm. injection Hm as <-. exact Hr.
    + rewrite lookup_insert_ne in Hm by assumption. apply Htb, Hm.
Qed.

End Cross.

(** ** The searches over a store with valid costs *)

Section StoreSearch.
Context {D : Type} {dops : DoubleOps D} {ok : D -> Prop} {laws : CostLaws dops ok}.

Variable g : @ShortcutGraph D.
Hypothesis costs_ok : forall sc, sc ∈ shortcuts_ g -> ok (sc_cost sc).
Variables (s t : Z) (scost tcost : D).
Hypothesis scost_ok : ok scost.
Hypothesis tcost_ok : ok tcost.

Lemma fwd_targets_ok idxs v c : (v, c) ∈ fwd_targets g idxs -> ok c.
Proof.
  unfold fwd_targets. intros (idx & _ & H)%list_elem_of_omap.
  destruct (shortcuts_ g !! idx) as [sc|] eqn:Hsc; [|discriminate].
  destruct (sc_inside sc =? 1); [|discriminate]. injection H as <- <-.
  apply costs_ok. eapply list_elem_of_lookup_2, Hsc.
Qed.

Lemma bwd_targets_ok idxs v c : (v, c) ∈ bwd_targets g idxs -> ok c.
Proof.
  unfold bwd_targets. intros (idx & _ & H)%list_elem_of_omap.
  destruct (shortcuts_ g !! idx) as [sc|] eqn:Hsc; [|discriminate].
  destruct (negb (sc_inside sc =? -1) && negb (sc_inside sc =? 0)); [discriminate|].
  injection H as <- <-.
  apply costs_ok. eapply list_elem_of_lookup_2, Hsc.
Qed.

Lemma fwd_edge_ok u v c : fwd_edge g u v c -> ok c.
Proof. apply fwd_targets_ok. Qed.

Lemma bwd_edge_ok u v c : bwd_edge g u v c -> ok c.
Proof. apply bwd_targets_ok. Qed.

(** The invariant of the classic and the multi-endpoint search. *)
Definition store_inv : bool -> @Search D -> gmap Z nat -> gmap Z nat -> Prop :=
  sinv (ok := ok) (fwd_edge g) (bwd_edge g) s t scost tcost.

(** The measure that drops with every popped entry. *)
Definition fwd_measure (st : @Search D) (rf : gmap Z nat) : nat :=
  length (pq_fwd st) + weight (fwd_adj_ g) rf.

Definition bwd_measure (st : @Search D) (rb : gmap Z nat) : nat :=
  length (pq_bwd st) + weight (bwd_adj_ g) rb.

Lemma set_dist_fwd_same (st : @Search D) : set_dist_fwd (dist_fwd st) st = st.
Proof. destruct st; reflexivity. Qed.

Lemma set_dist_bwd_same (st : @Search D) : set_dist_bwd (dist_bwd st) st = st.
Proof. destruct st; reflexivity. Qed.

Lemma heap_pop_nonempty (q : @MinHeap D) : q <> [] -> exists e rest, heap_pop q = Some (e, rest).
Proof.
  destruct q as [|x l]; [contradiction|]. intros _. cbn [heap_pop].
  destruct (extract_min x l) as [e rest]. eauto.
Qed.

Lemma multi_forward_spec st rf rb :
  store_inv true st rf rb ->
  exists rf',
    store_inv true (multi_forward g st).2 rf' rb /\
    bwd_of (multi_forward g st).2 = bwd_of st /\
    (pq_fwd st = [] -> multi_forward g st = (false, st) /\ rf' = rf) /\
    (pq_fwd st <> [] ->
       (S (fwd_measure (multi_forward g st).2 rf') <= fwd_measure st rf)%nat).
Proof.
  unfold store_inv. intros H. unfold multi_forward.
  destruct (heap_pop (pq_fwd st)) as [[e rest]|] eqn:Hpop.
  2:{ exists rf. apply heap_pop_None in Hpop. cbn [snd].
      split; [exact H|]. split; [reflexivity|]. split; [auto|]. intros Hne. contradiction. }
  destruct (lazy_pop_fwd _ _ _ _ _ _ fwd_edge_ok bwd_edge_ok scost_ok tcost_ok
              st rf rb e rest H Hpop) as (Hc2 & Hf2 & Hb2 & Hok2 & Hle2).
  cbv zeta in Hc2, Hf2, Hb2, Hok2, Hle2.
  set (st2 := match dist_bwd (set_pq_fwd rest st) !! pq_edge e with
              | Some y => meet (dadd (pq_dist e) y) (pq_edge e) (set_pq_fwd rest st)
              | None => set_pq_fwd rest st
              end) in *.
  destruct H as [Hf Hb Hc].
  pose proof (cr_ok _ _ _ _ _ _ _ _ Hc) as Hbok.
  pose proof (finv_bound _ _ _ fwd_edge_ok scost_ok _ _ _ _ _ Hbok Hok2 Hle2 Hf) as Hf'.
  pose proof (finv_bound _ _ _ bwd_edge_ok tcost_ok _ _ _ _ _ Hbok Hok2 Hle2 Hb) as Hb'.
  assert (pq_fwd st <> []) as Hne.
  { intros Heq. rewrite Heq in Hpop. discriminate. }
  assert (e ∈ f_pq (fwd_of st)) as He.
  { cbn [fwd_of f_pq]. rewrite (heap_pop_perm _ _ _ Hpop). left. }
  destruct (fi_queue _ _ _ _ _ _ _ Hf e He) as (Hre & x & Hx & Hxe).
  assert (dist_fwd st2 = dist_fwd st) as Hdf2 by exact (f_equal f_dist Hf2).
  destruct (dge (pq_dist e) (best st2)) eqn:Hge.
  { (* not below the bound *)
    exists rf. cbn [snd]. split; [|split; [exact Hb2|split; [intros; contradiction|]]].
    - split; [|rewrite Hb2; exact Hb'|exact Hc2].
      rewrite Hf2.
      apply (finv_pop_skip _ _ _ fwd_edge_ok scost_ok (fwd_of st) (best st2) rf e rest
               Hok2 Hf' Hpop).
      right. exact Hge.
    - intros _. unfold fwd_measure.
      change (pq_fwd st2) with (f_pq (fwd_of st2)). rewrite Hf2.
      apply (finv_pop_skip_measure (fwd_of st) e rest). exact Hpop. }
  unfold dist_index. rewrite Hdf2. cbn [fwd_of f_dist] in Hx. rewrite Hx.
  rewrite <- Hdf2, set_dist_fwd_same.
  destruct (dgt (pq_dist e) x) eqn:Hst.
  { (* stale *)
    exists rf. cbn [snd]. split; [|split; [exact Hb2|split; [intros; contradiction|]]].
    - split; [|rewrite Hb2; exact Hb'|exact Hc2].
      rewrite Hf2.
      apply (finv_pop_skip _ _ _ fwd_edge_ok scost_ok (fwd_of st) (best st2) rf e rest
               Hok2 Hf' Hpop).
      left. unfold stale. cbn [fwd_of f_dist]. rewrite Hx. exact Hst.
    - intros _. unfold fwd_measure.
      change (pq_fwd st2) with (f_pq (fwd_of st2)). rewrite Hf2.
      apply (finv_pop_skip_measure (fwd_of st) e rest). exact Hpop. }
  (* expansion *)
  cbn [snd].
  destruct (multi_fold_fwd g (pq_dist e) (pq_edge e) (adjacent (fwd_adj_ g) (pq_edge e)) st2)
    as (Hff & Hfb & Hfbest & Hfm & Hffound).
  set (st3 := foldl (multi_relax_fwd g (pq_dist e) (pq_edge e)) st2
                (adjacent (fwd_adj_ g) (pq_edge e))) in *.
  rewrite Hf2 in Hff.
  destruct (finv_expand _ _ _ fwd_edge_ok scost_ok (fwd_of st) (best st2) rf e rest
              (fwd_targets g (adjacent (fwd_adj_ g) (pq_edge e))) Hf' Hpop)
    as (Hf3 & _ & Hmeas).
  { unfold stale. cbn [fwd_of f_dist]. rewrite Hx. exact Hst. }
  { intros v c. reflexivity. }
  exists (rank_add (pq_edge e) rf).
  split; [|split; [rewrite Hfb; exact Hb2|split; [intros; contradiction|]]].
  - split.
    + rewrite Hff, Hfbest. exact Hf3.
    + rewrite Hfb, Hfbest, Hb2. exact Hb'.
    + eapply cross_relax_fwd; [exact Hc2|rewrite Hf2; exact Hff|assumption..].
  - intros _. unfold fwd_measure.
    change (pq_fwd st3) with (f_pq (fwd_of st3)). rewrite Hff.
    apply Hmeas. apply omap_length_le.
Qed.

Lemma multi_backward_spec st rf rb :
  store_inv true st rf rb ->
  exists rb',
    store_inv true (multi_backward g st).2 rf rb' /\
    fwd_of (multi_backward g st).2 = fwd_of st /\
    (pq_bwd st = [] -> multi_backward g st = (false, st) /\ rb' = rb) /\
    (pq_bwd st <> [] ->
       (S (bwd_measure (multi_backward g st).2 rb') <= bwd_measure st rb)%nat).
Proof.
  unfold store_inv. intros H. unfold multi_backward.
  destruct (heap_pop (pq_bwd st)) as [[e rest]|] eqn:Hpop.
  2:{ exists rb. apply heap_pop_None in Hpop. cbn [snd].
      split; [exact H|]. split; [reflexivity|]. split; [auto|]. intros Hne. contradiction. }
  destruct (lazy_pop_bwd _ _ _ _ _ _ fwd_edge_ok bwd_edge_ok scost_ok tcost_ok
              st rf rb e rest H Hpop) as (Hc2 & Hb2 & Hf2 & Hok2 & Hle2).
  cbv zeta in Hc2, Hf2, Hb2, Hok2, Hle2.
  set (st2 := match dist_fwd (set_pq_bwd rest st) !! pq_edge e with
              | Some x => meet (dadd x (pq_dist e)) (pq_edge e) (set_pq_bwd rest st)
              | None => set_pq_bwd rest st
              end) in *.
  destruct H as [Hf Hb Hc].
  pose proof (cr_ok _ _ _ _ _ _ _ _ Hc) as Hbok.
  pose proof (finv_bound _ _ _ fwd_edge_ok scost_ok _ _ _ _ _ Hbok Hok2 Hle2 Hf) as Hf'.
  pose proof (finv_bound _ _ _ bwd_edge_ok tcost_ok _ _ _ _ _ Hbok Hok2 Hle2 Hb) as Hb'.
  assert (pq_bwd st <> []) as Hne.
  { intros Heq. rewrite Heq in Hpop. discriminate. }
  assert (e ∈ f_pq (bwd_of st)) as He.
  { cbn [bwd_of f_pq]. rewrite (heap_pop_perm _ _ _ Hpop). left. }
  destruct (fi_queue _ _ _ _ _ _ _ Hb e He) as (Hre & x & Hx & Hxe).
  assert (dist_bwd st2 = dist_bwd st) as Hdb2 by exact (f_equal f_dist Hb2).
  destruct (dge (pq_dist e) (best st2)) eqn:Hge.
  { exists rb. cbn [snd]. split; [|split; [exact Hf2|split; [intros; contradiction|]]].
    - split; [rewrite Hf2; exact Hf'| |exact Hc2].
      rewrite Hb2.
      apply (finv_pop_skip _ _ _ bwd_edge_ok tcost_ok (bwd_of st) (best st2) rb e rest
               Hok2 Hb' Hpop).
      right. exact Hge.
    - intros _. unfold bwd_measure.
      change (pq_bwd st2) with (f_pq (bwd_of st2)). rewrite Hb2.
      apply (finv_pop_skip_measure (bwd_of st) e rest). exact Hpop. }
  unfold dist_index. rewrite Hdb2. cbn [bwd_of f_dist] in Hx. rewrite Hx.
  rewrite <- Hdb2, set_dist_bwd_same.
  destruct (dgt (pq_dist e) x) eqn:Hst.
  { exists rb. cbn [snd]. split; [|split; [exact Hf2|split; [intros; contradiction|]]].
    - split; [rewrite Hf2; exact Hf'| |exact Hc2].
      rewrite Hb2.
      apply (finv_pop_skip _ _ _ bwd_edge_ok tcost_ok (bwd_of st) (best st2) rb e rest
               Hok2 Hb' Hpop).
      left. unfold stale. cbn [bwd_of f_dist]. rewrite Hx. exact Hst.
    - intros _. unfold bwd_measure.
      change (pq_bwd st2) with (f_pq (bwd_of st2)). rewrite Hb2.
      apply (finv_pop_skip_measure (bwd_of st) e rest). exact Hpop. }
  cbn [snd].
  destruct (multi_fold_bwd g (pq_dist e) (pq_edge e) (adjacent (bwd_adj_ g) (pq_edge e)) st2)
    as (Hfb & Hff & Hfbest & Hfm & Hffound).
  set (st3 := foldl (multi_relax_bwd g (pq_dist e) (pq_edge e)) st2
                (adjacent (bwd_adj_ g) (pq_edge e))) in *.
  rewrite Hb2 in Hfb.
  destruct (finv_expand _ _ _ bwd_edge_ok tcost_ok (bwd_of st) (best st2) rb e rest
              (bwd_targets g (adjacent (bwd_adj_ g) (pq_edge e))) Hb' Hpop)
    as (Hb3 & _ & Hmeas).
  { unfold stale. cbn [bwd_of f_dist]. rewrite Hx. exact Hst. }
  { intros v c. reflexivity. }
  exists (rank_add (pq_edge e) rb).
  split; [|split; [rewrite Hff; exact Hf2|split; [intros; contradiction|]]].
  - split.
    + rewrite Hff, Hfbest, Hf2. exact Hf'.
    + rewrite Hfb, Hfbest. exact Hb3.
    + eapply cross_relax_bwd; [exact Hc2|rewrite Hb2; exact Hfb|assumption..].
  - intros _. unfold bwd_measure.
    change (pq_bwd st3) with (f_pq (bwd_of st3)). rewrite Hfb.
    apply Hmeas. apply omap_length_le.
Qed.

(** No entry of a queue is below its top. *)
Lemma heap_top_least (q : @MinHeap D) top b :
  (forall e, e ∈ q -> ok (pq_dist e)) -> ok b ->
  heap_top q = Some top -> dge (pq_dist top) b = true ->
  forall e, e ∈ q -> dle b (pq_dist e) = true.
Proof.
  intros Hok Hb Ht Hge e He. unfold heap_top in Ht.
  destruct (heap_pop q) as [[m rest]|] eqn:Hpop; [|discriminate].
  cbn in Ht. injection Ht as ->.
  assert (top ∈ q) as Htop by (rewrite (heap_pop_perm _ _ _ Hpop); left).
  apply (le_trans _ (pq_dist top)); [assumption|apply Hok, Htop|apply Hok, He|exact Hge|].
  eapply heap_pop_least; eassumption.
Qed.

Lemma drain_spec (q : @MinHeap D) b :
  (forall e, e ∈ q -> ok (pq_dist e)) -> ok b ->
  (drain q b = q \/ (drain q b = [] /\ forall e, e ∈ q -> dle b (pq_dist e) = true)) /\
  (length (drain q b) <= length q)%nat /\
  (q = [] -> drain q b = []).
Proof.
  intros Hok Hb. unfold drain.
  destruct (heap_top q) as [top|] eqn:Ht.
  - destruct (dge (pq_dist top) b) eqn:Hge.
    + split; [right; split; [reflexivity|eapply heap_top_least; eassumption]|].
      split; [cbn; lia|reflexivity].
    + split; [left; reflexivity|]. split; [lia|auto].
  - split; [left; reflexivity|]. split; [lia|auto].
Qed.

Lemma multi_drain_spec st rf rb :
  store_inv true st rf rb ->
  store_inv true (multi_drain st) rf rb /\
  (fwd_measure (multi_drain st) rf <= fwd_measure st rf)%nat /\
  (bwd_measure (multi_drain st) rb <= bwd_measure st rb)%nat /\
  (pq_fwd st = [] -> pq_fwd (multi_drain st) = []) /\
  (pq_bwd st = [] -> pq_bwd (multi_drain st) = []).
Proof.
  unfold store_inv. intros H. unfold multi_drain.
  destruct (dlt (best st) dinf);
    [|split; [exact H|split; [lia|split; [lia|split; auto]]]].
  pose proof (sinv_tables _ _ _ _ _ _ _ _ _ _ H) as [Htf Htb].
  destruct H as [Hf Hb Hc].
  pose proof (cr_ok _ _ _ _ _ _ _ _ Hc) as Hbok.
  assert (forall e, e ∈ pq_fwd st -> ok (pq_dist e)) as Hokf.
  { intros e He. eapply (finv_queue_ok _ _ _ fwd_edge_ok scost_ok _ _ _ _ _ Hf), He. }
  assert (forall e, e ∈ pq_bwd st -> ok (pq_dist e)) as Hokb.
  { intros e He. eapply (finv_queue_ok _ _ _ bwd_edge_ok tcost_ok _ _ _ _ _ Hb), He. }
  destruct (drain_spec (pq_fwd st) (best st) Hokf Hbok) as (Hdf & Hlf & Hef).
  destruct (drain_spec (pq_bwd st) (best st) Hokb Hbok) as (Hdb & Hlb & Heb).
  cbn [set_pq_fwd set_pq_bwd pq_fwd pq_bwd best].
  split; [|split; [|split; [|split]]].
  - split.
    + cbn [fwd_of set_pq_fwd set_pq_bwd dist_fwd parent_fwd pq_fwd best].
      destruct Hdf as [->|[-> Hall]]; [exact Hf|].
      apply (finv_drain _ _ _ (fwd_of st)); assumption.
    + cbn [bwd_of set_pq_fwd set_pq_bwd dist_bwd parent_bwd pq_bwd best].
      destruct Hdb as [->|[-> Hall]]; [exact Hb|].
      apply (finv_drain _ _ _ (bwd_of st)); assumption.
    + destruct Hc. split; cbn [set_pq_fwd set_pq_bwd best found meeting dist_fwd dist_bwd];
        [assumption|assumption|].
      intros m x y Hx Hy.
      destruct (cr_meet0 m x y Hx Hy) as [?|[_ [Hp|Hp]]]; [left; assumption| |].
      * destruct Hdf as [Heq|[Heq Hall]].
        -- right. split; [reflexivity|]. left.
           unfold pending. cbn [fwd_of f_pq set_pq_fwd set_pq_bwd pq_fwd]. rewrite Heq. exact Hp.
        -- left. pose proof (Hall _ Hp) as Hbx. cbn [pq_dist] in Hbx.
           assert (ok x) by (eapply reach_ok; [exact fwd_edge_ok|exact scost_ok|apply Htf, Hx]).
           assert (ok y) by (eapply reach_ok; [exact bwd_edge_ok|exact tcost_ok|apply Htb, Hy]).
           apply (le_trans _ x); [assumption|assumption|apply ok_add; assumption|exact Hbx|].
           apply add_le_l; assumption.
      * destruct Hdb as [Heq|[Heq Hall]].
        -- right. split; [reflexivity|]. right.
           unfold pending. cbn [bwd_of f_pq set_pq_fwd set_pq_bwd pq_bwd]. rewrite Heq. exact Hp.
        -- left. pose proof (Hall _ Hp) as Hby. cbn [pq_dist] in Hby.
           assert (ok x) by (eapply reach_ok; [exact fwd_edge_ok|exact scost_ok|apply Htf, Hx]).
           assert (ok y) by (eapply reach_ok; [exact bwd_edge_ok|exact tcost_ok|apply Htb, Hy]).
           apply (le_trans _ y); [assumption|assumption|apply ok_add; assumption|exact Hby|].
           apply add_le_r; assumption.
  - unfold fwd_measure. cbn [set_pq_fwd set_pq_bwd pq_fwd]. lia.
  - unfold bwd_measure. cbn [set_pq_fwd set_pq_bwd pq_bwd]. lia.
  - exact Hef.
  - exact Heb.
Qed.

Definition measure (st : @Search D) (rf rb : gmap Z nat) : nat :=
  fwd_measure st rf + bwd_measure st rb.

Lemma bwd_measure_frame st st' rb : bwd_of st' = bwd_of st -> bwd_measure st' rb = bwd_measure st rb.
Proof. intros H. unfold bwd_measure. change (pq_bwd st') with (f_pq (bwd_of st')). rewrite H. reflexivity. Qed.

Lemma fwd_measure_frame st st' rf : fwd_of st' = fwd_of st -> fwd_measure st' rf = fwd_measure st rf.
Proof. intros H. unfold fwd_measure. change (pq_fwd st') with (f_pq (fwd_of st')). rewrite H. reflexivity. Qed.

Lemma multi_body_spec st rf rb :
  store_inv true st rf rb ->
  pq_fwd st <> [] \/ pq_bwd st <> [] ->
  exists rf' rb',
    store_inv true (multi_body g st) rf' rb' /\
    (S (measure (multi_body g st) rf' rb') <= measure st rf rb)%nat.
Proof.
  intros H Hne. unfold multi_body, measure.
  destruct (multi_forward_spec st rf rb H) as (rf' & H1 & Hb1 & Hempty1 & Hdec1).
  pose proof (bwd_measure_frame _ _ rb Hb1) as Hmb1.
  assert (pq_bwd (multi_forward g st).2 = pq_bwd st) as Hq1 by exact (f_equal f_pq Hb1).
  destruct (multi_forward g st) as [c1 st1] eqn:Hfw. cbn [snd] in *.
  assert (pq_fwd st = [] -> c1 = false /\ st1 = st /\ rf' = rf) as Hempty1'.
  { intros Hq. destruct (Hempty1 Hq) as [[= -> ->] ->]. auto. }
  destruct c1.
  { exists rf', rb. split; [exact H1|].
    destruct (pq_fwd st) eqn:Hq; [destruct (Hempty1' eq_refl) as [[=] _]|].
    specialize (Hdec1 ltac:(discriminate)). lia. }
  destruct (multi_backward_spec st1 rf' rb H1) as (rb' & H2 & Hf2 & Hempty2 & Hdec2).
  pose proof (fwd_measure_frame _ _ rf' Hf2) as Hmf2.
  destruct (multi_backward g st1) as [c2 st2] eqn:Hbw. cbn [snd] in *.
  assert (S (fwd_measure st2 rf' + bwd_measure st2 rb')
          <= fwd_measure st rf + bwd_measure st rb)%nat as Hdec.
  { destruct (pq_fwd st) as [|x l] eqn:Hq.
    - destruct (Hempty1' eq_refl) as (_ & -> & ->).
      destruct Hne as [Hne|Hne]; [contradiction|].
      specialize (Hdec2 Hne). rewrite Hmf2. lia.
    - specialize (Hdec1 ltac:(discriminate)).
      destruct (pq_bwd st1) as [|y l'] eqn:Hq2.
      + destruct (Hempty2 eq_refl) as [[= _ ->] ->]. lia.
      + specialize (Hdec2 ltac:(discriminate)). lia. }
  destruct c2.
  { exists rf', rb'. split; [exact H2|exact Hdec]. }
  destruct (multi_drain_spec st2 rf' rb' H2) as (H3 & Hlf & Hlb & _ & _).
  exists rf', rb'. split; [exact H3|lia].
Qed.

Lemma heap_empty_false (q : @MinHeap D) : heap_empty q = false <-> q <> [].
Proof. destruct q; cbn; split; intros; congruence. Qed.

Lemma multi_loop_spec : forall n st rf rb,
  store_inv true st rf rb ->
  (measure st rf rb < n)%nat ->
  exists st' rf' rb',
    multi_loop n g st = Some st' /\ store_inv true st' rf' rb' /\
    pq_fwd st' = [] /\ pq_bwd st' = [].
Proof.
  induction n as [|n IH]; intros st rf rb H Hlt; [lia|].
  cbn [multi_loop].
  destruct (heap_empty (pq_fwd st)) eqn:Hef; [destruct (heap_empty (pq_bwd st)) eqn:Heb|].
  - cbn [andb]. exists st, rf, rb.
    split; [reflexivity|]. split; [exact H|].
    split; apply heap_empty_true; assumption.
  - cbn [andb]. destruct (multi_body_spec st rf rb H) as (rf' & rb' & H' & Hdec).
    { right. apply heap_empty_false, Heb. }
    apply (IH _ rf' rb' H'). lia.
  - cbn [andb]. destruct (multi_body_spec st rf rb H) as (rf' & rb' & H' & Hdec).
    { left. apply heap_empty_false, Hef. }
    apply (IH _ rf' rb' H'). lia.
Qed.

Lemma multi_loop_more : forall n m st st',
  (n <= m)%nat -> multi_loop n g st = Some st' -> multi_loop m g st = Some st'.
Proof.
  induction n as [|n IH]; intros m st st' Hle H.
  - destruct m; cbn [multi_loop] in *;
      destruct (heap_empty (pq_fwd st) && heap_empty (pq_bwd st)); congruence.
  - destruct m as [|m]; [lia|]. cbn [multi_loop] in *.
    destruct (heap_empty (pq_fwd st) && heap_empty (pq_bwd st)); [exact H|].
    apply (IH m); [lia|exact H].
Qed.

(** *** The classic search *)

Lemma classic_relax_fwd_cases d u st idx idxs :
  (classic_relax_fwd g d u st idx = st /\
   fwd_targets g (idx :: idxs) = fwd_targets g idxs) \/
  (exists sc, classic_relax_fwd g d u st idx = classic_edge_fwd d u sc st /\
              fwd_targets g (idx :: idxs) = (sc_to sc, sc_cost sc) :: fwd_targets g idxs).
Proof.
  rewrite fwd_targets_cons. unfold classic_relax_fwd.
  destruct (shortcuts_ g !! idx) as [sc|]; [|left; split; reflexivity].
  destruct (sc_inside sc =? 1); cbn [negb]; [|left; split; reflexivity].
  right. exists sc. split; reflexivity.
Qed.

Lemma classic_relax_bwd_cases d u st idx idxs :
  (classic_relax_bwd g d u st idx = st /\
   bwd_targets g (idx :: idxs) = bwd_targets g idxs) \/
  (exists sc, classic_relax_bwd g d u st idx = classic_edge_bwd d u sc st /\
              bwd_targets g (idx :: idxs) = (sc_from sc, sc_cost sc) :: bwd_targets g idxs).
Proof.
  rewrite bwd_targets_cons. unfold classic_relax_bwd.
  destruct (shortcuts_ g !! idx) as [sc|]; [|left; split; reflexivity].
  destruct (negb (sc_inside sc =? -1) && negb (sc_inside sc =? 0));
    [left; split; reflexivity|].
  right. exists sc. split; reflexivity.
Qed.

Lemma classic_fold_fwd d u idxs : forall st,
  cross (ok := ok) (fwd_edge g) (bwd_edge g) s t scost tcost false st ->
  tables_reach (fwd_edge g) (bwd_edge g) s t scost tcost st ->
  reach (fwd_edge g) s scost u d ->
  (forall v c, (v, c) ∈ fwd_targets g idxs -> fwd_edge g u v c) ->
  let st' := foldl (classic_relax_fwd g d u) st idxs in
  fwd_of st' = relax_all u d (fwd_targets g idxs) (fwd_of st) /\
  bwd_of st' = bwd_of st /\
  cross (ok := ok) (fwd_edge g) (bwd_edge g) s t scost tcost false st' /\
  dle (best st') (best st) = true.
Proof.
  induction idxs as [|idx idxs IH]; intros st Hc Ht Hr Hsub.
  - cbn. split; [reflexivity|]. split; [reflexivity|]. split; [exact Hc|].
    apply le_refl, (cr_ok _ _ _ _ _ _ _ _ Hc).
  - cbn [foldl].
    destruct (classic_relax_fwd_cases d u st idx idxs) as [[-> Heq]|(sc & -> & Heq)];
      rewrite Heq in *; [apply IH; assumption|].
    assert (fwd_edge g u (sc_to sc) (sc_cost sc)) as HE by (apply Hsub; left).
    assert (reach (fwd_edge g) s scost (sc_to sc) (dadd d (sc_cost sc))) as Hr'
      by (eapply reach_step; eassumption).
    destruct (classic_edge_fwd_spec _ _ _ _ _ _ fwd_edge_ok bwd_edge_ok scost_ok tcost_ok
                st d u sc Hc Ht Hr') as (Hf1 & Hb1 & Hc1 & Ht1 & Hle1).
    destruct (IH (classic_edge_fwd d u sc st) Hc1 Ht1 Hr) as (Hf2 & Hb2 & Hc2 & Hle2).
    { intros v c Hin'. apply Hsub. right. exact Hin'. }
    cbv zeta in *.
    split; [rewrite Hf2, Hf1; reflexivity|]. split; [rewrite Hb2; exact Hb1|].
    split; [exact Hc2|].
    pose proof (cr_ok _ _ _ _ _ _ _ _ Hc). pose proof (cr_ok _ _ _ _ _ _ _ _ Hc1).
    pose proof (cr_ok _ _ _ _ _ _ _ _ Hc2).
    eapply le_trans; [| | |exact Hle2|exact Hle1]; assumption.
Qed.

Lemma classic_fold_bwd d u idxs : forall st,
  cross (ok := ok) (fwd_edge g) (bwd_edge g) s t scost tcost false st ->
  tables_reach (fwd_edge g) (bwd_edge g) s t scost tcost st ->
  reach (bwd_edge g) t tcost u d ->
  (forall v c, (v, c) ∈ bwd_targets g idxs -> bwd_edge g u v c) ->
  let st' := foldl (classic_relax_bwd g d u) st idxs in
  bwd_of st' = relax_all u d (bwd_targets g idxs) (bwd_of st) /\
  fwd_of st' = fwd_of st /\
  cross (ok := ok) (fwd_edge g) (bwd_edge g) s t scost tcost false st' /\
  dle (best st') (best st) = true.
Proof.
  induction idxs as [|idx idxs IH]; intros st Hc Ht Hr Hsub.
  - cbn. split; [reflexivity|]. split; [reflexivity|]. split; [exact Hc|].
    apply le_refl, (cr_ok _ _ _ _ _ _ _ _ Hc).
  - cbn [foldl].
    destruct (classic_relax_bwd_cases d u st idx idxs) as [[-> Heq]|(sc & -> & Heq)];
      rewrite Heq in *; [apply IH; assumption|].
    assert (bwd_edge g u (sc_from sc) (sc_cost sc)) as HE by (apply Hsub; left).
    assert (reach (bwd_edge g) t tcost (sc_from sc) (dadd d (sc_cost sc))) as Hr'
      by (eapply reach_step; eassumption).
    destruct (classic_edge_bwd_spec _ _ _ _ _ _ fwd_edge_ok bwd_edge_ok scost_ok tcost_ok
                st d u sc Hc Ht Hr') as (Hb1 & Hf1 & Hc1 & Ht1 & Hle1).
    destruct (IH (classic_edge_bwd d u sc st) Hc1 Ht1 Hr) as (Hb2 & Hf2 & Hc2 & Hle2).
    { intros v c Hin'. apply Hsub. right. exact Hin'. }
    cbv zeta in *.
    split; [rewrite Hb2, Hb1; reflexivity|]. split; [rewrite Hf2; exact Hf1|].
    split; [exact Hc2|].
    pose proof (cr_ok _ _ _ _ _ _ _ _ Hc). pose proof (cr_ok _ _ _ _ _ _ _ _ Hc1).
    pose proof (cr_ok _ _ _ _ _ _ _ _ Hc2).
    eapply le_trans; [| | |exact Hle2|exact Hle1]; assumption.
Qed.

Lemma cross_strict_set_pq_fwd st q :
  cross (ok := ok) (fwd_edge g) (bwd_edge g) s t scost tcost false st ->
  cross (ok := ok) (fwd_edge g) (bwd_edge g) s t scost tcost false (set_pq_fwd q st).
Proof.
  intros Hc. destruct Hc.
  split; cbn [set_pq_fwd best found meeting dist_fwd dist_bwd]; try assumption.
  intros m x' y' Hx' Hy'. destruct (cr_meet0 m x' y' Hx' Hy') as [?|[[=] _]]. left. assumption.
Qed.

Lemma cross_strict_set_pq_bwd st q :
  cross (ok := ok) (fwd_edge g) (bwd_edge g) s t scost tcost false st ->
  cross (ok := ok) (fwd_edge g) (bwd_edge g) s t scost tcost false (set_pq_bwd q st).
Proof.
  intros Hc. destruct Hc.
  split; cbn [set_pq_bwd best found meeting dist_fwd dist_bwd]; try assumption.
  intros m x' y' Hx' Hy'. destruct (cr_meet0 m x' y' Hx' Hy') as [?|[[=] _]]. left. assumption.
Qed.

Lemma classic_skip_fwd st rf rb e rest :
  store_inv false st rf rb ->
  heap_pop (pq_fwd st) = Some (e, rest) ->
  stale (dist_fwd st) (pq_edge e) (pq_dist e) = true \/ dge (pq_dist e) (best st) = true ->
  store_inv false (set_pq_fwd rest st) rf rb /\
  (S (fwd_measure (set_pq_fwd rest st) rf) <= fwd_measure st rf)%nat.
Proof.
  unfold store_inv. intros [Hf Hb Hc] Hpop Hcase.
  pose proof (cr_ok _ _ _ _ _ _ _ _ Hc) as Hbok.
  split.
  - split; [|exact Hb|apply cross_strict_set_pq_fwd, Hc].
    apply (finv_pop_skip _ _ _ fwd_edge_ok scost_ok (fwd_of st) (best st) rf e rest
             Hbok Hf Hpop Hcase).
  - apply (finv_pop_skip_measure (fwd_of st) e rest). exact Hpop.
Qed.

Lemma classic_skip_bwd st rf rb e rest :
  store_inv false st rf rb ->
  heap_pop (pq_bwd st) = Some (e, rest) ->
  stale (dist_bwd st) (pq_edge e) (pq_dist e) = true \/ dge (pq_dist e) (best st) = true ->
  store_inv false (set_pq_bwd rest st) rf rb /\
  (S (bwd_measure (set_pq_bwd rest st) rb) <= bwd_measure st rb)%nat.
Proof.
  unfold store_inv. intros [Hf Hb Hc] Hpop Hcase.
  pose proof (cr_ok _ _ _ _ _ _ _ _ Hc) as Hbok.
  split.
  - split; [exact Hf| |apply cross_strict_set_pq_bwd, Hc].
    apply (finv_pop_skip _ _ _ bwd_edge_ok tcost_ok (bwd_of st) (best st) rb e rest
             Hbok Hb Hpop Hcase).
  - apply (finv_pop_skip_measure (bwd_of st) e rest). exact Hpop.
Qed.

Lemma classic_forward_spec st rf rb :
  store_inv false st rf rb ->
  exists rf',
    store_inv false (classic_forward g st).2 rf' rb /\
    bwd_of (classic_forward g st).2 = bwd_of st /\
    (pq_fwd st = [] -> classic_forward g st = (false, st) /\ rf' = rf) /\
    (pq_fwd st <> [] ->
       (S (fwd_measure (classic_forward g st).2 rf') <= fwd_measure st rf)%nat).
Proof.
  intros H. unfold classic_forward.
  destruct (heap_pop (pq_fwd st)) as [[e rest]|] eqn:Hpop.
  2:{ exists rf. apply heap_pop_None in Hpop. cbn [snd].
      split; [exact H|]. split; [reflexivity|]. split; [auto|]. intros Hne. contradiction. }
  assert (pq_fwd st = [] -> False) as Hne.
  { intros Hq. rewrite Hq in Hpop. discriminate. }
  pose proof (classic_skip_fwd st rf rb e rest H Hpop) as Hskip.
  change (dist_fwd (set_pq_fwd rest st)) with (dist_fwd st).
  change (best (set_pq_fwd rest st)) with (best st).
  destruct (stale (dist_fwd st) (pq_edge e) (pq_dist e)) eqn:Hst.
  { cbn [snd]. exists rf. destruct Hskip as [H1 Hm]; [left; reflexivity|].
    split; [exact H1|]. split; [reflexivity|]. split; [intros Hq; destruct (Hne Hq)|auto]. }
  destruct (dge (pq_dist e) (best st)) eqn:Hge.
  { cbn [snd]. exists rf. destruct Hskip as [H1 Hm]; [right; reflexivity|].
    split; [exact H1|]. split; [reflexivity|]. split; [intros Hq; destruct (Hne Hq)|auto]. }
  clear Hskip. cbn [snd]. unfold store_inv in *.
  pose proof (sinv_tables _ _ _ _ _ _ _ _ _ _ H) as Ht.
  destruct H as [Hf Hb Hc].
  pose proof (cr_ok _ _ _ _ _ _ _ _ Hc) as Hbok.
  assert (e ∈ f_pq (fwd_of st)) as He.
  { cbn [fwd_of f_pq]. rewrite (heap_pop_perm _ _ _ Hpop). left. }
  destruct (fi_queue _ _ _ _ _ _ _ Hf e He) as (Hre & x & Hx & Hxe).
  set (st1 := set_pq_fwd rest st).
  pose proof (cross_strict_set_pq_fwd st rest Hc) as Hc1. fold st1 in Hc1.
  assert (tables_reach (fwd_edge g) (bwd_edge g) s t scost tcost st1) as Ht1 by exact Ht.
  destruct (classic_fold_fwd (pq_dist e) (pq_edge e) (adjacent (fwd_adj_ g) (pq_edge e))
              st1 Hc1 Ht1 Hre) as (Hff & Hfb & Hc3 & Hle3).
  { intros v c Hin. exact Hin. }
  set (st3 := foldl (classic_relax_fwd g (pq_dist e) (pq_edge e)) st1
                (adjacent (fwd_adj_ g) (pq_edge e))) in *.
  destruct (finv_expand _ _ _ fwd_edge_ok scost_ok (fwd_of st) (best st) rf e rest
              (fwd_targets g (adjacent (fwd_adj_ g) (pq_edge e))) Hf Hpop Hst)
    as (Hf3 & _ & Hmeas).
  { intros v c. reflexivity. }
  pose proof (cr_ok _ _ _ _ _ _ _ _ Hc3) as Hok3.
  exists (rank_add (pq_edge e) rf).
  split; [|split; [exact Hfb|split]].
  - split; [| |exact Hc3].
    + rewrite Hff.
      apply (finv_bound _ _ _ fwd_edge_ok scost_ok _ _ (best st)); assumption.
    + rewrite Hfb.
      apply (finv_bound _ _ _ bwd_edge_ok tcost_ok _ _ (best st)); assumption.
  - intros Hq. destruct (Hne Hq).
  - intros _. unfold fwd_measure.
    change (pq_fwd st3) with (f_pq (fwd_of st3)). rewrite Hff.
    apply Hmeas. apply omap_length_le.
Qed.

Lemma classic_backward_spec st rf rb :
  store_inv false st rf rb ->
  exists rb',
    store_inv false (classic_backward g st).2 rf rb' /\
    fwd_of (classic_backward g st).2 = fwd_of st /\
    (pq_bwd st = [] -> classic_backward g st = (false, st) /\ rb' = rb) /\
    (pq_bwd st <> [] ->
       (S (bwd_measure (classic_backward g st).2 rb') <= bwd_measure st rb)%nat).
Proof.
  intros H. unfold classic_backward.
  destruct (heap_pop (pq_bwd st)) as [[e rest]|] eqn:Hpop.
  2:{ exists rb. apply heap_pop_None in Hpop. cbn [snd].
      split; [exact H|]. split; [reflexivity|]. split; [auto|]. intros Hne. contradiction. }
  assert (pq_bwd st = [] -> False) as Hne.
  { intros Hq. rewrite Hq in Hpop. discriminate. }
  pose proof (classic_skip_bwd st rf rb e rest H Hpop) as Hskip.
  change (dist_bwd (set_pq_bwd rest st)) with (dist_bwd st).
  change (best (set_pq_bwd rest st)) with (best st).
  destruct (stale (dist_bwd st) (pq_edge e) (pq_dist e)) eqn:Hst.
  { cbn [snd]. exists rb. destruct Hskip as [H1 Hm]; [left; reflexivity|].
    split; [exact H1|]. split; [reflexivity|]. split; [intros Hq; destruct (Hne Hq)|auto]. }
  destruct (dge (pq_dist e) (best st)) eqn:Hge.
  { cbn [snd]. exists rb. destruct Hskip as [H1 Hm]; [right; reflexivity|].
    split; [exact H1|]. split; [reflexivity|]. split; [intros Hq; destruct (Hne Hq)|auto]. }
  clear Hskip. cbn [snd]. unfold store_inv in *.
  pose proof (sinv_tables _ _ _ _ _ _ _ _ _ _ H) as Ht.
  destruct H as [Hf Hb Hc].
  pose proof (cr_ok _ _ _ _ _ _ _ _ Hc) as Hbok.
  assert (e ∈ f_pq (bwd_of st)) as He.
  { cbn [bwd_of f_pq]. rewrite (heap_pop_perm _ _ _ Hpop). left. }
  destruct (fi_queue _ _ _ _ _ _ _ Hb e He) as (Hre & x & Hx & Hxe).
  set (st1 := set_pq_bwd rest st).
  pose proof (cross_strict_set_pq_bwd st rest Hc) as Hc1. fold st1 in Hc1.
  assert (tables_reach (fwd_edge g) (bwd_edge g) s t scost tcost st1) as Ht1 by exact Ht.
  destruct (classic_fold_bwd (pq_dist e) (pq_edge e) (adjacent (bwd_adj_ g) (pq_edge e))
              st1 Hc1 Ht1 Hre) as (Hfb & Hff & Hc3 & Hle3).
  { intros v c Hin. exact Hin. }
  set (st3 := foldl (classic_relax_bwd g (pq_dist e) (pq_edge e)) st1
                (adjacent (bwd_adj_ g) (pq_edge e))) in *.
  destruct (finv_expand _ _ _ bwd_edge_ok tcost_ok (bwd_of st) (best st) rb e rest
              (bwd_targets g (adjacent (bwd_adj_ g) (pq_edge e))) Hb Hpop Hst)
    as (Hb3 & _ & Hmeas).
  { intros v c. reflexivity. }
  pose proof (cr_ok _ _ _ _ _ _ _ _ Hc3) as Hok3.
  exists (rank_add (pq_edge e) rb).
  split; [|split; [exact Hff|split]].
  - split; [| |exact Hc3].
    + rewrite Hff.
      apply (finv_bound _ _ _ fwd_edge_ok scost_ok _ _ (best st)); assumption.
    + rewrite Hfb.
      apply (finv_bound _ _ _ bwd_edge_ok tcost_ok _ _ (best st)); assumption.
  - intros Hq. destruct (Hne Hq).
  - intros _. unfold bwd_measure.
    change (pq_bwd st3) with (f_pq (bwd_of st3)). rewrite Hfb.
    apply Hmeas. apply omap_length_le.
Qed.

(** *** Where a search stops *)

Definition quiescent (st : @Search D) : Prop :=
  (forall e, e ∈ pq_fwd st -> dle (best st) (pq_dist e) = true) /\
  (forall e, e ∈ pq_bwd st -> dle (best st) (pq_dist e) = true).

Lemma empty_quiescent (st : @Search D) : pq_fwd st = [] -> pq_bwd st = [] -> quiescent st.
Proof.
  intros Hf Hb. split; intros e He; [rewrite Hf in He|rewrite Hb in He];
    apply elem_of_nil in He; destruct He.
Qed.

Lemma classic_exit_quiescent st rf rb :
  store_inv false st rf rb -> classic_exit st = true -> quiescent st.
Proof.
  unfold store_inv. intros [Hf Hb Hc] Hex. unfold classic_exit in Hex.
  pose proof (cr_ok _ _ _ _ _ _ _ _ Hc) as Hbok.
  destruct (heap_top (pq_fwd st)) as [tf|] eqn:Htf;
    destruct (heap_top (pq_bwd st)) as [tb|] eqn:Htb; try discriminate.
  - apply andb_true_iff in Hex as [H1 H2]. split.
    + apply (heap_top_least _ tf); try assumption.
      intros e He. apply (finv_queue_ok _ _ _ fwd_edge_ok scost_ok _ _ _ _ _ Hf He).
    + apply (heap_top_least _ tb); try assumption.
      intros e He. apply (finv_queue_ok _ _ _ bwd_edge_ok tcost_ok _ _ _ _ _ Hb He).
  - apply empty_quiescent.
    + destruct (pq_fwd st); [reflexivity|discriminate].
    + destruct (pq_bwd st); [reflexivity|discriminate].
Qed.

Lemma classic_body_spec st rf rb :
  store_inv false st rf rb ->
  pq_fwd st <> [] \/ pq_bwd st <> [] ->
  exists rf' rb',
    store_inv false (classic_body g st).2 rf' rb' /\
    (S (measure (classic_body g st).2 rf' rb') <= measure st rf rb)%nat /\
    ((classic_body g st).1 = true -> quiescent (classic_body g st).2).
Proof.
  intros H Hne. unfold classic_body, measure.
  destruct (classic_forward_spec st rf rb H) as (rf' & H1 & Hb1 & Hempty1 & Hdec1).
  pose proof (bwd_measure_frame _ _ rb Hb1) as Hmb1.
  assert (pq_bwd (classic_forward g st).2 = pq_bwd st) as Hq1 by exact (f_equal f_pq Hb1).
  destruct (classic_forward g st) as [c1 st1] eqn:Hfw. cbn [snd] in *.
  assert (pq_fwd st = [] -> c1 = false /\ st1 = st /\ rf' = rf) as Hempty1'.
  { intros Hq. destruct (Hempty1 Hq) as [[= -> ->] ->]. auto. }
  destruct c1.
  { exists rf', rb. cbn [fst snd]. split; [exact H1|]. split; [|discriminate].
    destruct (pq_fwd st) eqn:Hq; [destruct (Hempty1' eq_refl) as [[=] _]|].
    specialize (Hdec1 ltac:(discriminate)). lia. }
  destruct (classic_backward_spec st1 rf' rb H1) as (rb' & H2 & Hf2 & Hempty2 & Hdec2).
  pose proof (fwd_measure_frame _ _ rf' Hf2) as Hmf2.
  destruct (classic_backward g st1) as [c2 st2] eqn:Hbw. cbn [snd] in *.
  assert (S (fwd_measure st2 rf' + bwd_measure st2 rb')
          <= fwd_measure st rf + bwd_measure st rb)%nat as Hdec.
  { destruct (pq_fwd st) as [|x l] eqn:Hq.
    - destruct (Hempty1' eq_refl) as (_ & -> & ->).
      destruct Hne as [Hne|Hne]; [contradiction|].
      specialize (Hdec2 Hne). rewrite Hmf2. lia.
    - specialize (Hdec1 ltac:(discriminate)).
      destruct (pq_bwd st1) as [|y l'] eqn:Hq2.
      + destruct (Hempty2 eq_refl) as [[= _ ->] ->]. lia.
      + specialize (Hdec2 ltac:(discriminate)). lia. }
  destruct c2.
  { exists rf', rb'. cbn [fst snd]. split; [exact H2|]. split; [exact Hdec|discriminate]. }
  exists rf', rb'. cbn [fst snd]. split; [exact H2|]. split; [exact Hdec|].
  apply (classic_exit_quiescent st2 rf' rb' H2).
Qed.

Lemma classic_loop_spec : forall n st rf rb,
  store_inv false st rf rb ->
  (measure st rf rb < n)%nat ->
  exists st' rf' rb',
    classic_loop n g st = Some st' /\ store_inv false st' rf' rb' /\ quiescent st'.
Proof.
  induction n as [|n IH]; intros st rf rb H Hlt; [lia|].
  cbn [classic_loop].
  destruct (heap_empty (pq_fwd st) && heap_empty (pq_bwd st)) eqn:Hemp.
  - apply andb_true_iff in Hemp as [Hef Heb]. exists st, rf, rb.
    split; [reflexivity|]. split; [exact H|].
    apply empty_quiescent; apply heap_empty_true; assumption.
  - destruct (classic_body_spec st rf rb H) as (rf' & rb' & H' & Hdec & Hq).
    { apply andb_false_iff in Hemp as [Hemp|Hemp]; [left|right];
        apply heap_empty_false, Hemp. }
    destruct (classic_body g st) as [[|] st1]; cbn [fst snd] in *.
    + exists st1, rf', rb'. split; [reflexivity|]. split; [exact H'|apply Hq; reflexivity].
    + apply (IH _ rf' rb' H'). lia.
Qed.

Lemma classic_loop_more : forall n m st st',
  (n <= m)%nat -> classic_loop n g st = Some st' -> classic_loop m g st = Some st'.
Proof.
  induction n as [|n IH]; intros m st st' Hle H.
  - destruct m; cbn [classic_loop] in *;
      destruct (heap_empty (pq_fwd st) && heap_empty (pq_bwd st)); congruence.
  - destruct m as [|m]; [lia|]. cbn [classic_loop] in *.
    destruct (heap_empty (pq_fwd st) && heap_empty (pq_bwd st)); [exact H|].
    destruct (classic_body g st) as [[|] st1]; [exact H|].
    apply (IH m); [lia|exact H].
Qed.

(** *** The bound of a stopped search is the optimum *)

Definition meets (m : Z) (total : D) : Prop :=
  exists x y, reach (fwd_edge g) s scost m x /\ reach (bwd_edge g) t tcost m y /\
              total = dadd x y.

Definition optimal (st : @Search D) : Prop :=
  forall m total, meets m total -> dle (best st) total = true.

Lemma quiescent_optimal lazy st rf rb :
  store_inv lazy st rf rb -> quiescent st -> optimal st.
Proof.
  unfold store_inv. intros [Hf Hb Hc] [Hqf Hqb] m total (x & y & Hx & Hy & ->).
  pose proof (cr_ok _ _ _ _ _ _ _ _ Hc) as Hbok.
  pose proof (reach_ok _ _ _ fwd_edge_ok scost_ok _ _ Hx) as Hxok.
  pose proof (reach_ok _ _ _ bwd_edge_ok tcost_ok _ _ Hy) as Hyok.
  assert (ok (dadd x y)) as Hxy by (apply ok_add; assumption).
  destruct (dlt x (best st)) eqn:Hxb.
  2:{ apply (le_trans _ x); try assumption; [apply le_iff; assumption|].
      apply add_le_l; assumption. }
  destruct (dlt y (best st)) eqn:Hyb.
  2:{ apply (le_trans _ y); try assumption; [apply le_iff; assumption|].
      apply add_le_r; assumption. }
  destruct (finv_complete _ _ _ fwd_edge_ok scost_ok _ _ _ Hf Hbok Hqf m x Hx Hxb)
    as (x' & Hx' & Hlex).
  destruct (finv_complete _ _ _ bwd_edge_ok tcost_ok _ _ _ Hb Hbok Hqb m y Hy Hyb)
    as (y' & Hy' & Hley).
  pose proof (finv_dist_ok _ _ _ fwd_edge_ok scost_ok _ _ _ _ _ _ Hf Hx') as Hx'ok.
  pose proof (finv_dist_ok _ _ _ bwd_edge_ok tcost_ok _ _ _ _ _ _ Hb Hy') as Hy'ok.
  destruct (cr_meet _ _ _ _ _ _ _ _ Hc m x' y' Hx' Hy') as [Hle|[_ [Hp|Hp]]].
  - apply (le_trans _ (dadd x' y')); try assumption; [apply ok_add; assumption|].
    apply add_mono; assumption.
  - apply (le_trans _ x'); try assumption; [apply (Hqf _ Hp)|].
    apply (le_trans _ x); try assumption. apply add_le_l; assumption.
  - apply (le_trans _ y'); try assumption; [apply (Hqb _ Hp)|].
    apply (le_trans _ y); try assumption. apply add_le_r; assumption.
Qed.

(** The answer of a search that stopped: [found] says whether some finite
    meeting exists, and [best] is then the least total. *)
Definition exact_answer (st : @Search D) : Prop :=
  optimal st /\
  (if found st then dlt (best st) dinf = true /\ meets (meeting st) (best st)
   else best st = dinf).

Lemma exact_unique st1 st2 :
  ok (best st1) -> ok (best st2) -> exact_answer st1 -> exact_answer st2 ->
  found st1 = found st2 /\ best st1 = best st2.
Proof.
  intros Hok1 Hok2 [Ho1 Hf1] [Ho2 Hf2].
  destruct (found st1) eqn:F1; destruct (found st2) eqn:F2.
  - destruct Hf1 as [_ Hm1]. destruct Hf2 as [_ Hm2].
    split; [reflexivity|]. apply le_antisym; try assumption.
    + apply (Ho1 _ _ Hm2).
    + apply (Ho2 _ _ Hm1).
  - destruct Hf1 as [Hlt Hm1]. pose proof (Ho2 _ _ Hm1) as Hle. rewrite Hf2 in Hle.
    apply le_iff in Hle; [|apply ok_inf|assumption]. congruence.
  - destruct Hf2 as [Hlt Hm2]. pose proof (Ho1 _ _ Hm2) as Hle. rewrite Hf1 in Hle.
    apply le_iff in Hle; [|apply ok_inf|assumption]. congruence.
  - split; [reflexivity|]. congruence.
Qed.

Lemma stopped_exact lazy st rf rb :
  store_inv lazy st rf rb -> quiescent st -> exact_answer st.
Proof.
  intros H Hq. split; [eapply quiescent_optimal; eassumption|].
  destruct H as [_ _ Hc]. pose proof (cr_found _ _ _ _ _ _ _ _ Hc) as Hf.
  destruct (found st); [|exact Hf].
  destruct Hf as (Hlt & _ & _ & x & y & Hx & Hy & Heq).
  split; [exact Hlt|]. exists x, y. auto.
Qed.

(** A stopped search can always rebuild its path. *)
Lemma stopped_finish lazy st rf rb :
  store_inv lazy st rf rb ->
  exists r, finish st = Some r /\ reachable r = found st /\
    distance r = (if found st then best st else dneg1).
Proof.
  unfold store_inv. intros [Hf Hb Hc]. unfold finish.
  pose proof (cr_found _ _ _ _ _ _ _ _ Hc) as Hfd.
  destruct (found st); cbn [negb].
  2:{ eexists. split; [reflexivity|]. split; reflexivity. }
  destruct Hfd as (_ & Hmf & Hmb & _).
  destruct (finv_walks_end _ _ _ (fwd_of st) (best st) rf (meeting st) Hf Hmf)
    as [[up Hup] _].
  destruct (finv_walks_end _ _ _ (bwd_of st) (best st) rb (meeting st) Hb Hmb)
    as [_ [down Hdown]].
  unfold reconstruct. cbn [fwd_of bwd_of f_parent] in Hup, Hdown.
  rewrite Hup, Hdown. eexists. split; [reflexivity|]. split; reflexivity.
Qed.

End StoreSearch.

(** ** Where a search over any two sets of edges stops *)

Section Stopped.
Context {D : Type} {dops : DoubleOps D} {ok : D -> Prop} {laws : CostLaws dops ok}.

Variables Ef Eb : Z -> Z -> D -> Prop.
Variables (s t : Z) (scost tcost : D).
Hypothesis Ef_ok : forall u v c, Ef u v c -> ok c.
Hypothesis Eb_ok : forall u v c, Eb u v c -> ok c.
Hypothesis scost_ok : ok scost.
Hypothesis tcost_ok : ok tcost.

(** A meeting at [m]: a forward walk from [s] and a backward walk from [t]
    along the given edges end there, and [total] is the sum of their costs. *)
Definition meets_on (m : Z) (total : D) : Prop :=
  exists x y, reach Ef s scost m x /\ reach Eb t tcost m y /\ total = dadd x y.

Lemma meets_on_ok m total : meets_on m total -> ok total.
Proof.
  intros (x & y & Hx & Hy & ->). apply ok_add.
  - apply (reach_ok _ _ _ Ef_ok scost_ok _ _ Hx).
  - apply (reach_ok _ _ _ Eb_ok tcost_ok _ _ Hy).
Qed.

Definition optimal_on (st : @Search D) : Prop :=
  forall m total, meets_on m total -> dle (best st) total = true.

Lemma quiescent_optimal_on lazy st rf rb :
  sinv (ok := ok) Ef Eb s t scost tcost lazy st rf rb -> quiescent st -> optimal_on st.
Proof.
  intros [Hf Hb Hc] [Hqf Hqb] m total (x & y & Hx & Hy & ->).
  pose proof (cr_ok _ _ _ _ _ _ _ _ Hc) as Hbok.
  pose proof (reach_ok _ _ _ Ef_ok scost_ok _ _ Hx) as Hxok.
  pose proof (reach_ok _ _ _ Eb_ok tcost_ok _ _ Hy) as Hyok.
  assert (ok (dadd x y)) as Hxy by (apply ok_add; assumption).
  destruct (dlt x (best st)) eqn:Hxb.
  2:{ apply (le_trans _ x); try assumption; [apply le_iff; assumption|].
      apply add_le_l; assumption. }
  destruct (dlt y (best st)) eqn:Hyb.
  2:{ apply (le_trans _ y); try assumption; [apply le_iff; assumption|].
      apply add_le_r; assumption. }
  destruct (finv_complete _ _ _ Ef_ok scost_ok _ _ _ Hf Hbok Hqf m x Hx Hxb)
    as (x' & Hx' & Hlex).
  destruct (finv_complete _ _ _ Eb_ok tcost_ok _ _ _ Hb Hbok Hqb m y Hy Hyb)
    as (y' & Hy' & Hley).
  pose proof (finv_dist_ok _ _ _ Ef_ok scost_ok _ _ _ _ _ _ Hf Hx') as Hx'ok.
  pose proof (finv_dist_ok _ _ _ Eb_ok tcost_ok _ _ _ _ _ _ Hb Hy') as Hy'ok.
  destruct (cr_meet _ _ _ _ _ _ _ _ Hc m x' y' Hx' Hy') as [Hle|[_ [Hp|Hp]]].
  - apply (le_trans _ (dadd x' y')); try assumption; [apply ok_add; assumption|].
    apply add_mono; assumption.
  - apply (le_trans _ x'); try assumption; [apply (Hqf _ Hp)|].
    apply (le_trans _ x); try assumption. apply add_le_l; assumption.
  - apply (le_trans _ y'); try assumption; [apply (Hqb _ Hp)|].
    apply (le_trans _ y); try assumption. apply add_le_r; assumption.
Qed.

(** The answer of a search that stopped, against the meetings along the
    given edges. *)
Definition exact_on (st : @Search D) : Prop :=
  optimal_on st /\
  (if found st then dlt (best st) dinf = true /\ meets_on (meeting st) (best st)
   else best st = dinf).

Lemma stopped_exact_on lazy st rf rb :
  sinv (ok := ok) Ef Eb s t scost tcost lazy st rf rb -> quiescent st -> exact_on st.
Proof.
  intros H Hq. split; [eapply quiescent_optimal_on; eassumption|].
  destruct H as [_ _ Hc]. pose proof (cr_found _ _ _ _ _ _ _ _ Hc) as Hf.
  destruct (found st); [|exact Hf].
  destruct Hf as (Hlt & _ & _ & x & y & Hx & Hy & Heq).
  split; [exact Hlt|]. exists x, y. auto.
Qed.

Lemma stopped_finish_on lazy st rf rb :
  sinv (ok := ok) Ef Eb s t scost tcost lazy st rf rb ->
  exists r, finish st = Some r /\ reachable r = found st /\
    distance r = (if found st then best st else dneg1).
Proof.
  intros [Hf Hb Hc]. unfold finish.
  pose proof (cr_found _ _ _ _ _ _ _ _ Hc) as Hfd.
  destruct (found st); cbn [negb].
  2:{ eexists. split; [reflexivity|]. split; reflexivity. }
  destruct Hfd as (_ & Hmf & Hmb & _).
  destruct (finv_walks_end _ _ _ (fwd_of st) (best st) rf (meeting st) Hf Hmf)
    as [[up Hup] _].
  destruct (finv_walks_end _ _ _ (bwd_of st) (best st) rb (meeting st) Hb Hmb)
    as [_ [down Hdown]].
  unfold reconstruct. cbn [fwd_of bwd_of f_parent] in Hup, Hdown.
  rewrite Hup, Hdown. eexists. split; [reflexivity|]. split; reflexivity.
Qed.

End Stopped.

(** Two stopped searches over different edges agree when every meeting of
    either is matched by a meeting of the other that costs no more. *)
Section Matched.
Context {D : Type} {dops : DoubleOps D} {ok : D -> Prop} {laws : CostLaws dops ok}.

Variables Ef Eb Ef' Eb' : Z -> Z -> D -> Prop.
Variables (s t : Z) (scost tcost : D).
Hypothesis Ef_ok : forall u v c, Ef u v c -> ok c.
Hypothesis Eb_ok : forall u v c, Eb u v c -> ok c.
Hypothesis Ef'_ok : forall u v c, Ef' u v c -> ok c.
Hypothesis Eb'_ok : forall u v c, Eb' u v c -> ok c.
Hypothesis scost_ok : ok scost.
Hypothesis tcost_ok : ok tcost.



End Matched.

(** ** The searches from a single pair of endpoints *)

Section Agreement.
Context {D : Type} {dops : DoubleOps D} {ok : D -> Prop} {laws : CostLaws dops ok}.

Variable g : @ShortcutGraph D.
Hypothesis costs_ok : forall sc, sc ∈ shortcuts_ g -> ok (sc_cost sc).
Variables s t : Z.
Hypothesis target_ok : ok (get_edge_cost g t).

Lemma single_init_inv lazy :
  s <> t ->
  store_inv (ok := ok) g s t dzero (get_edge_cost g t) lazy (single_init g s t) ∅ ∅.
Proof.
  intros Hst. split.
  - exact (finv_seeded (fwd_edge g) s dzero ok_zero dinf).
  - exact (finv_seeded (bwd_edge g) t (get_edge_cost g t) target_ok dinf).
  - split.
    + exact ok_inf.
    + reflexivity.
    + intros m x y Hx Hy. cbn in Hx, Hy.
      apply lookup_singleton_Some in Hx as [<- _].
      apply lookup_singleton_Some in Hy as [<- _]. contradiction.
Qed.

Lemma multi_init_single :
  is_Some (edge_meta_ g !! s) -> is_Some (edge_meta_ g !! t) ->
  multi_init g [s] [dzero] [t] [dzero] =
  seeded {[ s := dzero ]} {[ t := get_edge_cost g t ]} {[ s := s ]} {[ t := t ]}
         [ {| pq_dist := dzero; pq_edge := s |} ]
         [ {| pq_dist := get_edge_cost g t; pq_edge := t |} ].
Proof.
  intros [ms Hs] [mt Ht]. unfold multi_init. cbn [zip zip_with foldl].
  unfold multi_seed_source, multi_seed_target. rewrite Hs, Ht.
  rewrite (add_zero_l _ target_ok). reflexivity.
Qed.

Lemma multi_init_inv :
  is_Some (edge_meta_ g !! s) -> is_Some (edge_meta_ g !! t) ->
  store_inv (ok := ok) g s t dzero (get_edge_cost g t) true
    (multi_init g [s] [dzero] [t] [dzero]) ∅ ∅.
Proof.
  intros Hs Ht. rewrite (multi_init_single Hs Ht). split.
  - exact (finv_seeded (fwd_edge g) s dzero ok_zero dinf).
  - exact (finv_seeded (bwd_edge g) t (get_edge_cost g t) target_ok dinf).
  - split.
    + exact ok_inf.
    + reflexivity.
    + intros m x y Hx Hy. cbn in Hx, Hy.
      apply lookup_singleton_Some in Hx as [<- <-].
      right. split; [reflexivity|]. left. apply list_elem_of_singleton. reflexivity.
Qed.

(** Both queries stop, and what they return is fixed by the store. *)
Lemma classic_answer :
  s <> t ->
  exists fuel0, forall fuel, (fuel0 <= fuel)%nat ->
    exists st r,
      query_classic fuel g s t = Some r /\
      exact_answer g s t dzero (get_edge_cost g t) st /\ ok (best st) /\
      reachable r = found st /\
      distance r = (if found st then best st else dneg1).
Proof.
  intros Hst.
  destruct (classic_loop_spec g costs_ok s t dzero (get_edge_cost g t) ok_zero target_ok
              (S (measure g (single_init g s t) ∅ ∅)) _ ∅ ∅ (single_init_inv false Hst))
    as (st & rf & rb & Hloop & Hinv & Hq); [lia|].
  eexists. intros fuel Hfuel. exists st.
  destruct (stopped_finish g s t dzero (get_edge_cost g t) false st rf rb Hinv)
    as (r & Hr & Hreach & Hdist).
  exists r. unfold query_classic.
  destruct (Z.eqb_spec s t) as [->|_]; [contradiction|].
  rewrite (classic_loop_more g _ fuel _ _ Hfuel Hloop).
  split; [exact Hr|]. split; [|split; [|split; assumption]].
  - apply (stopped_exact g costs_ok s t dzero (get_edge_cost g t) ok_zero target_ok
             false st rf rb Hinv Hq).
  - destruct Hinv as [_ _ Hc]. apply (cr_ok _ _ _ _ _ _ _ _ Hc).
Qed.

Lemma multi_answer :
  is_Some (edge_meta_ g !! s) -> is_Some (edge_meta_ g !! t) ->
  exists fuel0, forall fuel, (fuel0 <= fuel)%nat ->
    exists st r,
      query_multi fuel g [s] [dzero] [t] [dzero] = Some r /\
      exact_answer g s t dzero (get_edge_cost g t) st /\ ok (best st) /\
      reachable r = found st /\
      distance r = (if found st then best st else dneg1).
Proof.
  intros Hs Ht.
  destruct (multi_loop_spec g costs_ok s t dzero (get_edge_cost g t) ok_zero target_ok
              (S (measure g (multi_init g [s] [dzero] [t] [dzero]) ∅ ∅)) _ ∅ ∅
              (multi_init_inv Hs Ht))
    as (st & rf & rb & Hloop & Hinv & Hqf & Hqb); [lia|].
  eexists. intros fuel Hfuel. exists st.
  destruct (stopped_finish g s t dzero (get_edge_cost g t) true st rf rb Hinv)
    as (r & Hr & Hreach & Hdist).
  exists r. unfold query_multi.
  rewrite (multi_loop_more g _ fuel _ _ Hfuel Hloop).
  split; [exact Hr|]. split; [|split; [|split; assumption]].
  - apply (stopped_exact g costs_ok s t dzero (get_edge_cost g t) ok_zero target_ok
             true st rf rb Hinv (empty_quiescent st Hqf Hqb)).
  - destruct Hinv as [_ _ Hc]. apply (cr_ok _ _ _ _ _ _ _ _ Hc).
Qed.

(** With both endpoints on one edge, the optimum is the cost of the edge. *)
Lemma exact_same_edge st :
  s = t -> dlt (get_edge_cost g t) dinf = true ->
  ok (best st) -> exact_answer g s t dzero (get_edge_cost g t) st ->
  found st = true /\ best st = get_edge_cost g t.
Proof.
  intros Hst Hfin Hbok [Ho Hf].
  assert (meets g s t dzero (get_edge_cost g t) s (get_edge_cost g t)) as Hm.
  { exists dzero, (get_edge_cost g t). split; [apply reach_seed|].
    split; [rewrite Hst; apply reach_seed|]. symmetry. apply add_zero_l, target_ok. }
  pose proof (Ho _ _ Hm) as Hle.
  destruct (found st).
  - split; [reflexivity|]. destruct Hf as (_ & x & y & Hx & Hy & Heq).
    apply le_antisym; try assumption.
    pose proof (reach_ok _ _ _ (fwd_edge_ok g costs_ok) ok_zero _ _ Hx) as Hxok.
    pose proof (reach_ok _ _ _ (bwd_edge_ok g costs_ok) target_ok _ _ Hy) as Hyok.
    rewrite Heq. apply (le_trans _ y); try assumption.
    + apply ok_add; assumption.
    + apply (reach_ge_seed _ _ _ (bwd_edge_ok g costs_ok) target_ok _ _ Hy).
    + apply add_le_r; assumption.
  - rewrite Hf in Hle. apply le_iff in Hle; [|apply ok_inf|assumption]. congruence.
Qed.

End Agreement.

(** ** The pruned search is exact on the shortcuts its filters admit *)

Section PrunedEdges.
Context {D : Type} {dops : DoubleOps D} {h3 : H3Api}.

(** [parent_check(u_cell, high.cell, high.res)] at the edge [u]. *)
Definition pruned_check (g : @ShortcutGraph D) (high : HighCell) (u : Z) : bool :=
  parent_check (get_edge_cell g u) (hc_cell high) (hc_res high).

(** The edges the forward loop of the pruned search relaxes at [u]: the
    ascending shortcuts, when [u] passes the check; none otherwise. *)
Definition pruned_fwd_targets (g : @ShortcutGraph D) (high : HighCell) (u : Z)
    : list (Z * D) :=
  if pruned_check g high u then fwd_targets g (adjacent (fwd_adj_ g) u) else [].

(** The edges its backward loop relaxes, read off the positions [idxs]:
    origin and cost of every shortcut the three-way filter admits. *)
Definition pruned_bwd_targets (g : @ShortcutGraph D) (check at_high : bool)
    (idxs : list nat) : list (Z * D) :=
  omap (fun idx =>
          match shortcuts_ g !! idx with
          | Some sc =>
              if pruned_allowed (sc_inside sc) check at_high
              then Some (sc_from sc, sc_cost sc) else None
          | None => None
          end) idxs.

Definition pruned_fwd_edge (g : @ShortcutGraph D) (high : HighCell) (u v : Z) (c : D) : Prop :=
  (v, c) ∈ pruned_fwd_targets g high u.

Definition pruned_bwd_edge (g : @ShortcutGraph D) (high : HighCell) (u v : Z) (c : D) : Prop :=
  (v, c) ∈ pruned_bwd_targets g (pruned_check g high u) (get_edge_cell g u =? hc_cell high)
             (adjacent (bwd_adj_ g) u).

Lemma pruned_bwd_targets_cons (g : @ShortcutGraph D) check at_high idx idxs :
  pruned_bwd_targets g check at_high (idx :: idxs) =
  match shortcuts_ g !! idx with
  | Some sc =>
      if pruned_allowed (sc_inside sc) check at_high
      then (sc_from sc, sc_cost sc) :: pruned_bwd_targets g check at_high idxs
      else pruned_bwd_targets g check at_high idxs
  | None => pruned_bwd_targets g check at_high idxs
  end.
Proof.
  unfold pruned_bwd_targets. cbn. destruct (shortcuts_ g !! idx) as [sc|]; [|reflexivity].
  destruct (pruned_allowed (sc_inside sc) check at_high); reflexivity.
Qed.

Lemma pruned_fold_bwd (g : @ShortcutGraph D) check at_high d u idxs : forall st,
  let st' := foldl (pruned_relax_bwd g check at_high d u) st idxs in
  bwd_of st' = relax_all u d (pruned_bwd_targets g check at_high idxs) (bwd_of st) /\
  fwd_of st' = fwd_of st /\ best st' = best st /\
  meeting st' = meeting st /\ found st' = found st.
Proof.
  induction idxs as [|idx idxs IH]; intros st; [repeat split; reflexivity|].
  cbn [foldl]. rewrite pruned_bwd_targets_cons.
  specialize (IH (pruned_relax_bwd g check at_high d u st idx)).
  cbv zeta in IH. destruct IH as (IHf & IHb & IHbest & IHm & IHfound).
  rewrite IHf, IHb, IHbest, IHm, IHfound. clear IHf IHb IHbest IHm IHfound.
  unfold pruned_relax_bwd. destruct (shortcuts_ g !! idx) as [sc|]; [|repeat split; reflexivity].
  destruct (pruned_allowed (sc_inside sc) check at_high); cbn [negb];
    [|repeat split; reflexivity].
  unfold relax_all at 2. cbn [foldl fst snd]. rewrite bwd_of_edge_bwd.
  destruct (edge_bwd_frame d u sc st) as (-> & -> & -> & ->).
  repeat split; reflexivity.
Qed.

End PrunedEdges.

Section PrunedSearch.
Context {D : Type} {dops : DoubleOps D} {h3 : H3Api}.
Context {ok : D -> Prop} {laws : CostLaws dops ok}.

Variable g : @ShortcutGraph D.
Hypothesis costs_ok : forall sc, sc ∈ shortcuts_ g -> ok (sc_cost sc).
Variables (s t : Z) (scost tcost : D).
Hypothesis scost_ok : ok scost.
Hypothesis tcost_ok : ok tcost.
Variable high : HighCell.

Lemma pruned_fwd_edge_ok u v c : pruned_fwd_edge g high u v c -> ok c.
Proof.
  unfold pruned_fwd_edge, pruned_fwd_targets.
  destruct (pruned_check g high u); [|intros []%elem_of_nil].
  apply (fwd_targets_ok g costs_ok).
Qed.

Lemma pruned_bwd_edge_ok u v c : pruned_bwd_edge g high u v c -> ok c.
Proof.
  unfold pruned_bwd_edge, pruned_bwd_targets.
  intros (idx & Hidx & Hsome)%list_elem_of_omap.
  destruct (shortcuts_ g !! idx) as [sc|] eqn:Hsc; [|discriminate].
  destruct (pruned_allowed _ _ _); [|discriminate].
  injection Hsome as _ <-. apply costs_ok.
  eapply list_elem_of_lookup_2, Hsc.
Qed.

(** The invariant of the pruned search. *)
Definition pruned_inv : @Search D -> gmap Z nat -> gmap Z nat -> Prop :=
  sinv (ok := ok) (pruned_fwd_edge g high) (pruned_bwd_edge g high) s t scost tcost true.

Lemma pruned_forward_spec st rf rb :
  pruned_inv st rf rb ->
  exists rf',
    pruned_inv (pruned_forward g high st).2 rf' rb /\
    bwd_of (pruned_forward g high st).2 = bwd_of st /\
    (pq_fwd st = [] -> pruned_forward g high st = (false, st) /\ rf' = rf) /\
    (pq_fwd st <> [] ->
       (S (fwd_measure g (pruned_forward g high st).2 rf') <= fwd_measure g st rf)%nat).
Proof.
  unfold pruned_inv. intros H. unfold pruned_forward.
  destruct (heap_pop (pq_fwd st)) as [[e rest]|] eqn:Hpop.
  2:{ exists rf. apply heap_pop_None in Hpop. cbn [snd].
      split; [exact H|]. split; [reflexivity|]. split; [auto|]. intros Hne. contradiction. }
  destruct (lazy_pop_fwd _ _ _ _ _ _ pruned_fwd_edge_ok pruned_bwd_edge_ok
              scost_ok tcost_ok st rf rb e rest H Hpop) as (Hc2 & Hf2 & Hb2 & Hok2 & Hle2).
  cbv zeta in Hc2, Hf2, Hb2, Hok2, Hle2. cbv zeta.
  set (st2 := match dist_bwd (set_pq_fwd rest st) !! pq_edge e with
              | Some y => meet (dadd (pq_dist e) y) (pq_edge e) (set_pq_fwd rest st)
              | None => set_pq_fwd rest st
              end) in *.
  destruct H as [Hf Hb Hc].
  pose proof (cr_ok _ _ _ _ _ _ _ _ Hc) as Hbok.
  pose proof (finv_bound _ _ _ pruned_fwd_edge_ok scost_ok _ _ _ _ _ Hbok Hok2 Hle2 Hf)
    as Hf'.
  pose proof (finv_bound _ _ _ pruned_bwd_edge_ok tcost_ok _ _ _ _ _ Hbok Hok2 Hle2 Hb)
    as Hb'.
  assert (pq_fwd st <> []) as Hne.
  { intros Heq. rewrite Heq in Hpop. discriminate. }
  assert (dist_fwd st2 = dist_fwd st) as Hdf2 by exact (f_equal f_dist Hf2).
  assert (forall c : bool,
            stale (f_dist (fwd_of st)) (pq_edge e) (pq_dist e) = true \/
            dge (pq_dist e) (best st2) = true ->
            exists rf',
              sinv (ok := ok) (pruned_fwd_edge g high) (pruned_bwd_edge g high)
                s t scost tcost true st2 rf' rb /\
              bwd_of st2 = bwd_of st /\
              (pq_fwd st = [] -> (c, st2) = (false, st) /\ rf' = rf) /\
              (pq_fwd st <> [] -> (S (fwd_measure g st2 rf') <= fwd_measure g st rf)%nat))
    as Hskip.
  { intros c Hcase. exists rf.
    split; [|split; [exact Hb2|split; [intros; contradiction|]]].
    - split; [|rewrite Hb2; exact Hb'|exact Hc2].
      rewrite Hf2.
      apply (finv_pop_skip _ _ _ pruned_fwd_edge_ok scost_ok (fwd_of st) (best st2)
               rf e rest Hok2 Hf' Hpop Hcase).
    - intros _. unfold fwd_measure.
      change (pq_fwd st2) with (f_pq (fwd_of st2)). rewrite Hf2.
      apply (finv_pop_skip_measure (fwd_of st) e rest). exact Hpop. }
  change (f_dist (fwd_of st)) with (dist_fwd st) in Hskip. rewrite <- Hdf2 in Hskip.
  destruct (stale (dist_fwd st2) (pq_edge e) (pq_dist e)) eqn:Hst.
  { cbn [snd]. apply (Hskip true). left. reflexivity. }
  destruct (dge (pq_dist e) (best st2)) eqn:Hge.
  { cbn [snd]. apply (Hskip true). right. reflexivity. }
  clear Hskip. rewrite Hdf2 in Hst.
  destruct (parent_check (get_edge_cell g (pq_edge e)) (hc_cell high) (hc_res high))
    eqn:Hpc; cbn [negb snd].
  - (* the check passes: the ascending shortcuts are relaxed *)
    change (pruned_relax_fwd g (pq_dist e) (pq_edge e))
      with (multi_relax_fwd g (pq_dist e) (pq_edge e)).
    destruct (multi_fold_fwd g (pq_dist e) (pq_edge e) (adjacent (fwd_adj_ g) (pq_edge e)) st2)
      as (Hff & Hfb & Hfbest & Hfm & Hffound).
    set (st3 := foldl (multi_relax_fwd g (pq_dist e) (pq_edge e)) st2
                  (adjacent (fwd_adj_ g) (pq_edge e))) in *.
    rewrite Hf2 in Hff.
    destruct (finv_expand _ _ _ pruned_fwd_edge_ok scost_ok (fwd_of st) (best st2)
                rf e rest (fwd_targets g (adjacent (fwd_adj_ g) (pq_edge e))) Hf' Hpop Hst)
      as (Hf3 & _ & Hmeas).
    { intros v c. unfold pruned_fwd_edge, pruned_fwd_targets, pruned_check.
      rewrite Hpc. reflexivity. }
    exists (rank_add (pq_edge e) rf).
    split; [|split; [rewrite Hfb; exact Hb2|split; [intros; contradiction|]]].
    + split.
      * rewrite Hff, Hfbest. exact Hf3.
      * rewrite Hfb, Hfbest, Hb2. exact Hb'.
      * eapply cross_relax_fwd; [exact Hc2|rewrite Hf2; exact Hff|assumption..].
    + intros _. unfold fwd_measure.
      change (pq_fwd st3) with (f_pq (fwd_of st3)). rewrite Hff.
      apply Hmeas. apply omap_length_le.
  - (* the check fails: the pop is dropped, and the pruned edges of the
       popped edge are none *)
    destruct (finv_expand _ _ _ pruned_fwd_edge_ok scost_ok (fwd_of st) (best st2)
                rf e rest [] Hf' Hpop Hst)
      as (Hf3 & _ & Hmeas).
    { intros v c. unfold pruned_fwd_edge, pruned_fwd_targets, pruned_check.
      rewrite Hpc. reflexivity. }
    exists (rank_add (pq_edge e) rf).
    split; [|split; [exact Hb2|split; [intros; contradiction|]]].
    + split; [rewrite Hf2; exact Hf3|rewrite Hb2; exact Hb'|exact Hc2].
    + intros _. unfold fwd_measure.
      change (pq_fwd st2) with (f_pq (fwd_of st2)). rewrite Hf2.
      apply (Hmeas (fwd_adj_ g)). cbn [length]. lia.
Qed.

Lemma pruned_backward_spec st rf rb :
  pruned_inv st rf rb ->
  exists rb',
    pruned_inv (pruned_backward g high st).2 rf rb' /\
    fwd_of (pruned_backward g high st).2 = fwd_of st /\
    (pq_bwd st = [] -> pruned_backward g high st = (false, st) /\ rb' = rb) /\
    (pq_bwd st <> [] ->
       (S (bwd_measure g (pruned_backward g high st).2 rb') <= bwd_measure g st rb)%nat).
Proof.
  unfold pruned_inv. intros H. unfold pruned_backward.
  destruct (heap_pop (pq_bwd st)) as [[e rest]|] eqn:Hpop.
  2:{ exists rb. apply heap_pop_None in Hpop. cbn [snd].
      split; [exact H|]. split; [reflexivity|]. split; [auto|]. intros Hne. contradiction. }
  destruct (lazy_pop_bwd _ _ _ _ _ _ pruned_fwd_edge_ok pruned_bwd_edge_ok
              scost_ok tcost_ok st rf rb e rest H Hpop) as (Hc2 & Hb2 & Hf2 & Hok2 & Hle2).
  cbv zeta in Hc2, Hf2, Hb2, Hok2, Hle2. cbv zeta.
  set (st2 := match dist_fwd (set_pq_bwd rest st) !! pq_edge e with
              | Some x => meet (dadd x (pq_dist e)) (pq_edge e) (set_pq_bwd rest st)
              | None => set_pq_bwd rest st
              end) in *.
  destruct H as [Hf Hb Hc].
  pose proof (cr_ok _ _ _ _ _ _ _ _ Hc) as Hbok.
  pose proof (finv_bound _ _ _ pruned_fwd_edge_ok scost_ok _ _ _ _ _ Hbok Hok2 Hle2 Hf)
    as Hf'.
  pose proof (finv_bound _ _ _ pruned_bwd_edge_ok tcost_ok _ _ _ _ _ Hbok Hok2 Hle2 Hb)
    as Hb'.
  assert (pq_bwd st <> []) as Hne.
  { intros Heq. rewrite Heq in Hpop. discriminate. }
  assert (dist_bwd st2 = dist_bwd st) as Hdb2 by exact (f_equal f_dist Hb2).
  assert (forall c : bool,
            stale (f_dist (bwd_of st)) (pq_edge e) (pq_dist e) = true \/
            dge (pq_dist e) (best st2) = true ->
            exists rb',
              sinv (ok := ok) (pruned_fwd_edge g high) (pruned_bwd_edge g high)
                s t scost tcost true st2 rf rb' /\
              fwd_of st2 = fwd_of st /\
              (pq_bwd st = [] -> (c, st2) = (false, st) /\ rb' = rb) /\
              (pq_bwd st <> [] -> (S (bwd_measure g st2 rb') <= bwd_measure g st rb)%nat))
    as Hskip.
  { intros c Hcase. exists rb.
    split; [|split; [exact Hf2|split; [intros; contradiction|]]].
    - split; [rewrite Hf2; exact Hf'| |exact Hc2].
      rewrite Hb2.
      apply (finv_pop_skip _ _ _ pruned_bwd_edge_ok tcost_ok (bwd_of st) (best st2)
               rb e rest Hok2 Hb' Hpop Hcase).
    - intros _. unfold bwd_measure.
      change (pq_bwd st2) with (f_pq (bwd_of st2)). rewrite Hb2.
      apply (finv_pop_skip_measure (bwd_of st) e rest). exact Hpop. }
  change (f_dist (bwd_of st)) with (dist_bwd st) in Hskip. rewrite <- Hdb2 in Hskip.
  destruct (stale (dist_bwd st2) (pq_edge e) (pq_dist e)) eqn:Hst.
  { cbn [snd]. apply (Hskip true). left. reflexivity. }
  destruct (dge (pq_dist e) (best st2)) eqn:Hge.
  { cbn [snd]. apply (Hskip true). right. reflexivity. }
  clear Hskip. rewrite Hdb2 in Hst. cbn [snd].
  destruct (pruned_fold_bwd g
              (parent_check (get_edge_cell g (pq_edge e)) (hc_cell high) (hc_res high))
              (get_edge_cell g (pq_edge e) =? hc_cell high)
              (pq_dist e) (pq_edge e) (adjacent (bwd_adj_ g) (pq_edge e)) st2)
    as (Hfb & Hff & Hfbest & Hfm & Hffound).
  set (st3 := foldl (pruned_relax_bwd g _ _ (pq_dist e) (pq_edge e)) st2
                (adjacent (bwd_adj_ g) (pq_edge e))) in *.
  rewrite Hb2 in Hfb.
  destruct (finv_expand _ _ _ pruned_bwd_edge_ok tcost_ok (bwd_of st) (best st2)
              rb e rest
              (pruned_bwd_targets g (pruned_check g high (pq_edge e))
                 (get_edge_cell g (pq_edge e) =? hc_cell high)
                 (adjacent (bwd_adj_ g) (pq_edge e))) Hb' Hpop Hst)
    as (Hb3 & _ & Hmeas).
  { intros v c. reflexivity. }
  exists (rank_add (pq_edge e) rb).
  split; [|split; [rewrite Hff; exact Hf2|split; [intros; contradiction|]]].
  - split.
    + rewrite Hff, Hfbest, Hf2. exact Hf'.
    + rewrite Hfb, Hfbest. exact Hb3.
    + eapply cross_relax_bwd; [exact Hc2|rewrite Hb2; exact Hfb|assumption..].
  - intros _. unfold bwd_measure.
    change (pq_bwd st3) with (f_pq (bwd_of st3)). rewrite Hfb.
    apply Hmeas. apply omap_length_le.
Qed.

Lemma can_improve_least (q : @MinHeap D) b :
  (forall e, e ∈ q -> ok (pq_dist e)) -> ok b ->
  can_improve q b = false ->
  forall e, e ∈ q -> dle b (pq_dist e) = true.
Proof.
  intros Hq Hb Hcan. unfold can_improve in Hcan.
  destruct (heap_top q) as [top|] eqn:Htop.
  - apply (heap_top_least q top b Hq Hb Htop).
    unfold dge. apply le_iff; [exact Hb| |exact Hcan].
    apply Hq. unfold heap_top in Htop.
    destruct (heap_pop q) as [[e' rest]|] eqn:Hpop; [|discriminate].
    injection Htop as <-. rewrite (heap_pop_perm _ _ _ Hpop). left.
  - intros e He. destruct q; [apply elem_of_nil in He; destruct He|discriminate].
Qed.

Lemma pruned_exit_quiescent st rf rb :
  pruned_inv st rf rb -> pruned_exit st = true -> quiescent st.
Proof.
  unfold pruned_inv. intros [Hf Hb Hc] Hex. unfold pruned_exit in Hex.
  pose proof (cr_ok _ _ _ _ _ _ _ _ Hc) as Hbok.
  destruct (dlt (best st) dinf); [|discriminate].
  apply andb_true_iff in Hex as [H1%negb_true_iff H2%negb_true_iff]. split.
  - apply can_improve_least; try assumption.
    intros e He.
    apply (finv_queue_ok _ _ _ pruned_fwd_edge_ok scost_ok _ _ _ _ _ Hf He).
  - apply can_improve_least; try assumption.
    intros e He.
    apply (finv_queue_ok _ _ _ pruned_bwd_edge_ok tcost_ok _ _ _ _ _ Hb He).
Qed.

Lemma pruned_body_spec st rf rb :
  pruned_inv st rf rb ->
  pq_fwd st <> [] \/ pq_bwd st <> [] ->
  exists rf' rb',
    pruned_inv (pruned_body g high st).2 rf' rb' /\
    (S (measure g (pruned_body g high st).2 rf' rb') <= measure g st rf rb)%nat /\
    ((pruned_body g high st).1 = true -> quiescent (pruned_body g high st).2).
Proof.
  intros H Hne. unfold pruned_body, measure.
  destruct (pruned_forward_spec st rf rb H) as (rf' & H1 & Hb1 & Hempty1 & Hdec1).
  pose proof (bwd_measure_frame g _ _ rb Hb1) as Hmb1.
  assert (pq_bwd (pruned_forward g high st).2 = pq_bwd st) as Hq1 by exact (f_equal f_pq Hb1).
  destruct (pruned_forward g high st) as [c1 st1] eqn:Hfw. cbn [snd] in *.
  assert (pq_fwd st = [] -> c1 = false /\ st1 = st /\ rf' = rf) as Hempty1'.
  { intros Hq. destruct (Hempty1 Hq) as [[= -> ->] ->]. auto. }
  destruct c1.
  { exists rf', rb. cbn [fst snd]. split; [exact H1|]. split; [|discriminate].
    destruct (pq_fwd st) eqn:Hq; [destruct (Hempty1' eq_refl) as [[=] _]|].
    specialize (Hdec1 ltac:(discriminate)). lia. }
  destruct (pruned_backward_spec st1 rf' rb H1) as (rb' & H2 & Hf2 & Hempty2 & Hdec2).
  pose proof (fwd_measure_frame g _ _ rf' Hf2) as Hmf2.
  destruct (pruned_backward g high st1) as [c2 st2] eqn:Hbw. cbn [snd] in *.
  assert (S (fwd_measure g st2 rf' + bwd_measure g st2 rb')
          <= fwd_measure g st rf + bwd_measure g st rb)%nat as Hdec.
  { destruct (pq_fwd st) as [|x l] eqn:Hq.
    - destruct (Hempty1' eq_refl) as (_ & -> & ->).
      destruct Hne as [Hne|Hne]; [contradiction|].
      specialize (Hdec2 Hne). rewrite Hmf2. lia.
    - specialize (Hdec1 ltac:(discriminate)).
      destruct (pq_bwd st1) as [|y l'] eqn:Hq2.
      + destruct (Hempty2 eq_refl) as [[= _ ->] ->]. lia.
      + specialize (Hdec2 ltac:(discriminate)). lia. }
  destruct c2.
  { exists rf', rb'. cbn [fst snd]. split; [exact H2|]. split; [exact Hdec|discriminate]. }
  exists rf', rb'. cbn [fst snd]. split; [exact H2|]. split; [exact Hdec|].
  apply (pruned_exit_quiescent st2 rf' rb' H2).
Qed.

Lemma pruned_loop_spec : forall n st rf rb,
  pruned_inv st rf rb ->
  (measure g st rf rb < n)%nat ->
  exists st' rf' rb',
    pruned_loop n g high st = Some st' /\
    pruned_inv st' rf' rb' /\ quiescent st'.
Proof.
  induction n as [|n IH]; intros st rf rb H Hlt; [lia|].
  cbn [pruned_loop].
  destruct (heap_empty (pq_fwd st) && heap_empty (pq_bwd st)) eqn:Hemp.
  - apply andb_true_iff in Hemp as [Hef Heb]. exists st, rf, rb.
    split; [reflexivity|]. split; [exact H|].
    apply empty_quiescent; apply heap_empty_true; assumption.
  - destruct (pruned_body_spec st rf rb H) as (rf' & rb' & H' & Hdec & Hq).
    { apply andb_false_iff in Hemp as [Hemp|Hemp]; [left|right];
        apply heap_empty_false, Hemp. }
    destruct (pruned_body g high st) as [[|] st1]; cbn [fst snd] in *.
    + exists st1, rf', rb'. split; [reflexivity|]. split; [exact H'|apply Hq; reflexivity].
    + apply (IH _ rf' rb' H'). lia.
Qed.

Lemma pruned_loop_more : forall n m st st',
  (n <= m)%nat -> pruned_loop n g high st = Some st' -> pruned_loop m g high st = Some st'.
Proof.
  induction n as [|n IH]; intros m st st' Hle H.
  - destruct m; cbn [pruned_loop] in *;
      destruct (heap_empty (pq_fwd st) && heap_empty (pq_bwd st)); congruence.
  - destruct m as [|m]; [lia|]. cbn [pruned_loop] in *.
    destruct (heap_empty (pq_fwd st) && heap_empty (pq_bwd st)); [exact H|].
    destruct (pruned_body g high st) as [[|] st1]; [exact H|].
    apply (IH m); [lia|exact H].
Qed.

End PrunedSearch.

Section PrunedClassic.
Context {D : Type} {dops : DoubleOps D} {h3 : H3Api}.
Context {ok : D -> Prop} {laws : CostLaws dops ok}.

(** The meetings of the pruned search from [s] to [t]: walks along the
    shortcuts its filters admit for the high cell of the two edges. *)
Definition pruned_meets (g : @ShortcutGraph D) (s t : Z) (m : Z) (total : D) : Prop :=
  let high := compute_high_cell g s t in
  meets_on (pruned_fwd_edge g high) (pruned_bwd_edge g high) s t
    dzero (get_edge_cost g t) m total.

Lemma pruned_init_inv (g : @ShortcutGraph D) (s t : Z) high :
  ok (get_edge_cost g t) -> s <> t ->
  pruned_inv (ok := ok) g s t dzero (get_edge_cost g t) high (single_init g s t) ∅ ∅.
Proof.
  intros Htok Hst. split.
  - exact (finv_seeded (pruned_fwd_edge g high) s dzero ok_zero dinf).
  - exact (finv_seeded (pruned_bwd_edge g high) t (get_edge_cost g t) Htok dinf).
  - split.
    + exact ok_inf.
    + reflexivity.
    + intros m x y Hx Hy. cbn in Hx, Hy.
      apply lookup_singleton_Some in Hx as [<- _].
      apply lookup_singleton_Some in Hy as [<- _]. contradiction.
Qed.

(** The pruned query stops, and what it returns is fixed by the shortcuts
    its filters admit. *)
Lemma pruned_answer (g : @ShortcutGraph D) (s t : Z) :
  (forall sc, sc ∈ shortcuts_ g -> ok (sc_cost sc)) ->
  ok (get_edge_cost g t) ->
  s <> t ->
  let high := compute_high_cell g s t in
  exists fuel0, forall fuel, (fuel0 <= fuel)%nat ->
    exists st r,
      query_pruned fuel g s t = Some r /\
      exact_on (pruned_fwd_edge g high) (pruned_bwd_edge g high) s t
        dzero (get_edge_cost g t) st /\
      ok (best st) /\
      reachable r = found st /\
      distance r = (if found st then best st else dneg1).
Proof.
  intros Hcosts Htok Hst high.
  destruct (pruned_loop_spec g Hcosts s t dzero (get_edge_cost g t) ok_zero Htok high
              (S (measure g (single_init g s t) ∅ ∅)) _ ∅ ∅
              (pruned_init_inv g s t high Htok Hst))
    as (st & rf & rb & Hloop & Hinv & Hq); [lia|].
  eexists. intros fuel Hfuel. exists st.
  destruct (stopped_finish_on _ _ _ _ _ _ true st rf rb Hinv) as (r & Hr & Hreach & Hdist).
  exists r. unfold query_pruned.
  destruct (Z.eqb_spec s t) as [->|_]; [contradiction|]. cbv zeta.
  fold high. rewrite (pruned_loop_more g high _ fuel _ _ Hfuel Hloop).
  split; [exact Hr|]. split; [|split; [|split; assumption]].
  - apply (stopped_exact_on _ _ _ _ _ _
             (pruned_fwd_edge_ok g Hcosts high) (pruned_bwd_edge_ok g Hcosts high)
             ok_zero Htok true st rf rb Hinv Hq).
  - destruct Hinv as [_ _ Hc]. apply (cr_ok _ _ _ _ _ _ _ _ Hc).
Qed.

(** Walks along fewer edges are walks. *)
Lemma reach_sub (E E' : Z -> Z -> D -> Prop) seed seedv u x :
  (forall a b c, E a b c -> E' a b c) ->
  reach E seed seedv u x -> reach E' seed seedv u x.
Proof.
  intros Hsub. induction 1 as [|a x b c _ IH HE]; [apply reach_seed|].
  eapply reach_step; [exact IH|apply Hsub, HE].
Qed.

(** On a store without shortcuts tagged -2 the pruned search walks only
    shortcuts the classic search walks. *)
Lemma pruned_meets_classic (g : @ShortcutGraph D) (s t : Z) m total :
  (forall sc, sc ∈ shortcuts_ g -> sc_inside sc <> -2) ->
  pruned_meets g s t m total -> meets g s t dzero (get_edge_cost g t) m total.
Proof.
  intros Hno (x & y & Hx & Hy & Heq). exists x, y. split; [|split; [|exact Heq]].
  - eapply reach_sub; [|exact Hx].
    intros a b c. unfold pruned_fwd_edge, pruned_fwd_targets, fwd_edge.
    destruct (pruned_check g _ a); [auto|intros []%elem_of_nil].
  - eapply reach_sub; [|exact Hy].
    intros a b c. unfold pruned_bwd_edge, pruned_bwd_targets, bwd_edge, bwd_targets.
    intros (idx & Hidx & Hsome)%list_elem_of_omap.
    apply list_elem_of_omap. exists idx. split; [exact Hidx|].
    destruct (shortcuts_ g !! idx) as [sc|] eqn:Hsc; [|discriminate].
    assert (sc_inside sc <> -2) as Hne by (apply Hno; eapply list_elem_of_lookup_2, Hsc).
    destruct (pruned_allowed _ _ _) eqn:Ha; [|discriminate].
    assert (negb (sc_inside sc =? -1) && negb (sc_inside sc =? 0) = false) as ->; [|exact Hsome].
    unfold pruned_allowed in Ha.
    destruct (sc_inside sc =? -1); [reflexivity|].
    destruct (sc_inside sc =? 0); [reflexivity|]. cbn [andb] in Ha.
    destruct (Z.eqb_spec (sc_inside sc) (-2)); [contradiction|]. discriminate.
Qed.

(** The answer read off a stopped pruned search, against its meetings. *)
Definition least_pruned_meeting (g : @ShortcutGraph D) (s t : Z) (r : @QueryResult D) : Prop :=
  let meet_at := pruned_meets g s t in
  if reachable r then
    dlt (distance r) dinf = true /\
    (exists m, meet_at m (distance r)) /\
    (forall m total, meet_at m total -> dle (distance r) total = true)
  else
    distance r = dneg1 /\ (forall m total, meet_at m total -> total = dinf).



End PrunedClassic.

(** ** What the distance of a query is *)

Section Optimum.
Context {D : Type} {dops : DoubleOps D} {ok : D -> Prop} {laws : CostLaws dops ok}.

(** The answer read off a stopped search, against the meetings of the
    store: a reachable answer is the total of a meeting and no meeting has
    a smaller total; an unreachable answer is -1 and every meeting has an
    infinite total. *)
Definition least_meeting (g : @ShortcutGraph D) (s t : Z) (r : @QueryResult D) : Prop :=
  let meet_at := meets g s t dzero (get_edge_cost g t) in
  if reachable r then
    dlt (distance r) dinf = true /\
    (exists m, meet_at m (distance r)) /\
    (forall m total, meet_at m total -> dle (distance r) total = true)
  else
    distance r = dneg1 /\ (forall m total, meet_at m total -> total = dinf).

Lemma exact_least_meeting (g : @ShortcutGraph D) (s t : Z) st r :
  (forall sc, sc ∈ shortcuts_ g -> ok (sc_cost sc)) ->
  ok (get_edge_cost g t) ->
  exact_answer g s t dzero (get_edge_cost g t) st ->
  reachable r = found st ->
  distance r = (if found st then best st else dneg1) ->
  least_meeting g s t r.
Proof.
  intros Hcosts Htok [Hopt Hfound] Hr Hd. unfold least_meeting. cbv zeta.
  rewrite Hr, Hd. destruct (found st).
  - destruct Hfound as [Hlt Hm]. split; [exact Hlt|]. split; [eauto|exact Hopt].
  - split; [reflexivity|]. intros m total Hm.
    pose proof (Hopt m total Hm) as Hle. rewrite Hfound in Hle.
    destruct Hm as (x & y & Hx & Hy & ->).
    pose proof (reach_ok _ _ _ (fwd_edge_ok g Hcosts) ok_zero _ _ Hx) as Hxok.
    pose proof (reach_ok _ _ _ (bwd_edge_ok g Hcosts) Htok _ _ Hy) as Hyok.
    assert (ok (dadd x y)) as Hxy by (apply ok_add; assumption).
    apply le_antisym; [exact Hxy|apply ok_inf|apply le_inf, Hxy|exact Hle].
Qed.

End Optimum.

(** * The three queries on binary64 costs *)

(** A store of valid costs: no cost of a shortcut is NaN or carries a
    negative sign.  The finite nonnegative costs of the inputs, +0 and
    +infinity are valid. *)
Definition valid_costs (g : @ShortcutGraph float) : Prop :=
  forall sc, sc ∈ shortcuts_ g -> F64.valid_cost (sc_cost sc).

Section Binary64Queries.
Context {h3 : H3Api}.

#[local] Existing Instance binary64_laws.


(** C3, amended.  On a store of valid binary64 costs, for two edges with
    metadata, the cost of the target valid and finite: with enough rounds
    [query_multi] from the single source at offset 0 to the single target
    at offset 0 and [query_classic] both return, with the same distance and
    the same reachable flag. *)
Theorem multi_single_matches_classic (g : @ShortcutGraph float) (s t : Z) :
  valid_costs g ->
  F64.valid_cost (get_edge_cost g t) ->
  (get_edge_cost g t <? infinity)%float = true ->
  is_Some (edge_meta_ g !! s) -> is_Some (edge_meta_ g !! t) ->
  exists fuel0, forall fuel, (fuel0 <= fuel)%nat ->
    exists rc rm,
      query_classic fuel g s t = Some rc /\
      query_multi fuel g [s] [0%float] [t] [0%float] = Some rm /\
      distance rm = distance rc /\ reachable rm = reachable rc.
Proof.
  intros Hcosts Htok Htfin Hs Ht.
  destruct (multi_answer g Hcosts s t Htok Hs Ht) as (fm & Hm).
  destruct (Z.eq_dec s t) as [Hst|Hst].
  - exists fm. intros fuel Hfuel.
    destruct (Hm fuel Hfuel) as (stm & rm & Hqm & Hexm & Hokm & Hrm & Hdm).
    destruct (exact_same_edge g Hcosts s t Htok stm Hst Htfin Hokm Hexm) as [Hfound Hbest].
    eexists. exists rm. unfold query_classic.
    destruct (Z.eqb_spec s t) as [_|Hne]; [|contradiction].
    split; [reflexivity|]. split; [exact Hqm|]. cbn [distance reachable].
    rewrite Hdm, Hrm, Hfound, Hbest, Hst. split; reflexivity.
  - destruct (classic_answer g Hcosts s t Htok Hst) as (fc & Hc).
    exists (Nat.max fc fm). intros fuel Hfuel.
    destruct (Hm fuel ltac:(lia)) as (stm & rm & Hqm & Hexm & Hokm & Hrm & Hdm).
    destruct (Hc fuel ltac:(lia)) as (stc & rc & Hqc & Hexc & Hokc & Hrc & Hdc).
    destruct (exact_unique g s t dzero (get_edge_cost g t) stm stc Hokm Hokc Hexm Hexc)
      as [Hfound Hbest].
    exists rc, rm. split; [exact Hqc|]. split; [exact Hqm|].
    rewrite Hdm, Hdc, Hrm, Hrc, Hfound, Hbest. split; reflexivity.
Qed.

(** X1.  On a store of valid binary64 costs, [query_classic] between two
    distinct edges stops, and its answer is the least total over the
    meetings of the two searches. *)
Theorem classic_distance_least (g : @ShortcutGraph float) (s t : Z) :
  valid_costs g ->
  F64.valid_cost (get_edge_cost g t) ->
  s <> t ->
  exists fuel0, forall fuel, (fuel0 <= fuel)%nat ->
    exists r, query_classic fuel g s t = Some r /\ least_meeting g s t r.
Proof.
  intros Hcosts Htok Hst.
  destruct (classic_answer g Hcosts s t Htok Hst) as (fuel0 & H).
  exists fuel0. intros fuel Hfuel.
  destruct (H fuel Hfuel) as (st & r & Hq & Hex & _ & Hr & Hd).
  exists r. split; [exact Hq|]. eapply exact_least_meeting; eassumption.
Qed.

(** X2.  On a store of valid binary64 costs, [query_multi] from one source
    to one target, both with metadata and at offset 0, stops with the least
    total over the same meetings. *)
Theorem multi_distance_least (g : @ShortcutGraph float) (s t : Z) :
  valid_costs g ->
  F64.valid_cost (get_edge_cost g t) ->
  is_Some (edge_meta_ g !! s) -> is_Some (edge_meta_ g !! t) ->
  exists fuel0, forall fuel, (fuel0 <= fuel)%nat ->
    exists r, query_multi fuel g [s] [0%float] [t] [0%float] = Some r /\
              least_meeting g s t r.
Proof.
  intros Hcosts Htok Hs Ht.
  destruct (multi_answer g Hcosts s t Htok Hs Ht) as (fuel0 & H).
  exists fuel0. intros fuel Hfuel.
  destruct (H fuel Hfuel) as (st & r & Hq & Hex & _ & Hr & Hd).
  exists r. split; [exact Hq|]. eapply exact_least_meeting; eassumption.
Qed.

(** X3.  On a store of valid binary64 costs, [query_pruned] between two
    distinct edges stops with the least total over the meetings of its own
    two searches: forward along the ascending shortcuts of the edges that
    pass [parent_check] against the high cell, backward along the
    shortcuts its three-way filter admits. *)
Theorem pruned_distance_least (g : @ShortcutGraph float) (s t : Z) :
  valid_costs g ->
  F64.valid_cost (get_edge_cost g t) ->
  s <> t ->
  exists fuel0, forall fuel, (fuel0 <= fuel)%nat ->
    exists r, query_pruned fuel g s t = Some r /\ least_pruned_meeting g s t r.
Proof.
  intros Hcosts Htok Hst.
  destruct (pruned_answer g s t Hcosts Htok Hst) as (fuel0 & H).
  exists fuel0. intros fuel Hfuel.
  destruct (H fuel Hfuel) as (st & r & Hq & [Hopt Hfound] & _ & Hr & Hd).
  exists r. split; [exact Hq|]. unfold least_pruned_meeting. cbv zeta.
  rewrite Hr, Hd. destruct (found st).
  - destruct Hfound as [Hlt Hm]. split; [exact Hlt|]. split; [eauto|exact Hopt].
  - split; [reflexivity|]. intros m total Hm.
    pose proof (Hopt m total Hm) as Hle. rewrite Hfound in Hle.
    pose proof (meets_on_ok _ _ _ _ _ _
                  (pruned_fwd_edge_ok g Hcosts _) (pruned_bwd_edge_ok g Hcosts _)
                  ok_zero Htok _ _ Hm) as Hxy.
    apply le_antisym; [exact Hxy|apply ok_inf|apply le_inf, Hxy|exact Hle].
Qed.

(** X17.  On a store of valid binary64 costs without shortcuts tagged -2,
    whatever [query_pruned] reaches [query_classic] reaches too, at a
    distance that is not greater. *)
Theorem pruned_not_below_classic (g : @ShortcutGraph float) (s t : Z) :
  valid_costs g ->
  F64.valid_cost (get_edge_cost g t) ->
  (forall sc, sc ∈ shortcuts_ g -> sc_inside sc <> -2) ->
  exists fuel0, forall fuel, (fuel0 <= fuel)%nat ->
    exists rc rp,
      query_classic fuel g s t = Some rc /\
      query_pruned fuel g s t = Some rp /\
      (reachable rp = true ->
       reachable rc = true /\ (distance rc <=? distance rp)%float = true).
Proof.
  intros Hcosts Htok Hno.
  destruct (Z.eq_dec s t) as [Hst|Hst].
  - exists 0%nat. intros fuel _. unfold query_classic, query_pruned.
    destruct (Z.eqb_spec s t) as [_|Hne]; [|contradiction].
    eexists. eexists. split; [reflexivity|]. split; [reflexivity|].
    intros _. cbn [reachable distance]. split; [reflexivity|].
    apply (le_refl (dops := binary64)). rewrite Hst. exact Htok.
  - destruct (classic_answer g Hcosts s t Htok Hst) as (fc & Hc).
    destruct (pruned_answer g s t Hcosts Htok Hst) as (fp & Hp).
    exists (Nat.max fc fp). intros fuel Hfuel.
    destruct (Hp fuel ltac:(lia)) as (stp & rp & Hqp & [_ Hfp] & Hokp & Hrp & Hdp).
    destruct (Hc fuel ltac:(lia)) as (stc & rc & Hqc & [Hoc Hfc] & Hokc & Hrc & Hdc).
    exists rc, rp. split; [exact Hqc|]. split; [exact Hqp|].
    rewrite Hrp, Hrc, Hdp, Hdc. intros Hfound. rewrite Hfound in Hfp |- *.
    destruct Hfp as [Hlt Hm].
    pose proof (Hoc _ _ (pruned_meets_classic g s t _ _ Hno Hm)) as Hle.
    destruct (found stc).
    + split; [reflexivity|exact Hle].
    + rewrite Hfc in Hle. apply (le_iff (dops := binary64)) in Hle; [|apply ok_inf|assumption].
      cbn [dinf dlt binary64] in Hle, Hlt. congruence.
Qed.

End Binary64Queries.

(** ** Stores of binary64 costs *)

(** Edges 10 and 30 in one resolution-1 cell, edge 20 in a sibling; an
    ascending shortcut 10 -> 20 of cost 7, an ascending shortcut 10 -> 30
    of cost 2 and a descending shortcut 30 -> 20 of cost 3. *)
Definition triangle_rows : list (@ShortcutRow float) :=
  [row 10 20 7%float 1; row 10 30 2%float 1; row 30 20 3%float (-1)].

Definition triangle_meta : list (Z * @EdgeMeta float) :=
  [(10, edge_meta cell_r1_a 2%float); (20, edge_meta cell_r1_b 1%float);
   (30, edge_meta cell_r1_a 4%float)].

Definition triangle_store : @ShortcutGraph float := store_of triangle_rows triangle_meta.

(** The same store with two lateral shortcuts more: 10 -> 20 of cost 9,
    which the classic search walks backward from 20 and the pruned search
    rejects there, and 40 -> 50 between two edges no search reaches. *)
Definition detour_store : @ShortcutGraph float :=
  store_of (triangle_rows ++ [row 10 20 9%float 0; row 40 50 5%float 0]) triangle_meta.

(** Edge 10 with an infinite cost. *)
Definition infinite_store : @ShortcutGraph float :=
  store_of [row 10 20 7%float 1]
           [(10, edge_meta cell_r1_a infinity); (20, edge_meta cell_r1_b 1%float)].

Lemma triangle_costs : valid_costs triangle_store.
Proof.
  intros sc Hsc. vm_compute in Hsc.
  repeat (apply elem_of_cons in Hsc as [->|Hsc]); [..|apply elem_of_nil in Hsc; destruct Hsc];
    vm_compute; reflexivity.
Qed.

Lemma detour_costs : valid_costs detour_store.
Proof.
  intros sc Hsc. vm_compute in Hsc.
  repeat (apply elem_of_cons in Hsc as [->|Hsc]); [..|apply elem_of_nil in Hsc; destruct Hsc];
    vm_compute; reflexivity.
Qed.

Lemma detour_tags sc : sc ∈ shortcuts_ detour_store -> sc_inside sc <> -2.
Proof.
  intros Hsc. vm_compute in Hsc.
  repeat (apply elem_of_cons in Hsc as [->|Hsc]); [..|apply elem_of_nil in Hsc; destruct Hsc];
    discriminate.
Qed.

(** On [detour_store] the pruning acts: backward from 20 the classic
    search relaxes the lateral shortcut from 10, the pruned search does
    not. *)
Lemma detour_pruning_acts :
  bwd_targets detour_store (adjacent (bwd_adj_ detour_store) 20)
    = [(30, 3%float); (10, 9%float)] /\
  pruned_bwd_targets detour_store
    (pruned_check (h3 := H3Ref.api) detour_store
       (compute_high_cell (h3 := H3Ref.api) detour_store 10 20) 20)
    (get_edge_cell detour_store 20
       =? hc_cell (compute_high_cell (h3 := H3Ref.api) detour_store 10 20))
    (adjacent (bwd_adj_ detour_store) 20)
    = [(30, 3%float)].
Proof. split; vm_compute; reflexivity. Qed.




(** C3, counterexample.  Edge 10 has metadata and the valid cost
    +infinity.  [query_classic] from 10 to 10 answers at once that 10 is
    reached, at distance +infinity; [query_multi] seeds both searches at
    10, never finds a total below its initial bound +infinity, and reports
    that the target is not reached, at distance -1. *)
Lemma multi_classic_differ :
  is_Some (edge_meta_ infinite_store !! 10) /\
  query_classic 4 infinite_store 10 10
    = Some {| distance := infinity; path := [10]; reachable := true |} /\
  query_multi 4 infinite_store [10] [0%float] [10] [0%float]
    = Some {| distance := (-1)%float; path := []; reachable := false |}.
Proof. split; [vm_compute; eauto|]. split; vm_compute; reflexivity. Qed.

(** C3 as amended, on [triangle_store] from 10 to 20. *)
Lemma multi_single_matches_classic_witness :
  exists fuel0, forall fuel, (fuel0 <= fuel)%nat ->
    exists rc rm,
      query_classic fuel triangle_store 10 20 = Some rc /\
      query_multi fuel triangle_store [10] [0%float] [20] [0%float] = Some rm /\
      distance rm = distance rc /\ reachable rm = reachable rc.
Proof.
  apply (multi_single_matches_classic triangle_store 10 20).
  - exact triangle_costs.
  - vm_compute. reflexivity.
  - vm_compute. reflexivity.
  - vm_compute. eauto.
  - vm_compute. eauto.
Defined.

Lemma classic_distance_least_witness :
  exists fuel0, forall fuel, (fuel0 <= fuel)%nat ->
    exists r, query_classic fuel triangle_store 10 20 = Some r /\
              least_meeting triangle_store 10 20 r.
Proof.
  apply (classic_distance_least triangle_store 10 20).
  - exact triangle_costs.
  - vm_compute. reflexivity.
  - lia.
Defined.

Lemma multi_distance_least_witness :
  exists fuel0, forall fuel, (fuel0 <= fuel)%nat ->
    exists r, query_multi fuel triangle_store [10] [0%float] [20] [0%float] = Some r /\
              least_meeting triangle_store 10 20 r.
Proof.
  apply (multi_distance_least triangle_store 10 20).
  - exact triangle_costs.
  - vm_compute. reflexivity.
  - vm_compute. eauto.
  - vm_compute. eauto.
Defined.

Lemma pruned_distance_least_witness :
  exists fuel0, forall fuel, (fuel0 <= fuel)%nat ->
    exists r, query_pruned (h3 := H3Ref.api) fuel detour_store 10 20 = Some r /\
              least_pruned_meeting (h3 := H3Ref.api) detour_store 10 20 r.
Proof.
  apply (pruned_distance_least (h3 := H3Ref.api) detour_store 10 20).
  - exact detour_costs.
  - vm_compute. reflexivity.
  - lia.
Defined.

Lemma pruned_not_below_classic_witness :
  exists fuel0, forall fuel, (fuel0 <= fuel)%nat ->
    exists rc rp,
      query_classic fuel detour_store 10 20 = Some rc /\
      query_pruned (h3 := H3Ref.api) fuel detour_store 10 20 = Some rp /\
      (reachable rp = true ->
       reachable rc = true /\ (distance rc <=? distance rp)%float = true).
Proof.
  apply (pruned_not_below_classic (h3 := H3Ref.api) detour_store 10 20).
  - exact detour_costs.
  - vm_compute. reflexivity.
  - exact detour_tags.
Defined.

(** * Further properties of the code *)

(** ** h3_utils.cpp *)

Section H3UtilsMore.
Context {h3 : H3Api}.

Lemma lca_climb_swap rounds : forall min_res c1 c2,
  lca_climb rounds min_res c2 c1 =
  ((lca_climb rounds min_res c1 c2).2, (lca_climb rounds min_res c1 c2).1).
Proof.
  induction rounds as [|n IH]; intros min_res c1 c2; [reflexivity|].
  cbn [lca_climb]. rewrite (Z.eqb_sym c2 c1).
  destruct (negb (c1 =? c2) && (0 <? min_res)); [|reflexivity].
  apply IH.
Qed.

(** X5.  The lowest common ancestor does not depend on the order of its
    arguments. *)
Theorem find_lca_comm (cell1 cell2 : Z) :
  find_lca cell1 cell2 = find_lca cell2 cell1.
Proof.
  unfold find_lca. rewrite (orb_comm (cell2 =? 0)).
  destruct ((cell1 =? 0) || (cell2 =? 0)); [reflexivity|]. cbv zeta.
  set (r1 := getResolution cell1). set (r2 := getResolution cell2).
  assert ((if r2 <? r1 then r2 else r1) = (if r1 <? r2 then r1 else r2)) as ->.
  { destruct (Z.ltb_spec r1 r2), (Z.ltb_spec r2 r1); lia. }
  set (m := if r1 <? r2 then r1 else r2).
  rewrite (lca_climb_swap _ m
             (if m <? r1 then cell_to_parent cell1 m else cell1)
             (if m <? r2 then cell_to_parent cell2 m else cell2)).
  destruct (lca_climb _ m _ _) as [a b]. cbn [fst snd].
  destruct (Z.eqb_spec a b) as [->|Hab].
  - rewrite Z.eqb_refl. reflexivity.
  - destruct (Z.eqb_spec b a); [congruence|reflexivity].
Qed.

Context {h3_laws : H3Laws h3}.

(** X6.  [cell_to_parent] never answers with a cell finer than the one it was
    given, nor finer than the resolution asked for. *)
Theorem cell_to_parent_not_finer (cell target_res : Z) :
  cell_to_parent cell target_res <> 0 ->
  get_resolution (cell_to_parent cell target_res) <= get_resolution cell /\
  (get_resolution cell <= target_res \/
   get_resolution (cell_to_parent cell target_res) = target_res).
Proof.
  unfold cell_to_parent, get_resolution.
  destruct (Z.eqb_spec cell 0) as [->|Hc]; [cbn [orb]; congruence|].
  destruct (Z.ltb_spec target_res 0) as [Hr|Hr]; cbn [orb]; [congruence|].
  cbv zeta. destruct (Z.geb_spec target_res (getResolution cell)) as [Hge|Hlt].
  - intros _. destruct (Z.eqb_spec cell 0); [contradiction|]. split; [lia|left; lia].
  - destruct (cellToParent cell target_res) as [p|] eqn:Hp; [|congruence].
    intros Hp0. destruct (Z.eqb_spec p 0); [contradiction|].
    rewrite (cellToParent_resolution cell target_res p Hp Hp0).
    split; [lia|right; reflexivity].
Qed.

End H3UtilsMore.

Section HighCellFacts.
Context {D : Type} {dops : DoubleOps D} {h3 : H3Api} {h3_laws : H3Laws h3}.

(** X7.  The high cell of a query is either the disabled constraint, cell 0 at
    resolution -1, or a cell with its own resolution; without metadata for
    one of the edges, or with an edge that has no cell, it is the disabled
    one, which every node passes. *)
Theorem compute_high_cell_shape (g : @ShortcutGraph D) (s t : Z) :
  (hc_cell (compute_high_cell g s t) = 0 /\ hc_res (compute_high_cell g s t) = -1 \/
   hc_cell (compute_high_cell g s t) <> 0 /\
   hc_res (compute_high_cell g s t) = get_resolution (hc_cell (compute_high_cell g s t)) /\
   0 <= hc_res (compute_high_cell g s t)) /\
  (get_edge_cell g s = 0 \/ get_edge_cell g t = 0 ->
   compute_high_cell g s t = {| hc_cell := 0; hc_res := -1 |} /\
   forall node_cell,
     parent_check node_cell (hc_cell (compute_high_cell g s t))
       (hc_res (compute_high_cell g s t)) = true).
Proof.
  unfold compute_high_cell, get_edge_cell.
  destruct (edge_meta_ g !! s) as [src|]; [destruct (edge_meta_ g !! t) as [dst|]|].
  - cbv zeta. destruct ((incoming_cell src =? 0) || (incoming_cell dst =? 0)) eqn:Hz.
    + split; [left; split; reflexivity|]. intros _. split; reflexivity.
    + apply orb_false_iff in Hz as [Hs%Z.eqb_neq Ht%Z.eqb_neq]. split.
      * cbn [hc_cell hc_res]. set (l := find_lca _ _).
        destruct (Z.eqb_spec l 0) as [->|Hl]; cbn [negb].
        -- left. split; reflexivity.
        -- right. split; [exact Hl|]. unfold get_resolution.
           destruct (Z.eqb_spec l 0); [contradiction|].
           split; [reflexivity|apply getResolution_nonneg].
      * intros [?|?]; contradiction.
  - split; [left; split; reflexivity|]. intros _. split; reflexivity.
  - split; [left; split; reflexivity|]. intros _. split; reflexivity.
Qed.

End HighCellFacts.

(** ** shortcut_graph.cpp: the loaders *)

Section LoaderMore.
Context {D : Type} {dops : DoubleOps D}.







(** X9.  The narrowing casts of the loader: every stored shortcut has 32-bit
    endpoints and via edge and a 64-bit cell; an endpoint already in range
    is stored as it is; and two rows whose origins differ by 2^32 are
    stored under the same origin. *)
Theorem shortcut_of_row_range (r : @ShortcutRow D) :
  (0 <= sc_from (shortcut_of_row r) < 2 ^ 32 /\
   0 <= sc_to (shortcut_of_row r) < 2 ^ 32 /\
   0 <= sc_via_edge (shortcut_of_row r) < 2 ^ 32 /\
   0 <= sc_cell (shortcut_of_row r) < 2 ^ 64) /\
  (0 <= incoming_edge r < 2 ^ 32 -> sc_from (shortcut_of_row r) = incoming_edge r) /\
  (0 <= outgoing_edge r < 2 ^ 32 -> sc_to (shortcut_of_row r) = outgoing_edge r) /\
  sc_from (shortcut_of_row r) = sc_from (shortcut_of_row
     {| incoming_edge := incoming_edge r + 2 ^ 32; outgoing_edge := outgoing_edge r;
        row_cost := row_cost r; row_via_edge := row_via_edge r;
        row_cell := row_cell r; row_inside := row_inside r |}).
Proof.
  unfold shortcut_of_row, to_uint32, to_uint64. cbn [sc_from sc_to sc_via_edge sc_cell incoming_edge].
  repeat split; try (apply Z.mod_pos_bound; lia).
  - intros H. apply Z.mod_small, H.
  - intros H. apply Z.mod_small, H.
  - rewrite <- (Z.mul_1_l (2 ^ 32)) at 2. rewrite Z.mod_add by lia. reflexivity.
Qed.

End LoaderMore.

Section MetadataMore.
Context {D : Type} {dops : DoubleOps D} {parse : StdParse D}.

Lemma load_meta_lines_keep lines id : forall m : gmap Z (@EdgeMeta D),
  (forall l id' meta', l ∈ lines -> parse_line l = Some (id', meta') -> id' <> id) ->
  foldl load_meta_line m lines !! id = m !! id.
Proof.
  induction lines as [|l lines IH]; intros m Hno; [reflexivity|].
  cbn [foldl]. rewrite IH by (intros l' id' meta' Hin; apply Hno; right; exact Hin).
  unfold load_meta_line. destruct (parse_line l) as [[id' meta']|] eqn:Hl; [|reflexivity].
  apply lookup_insert_ne. apply (Hno l id' meta'); [left|exact Hl].
Qed.

(** X10.  Of the data lines that parse into a record for one edge, the last one
    decides what the edge's metadata is. *)
Theorem load_edge_metadata_last_wins (g : @ShortcutGraph D) content
    before line after id meta :
  data_lines content = before ++ line :: after ->
  parse_line line = Some (id, meta) ->
  (forall l id' meta', l ∈ after -> parse_line l = Some (id', meta') -> id' <> id) ->
  (load_edge_metadata (Some content) g).1 = true /\
  edge_meta_ (load_edge_metadata (Some content) g).2 !! id = Some meta.
Proof.
  intros Hlines Hline Hafter. cbn [load_edge_metadata fst snd set_edge_meta edge_meta_].
  fold (data_lines content). rewrite Hlines, foldl_app. cbn [foldl].
  assert (foldl load_meta_line
            (load_meta_line (foldl load_meta_line ∅ before) line) after !! id = Some meta)
    as Hlook.
  { rewrite (load_meta_lines_keep after id _ Hafter).
    unfold load_meta_line at 1. rewrite Hline. apply lookup_insert_eq. }
  split; [|exact Hlook].
  apply negb_true_iff, bool_decide_eq_false. intros Hempty.
  rewrite Hempty, lookup_empty in Hlook. discriminate.
Qed.

(** *** The field splitter *)

Definition plain_char (c : ascii) : bool :=
  negb (Ascii.eqb c quote) && negb (Ascii.eqb c comma).

(** A field free of quotes and commas. *)
Definition plain (w : string) : bool :=
  forallb plain_char (String.list_ascii_of_string w).

Lemma append_cons a (f w : string) : String a f +:+ w = String a (f +:+ w).
Proof. reflexivity. Qed.

Lemma append_char_assoc (f : string) c w :
  (f +:+ String c EmptyString) +:+ w = f +:+ String c w.
Proof.
  induction f as [|a f IH]; [reflexivity|]. rewrite !append_cons, IH. reflexivity.
Qed.

Lemma append_empty_r (f : string) : f +:+ EmptyString = f.
Proof. induction f as [|a f IH]; [reflexivity|]. rewrite append_cons, IH. reflexivity. Qed.

Lemma csv_plain_field w : forall row f,
  plain w = true ->
  foldl csv_char {| csv_row := row; csv_field := f; csv_in_quotes := false |}
        (String.list_ascii_of_string w)
  = {| csv_row := row; csv_field := f +:+ w; csv_in_quotes := false |}.
Proof.
  induction w as [|c w IH]; intros row f Hw; cbn [String.list_ascii_of_string foldl].
  - rewrite append_empty_r. reflexivity.
  - unfold plain in Hw. cbn [String.list_ascii_of_string forallb] in Hw.
    apply andb_true_iff in Hw as [Hc Hw]. unfold plain_char in Hc.
    apply andb_true_iff in Hc as [Hq%negb_true_iff Hcm%negb_true_iff].
    unfold csv_char at 2. rewrite Hq, Hcm. cbn [andb csv_row csv_field csv_in_quotes].
    rewrite (IH row _ Hw), append_char_assoc. reflexivity.
Qed.

Lemma csv_comma row f :
  csv_char {| csv_row := row; csv_field := f; csv_in_quotes := false |} comma
  = {| csv_row := row ++ [f]; csv_field := EmptyString; csv_in_quotes := false |}.
Proof. reflexivity. Qed.

Lemma list_ascii_of_append (a b : string) :
  String.list_ascii_of_string (a +:+ b)
  = String.list_ascii_of_string a ++ String.list_ascii_of_string b.
Proof.
  induction a as [|c a IH]; [reflexivity|].
  rewrite append_cons. cbn [String.list_ascii_of_string app]. rewrite IH. reflexivity.
Qed.

(** The line a writer produces from plain fields. *)
Fixpoint join_fields (w : string) (ws : list string) : string :=
  match ws with
  | [] => w
  | w' :: ws' => w +:+ String comma (join_fields w' ws')
  end.

Lemma split_join ws : forall w row,
  plain w = true -> forallb plain ws = true ->
  (fun s => csv_row s ++ [csv_field s])
    (foldl csv_char {| csv_row := row; csv_field := EmptyString; csv_in_quotes := false |}
           (String.list_ascii_of_string (join_fields w ws)))
  = row ++ w :: ws.
Proof.
  induction ws as [|w' ws IH]; intros w row Hw Hws; cbn [join_fields].
  - rewrite (csv_plain_field w row EmptyString Hw). reflexivity.
  - cbn [forallb] in Hws. apply andb_true_iff in Hws as [Hw' Hws].
    rewrite list_ascii_of_append, foldl_app, (csv_plain_field w row EmptyString Hw).
    cbn [String.list_ascii_of_string foldl]. rewrite csv_comma.
    pose proof (IH w' (row ++ [w]) Hw' Hws) as H. cbv beta in H.
    rewrite <- app_assoc in H. exact H.
Qed.

(** X11.  Splitting inverts joining: a line made of fields free of quotes and
    commas, separated by commas, splits into those fields. *)
Theorem split_row_join (w : string) (ws : list string) :
  plain w = true -> forallb plain ws = true ->
  split_row (join_fields w ws) = w :: ws.
Proof.
  intros Hw Hws. unfold split_row. cbv zeta.
  apply (split_join ws w [] Hw Hws).
Qed.

(** Quotes only switch the mode of the splitter: no field it returns holds
    a quote character. *)
Definition quote_free (w : string) : Prop :=
  quote ∉ String.list_ascii_of_string w.

Lemma csv_char_quote_free s c :
  Forall quote_free (csv_row s) -> quote_free (csv_field s) ->
  Forall quote_free (csv_row (csv_char s c)) /\ quote_free (csv_field (csv_char s c)).
Proof.
  intros Hrow Hfield. unfold csv_char.
  destruct (Ascii.eqb c quote) eqn:Hq; cbn [csv_row csv_field]; [auto|].
  destruct (Ascii.eqb c comma && negb (csv_in_quotes s)); cbn [csv_row csv_field].
  - split; [|unfold quote_free; cbn; apply not_elem_of_nil].
    apply Forall_app. split; [exact Hrow|]. constructor; [exact Hfield|constructor].
  - split; [exact Hrow|]. unfold quote_free in *.
    rewrite list_ascii_of_append. cbn [String.list_ascii_of_string].
    intros [Hin|Hin]%elem_of_app; [contradiction|].
    apply list_elem_of_singleton in Hin. subst c.
    rewrite Ascii.eqb_refl in Hq. discriminate.
Qed.

(** X12.  Whatever the line, no field of the split row holds a quote character. *)
Theorem split_row_quote_free (line : string) :
  Forall quote_free (split_row line).
Proof.
  unfold split_row. cbv zeta.
  assert (forall chars s,
            Forall quote_free (csv_row s) -> quote_free (csv_field s) ->
            Forall quote_free (csv_row (foldl csv_char s chars)) /\
            quote_free (csv_field (foldl csv_char s chars))) as Hfold.
  { induction chars as [|c chars IH]; intros s Hr Hf; [auto|].
    cbn [foldl]. destruct (csv_char_quote_free s c Hr Hf). apply IH; assumption. }
  destruct (Hfold (String.list_ascii_of_string line)
              {| csv_row := []; csv_field := EmptyString; csv_in_quotes := false |})
    as [Hr Hf].
  - constructor.
  - unfold quote_free. cbn. apply not_elem_of_nil.
  - apply Forall_app. split; [exact Hr|]. constructor; [exact Hf|constructor].
Qed.

End MetadataMore.

(** ** main.cpp

    The command line, the two loads and the choice of the query.  What the
    program prints and the times it measures are left out; a file system
    is the two functions that say what a path names. *)

Section Main.
Context {D : Type} {dops : DoubleOps D} {h3 : H3Api} {parse : StdParse D}.

(** The locals the argument loop fills. *)
Record Options := {
  opt_shortcuts : string;
  opt_edges : string;
  opt_source : Z;
  opt_target : Z;
  opt_algorithm : string
}.

Definition default_options : Options :=
  {| opt_shortcuts := EmptyString; opt_edges := EmptyString;
     opt_source := 0; opt_target := 0; opt_algorithm := "pruned" |}.

Inductive ArgsOutcome :=
| ArgsHelp                    (* print_usage; return 0 *)
| ArgsThrow                   (* std::stoul threw *)
| ArgsDone (o : Options).

(** One round of the [for] loop looks at [argv[i]] and, when it is an
    option with a value and [i + 1 < argc], consumes [argv[i + 1]] too. *)
Fixpoint parse_args (args : list string) (o : Options) : ArgsOutcome :=
  match args with
  | [] => ArgsDone o
  | a :: rest =>
      match rest with
      | v :: rest' =>
          if String.eqb a "--shortcuts" then
            parse_args rest'
              {| opt_shortcuts := v; opt_edges := opt_edges o;
                 opt_source := opt_source o; opt_target := opt_target o;
                 opt_algorithm := opt_algorithm o |}
          else if String.eqb a "--edges" then
            parse_args rest'
              {| opt_shortcuts := opt_shortcuts o; opt_edges := v;
                 opt_source := opt_source o; opt_target := opt_target o;
                 opt_algorithm := opt_algorithm o |}
          else if String.eqb a "--source" then
            match stoul v with
            | Some n =>
                parse_args rest'
                  {| opt_shortcuts := opt_shortcuts o; opt_edges := opt_edges o;
                     opt_source := to_uint32 n; opt_target := opt_target o;
                     opt_algorithm := opt_algorithm o |}
            | None => ArgsThrow
            end
          else if String.eqb a "--target" then
            match stoul v with
            | Some n =>
                parse_args rest'
                  {| opt_shortcuts := opt_shortcuts o; opt_edges := opt_edges o;
                     opt_source := opt_source o; opt_target := to_uint32 n;
                     opt_algorithm := opt_algorithm o |}
            | None => ArgsThrow
            end
          else if String.eqb a "--algorithm" then
            parse_args rest'
              {| opt_shortcuts := opt_shortcuts o; opt_edges := opt_edges o;
                 opt_source := opt_source o; opt_target := opt_target o;
                 opt_algorithm := v |}
          else if String.eqb a "--help" then ArgsHelp
          else parse_args rest o
      | [] =>
          if String.eqb a "--help" then ArgsHelp else ArgsDone o
      end
  end.

Record FileSystem := {
  shortcut_files : string -> @ShortcutPath D;
  edge_files : string -> option string
}.

Inductive MainOutcome :=
| Threw                                         (* an exception left main *)
| Exited (code : Z) (answer : option (@QueryResult D)).

Definition string_empty (s : string) : bool :=
  match s with EmptyString => true | String _ _ => false end.

(** [main], from [argv[1]] on, on the empty store; [None] when the query
    runs out of rounds. *)
Definition main (fuel : nat) (fs : FileSystem) (args : list string) : option MainOutcome :=
  match parse_args args default_options with
  | ArgsHelp => Some (Exited 0 None)
  | ArgsThrow => Some Threw
  | ArgsDone o =>
      if string_empty (opt_shortcuts o) || string_empty (opt_edges o) then
        Some (Exited 1 None)
      else
        let graph := {| shortcuts_ := []; fwd_adj_ := ∅; bwd_adj_ := ∅; edge_meta_ := ∅ |} in
        match load_shortcuts (shortcut_files fs (opt_shortcuts o)) graph with
        | None => Some Threw
        | Some (false, _) => Some (Exited 1 None)
        | Some (true, graph) =>
            match load_edge_metadata (edge_files fs (opt_edges o)) graph with
            | (false, _) => Some (Exited 1 None)
            | (true, graph) =>
                if (opt_source o =? 0) && (opt_target o =? 0) then Some (Exited 0 None)
                else
                  let result :=
                    if String.eqb (opt_algorithm o) "classic"
                    then query_classic fuel graph (opt_source o) (opt_target o)
                    else query_pruned fuel graph (opt_source o) (opt_target o) in
                  match result with
                  | Some r => Some (Exited 0 (Some r))
                  | None => None
                  end
            end
        end
  end.

Definition names_endpoint (a : string) : bool :=
  String.eqb a "--source" || String.eqb a "--target".

Lemma parse_args_no_endpoint : forall n args o,
  (length args <= n)%nat ->
  forallb (fun a => negb (names_endpoint a)) args = true ->
  parse_args args o = ArgsHelp \/
  exists o', parse_args args o = ArgsDone o' /\
             opt_source o' = opt_source o /\ opt_target o' = opt_target o.
Proof.
  induction n as [|n IH]; intros args o Hlen Hno.
  - destruct args; [|cbn in Hlen; lia]. right. exists o. auto.
  - destruct args as [|a rest]; [right; exists o; auto|].
    cbn [forallb] in Hno. apply andb_true_iff in Hno as [Ha Hrest].
    unfold names_endpoint in Ha. apply negb_true_iff, orb_false_iff in Ha as [Hs Ht].
    cbn [length] in Hlen. cbn [parse_args].
    destruct rest as [|v rest'].
    { destruct (String.eqb a "--help"); [left; reflexivity|right; exists o; auto]. }
    rewrite Hs, Ht.
    cbn [forallb] in Hrest. pose proof Hrest as Hrest0.
    apply andb_true_iff in Hrest as [_ Hrest'].
    cbn [length] in Hlen.
    assert (forall o1, opt_source o1 = opt_source o -> opt_target o1 = opt_target o ->
              parse_args rest' o1 = ArgsHelp \/
              exists o', parse_args rest' o1 = ArgsDone o' /\
                         opt_source o' = opt_source o /\ opt_target o' = opt_target o)
      as Hnext.
    { intros o1 H1 H2.
      destruct (IH rest' o1 ltac:(lia) Hrest') as [H|(o' & H & Hs' & Ht')]; [left; exact H|].
      right. exists o'. split; [exact H|]. split; congruence. }
    destruct (String.eqb a "--shortcuts"); [apply Hnext; reflexivity|].
    destruct (String.eqb a "--edges"); [apply Hnext; reflexivity|].
    destruct (String.eqb a "--algorithm"); [apply Hnext; reflexivity|].
    destruct (String.eqb a "--help"); [left; reflexivity|].
    apply (IH (v :: rest') o); [cbn [length]; lia|exact Hrest0].
Qed.

(** X13.  A command line on which neither [--source] nor [--target] occurs runs
    no query: whatever the files hold and however many rounds a query
    would be given, [main] ends, with an exception of a loader or with an
    exit code and no answer. *)
Theorem main_without_endpoints (fuel : nat) (fs : FileSystem) (args : list string) :
  forallb (fun a => negb (names_endpoint a)) args = true ->
  main fuel fs args = Some Threw \/
  exists code, main fuel fs args = Some (Exited code None).
Proof.
  intros Hno. unfold main.
  destruct (parse_args_no_endpoint (length args) args default_options (Nat.le_refl _) Hno)
    as [->|(o & -> & Hs & Ht)]; [right; eauto|].
  cbn [default_options opt_source opt_target] in Hs, Ht.
  destruct (string_empty (opt_shortcuts o) || string_empty (opt_edges o)); [right; eauto|].
  cbv zeta. destruct (load_shortcuts _ _) as [[[|] graph]|]; [|right; eauto|left; reflexivity].
  destruct (load_edge_metadata _ graph) as [[|] graph']; [|right; eauto].
  rewrite Hs, Ht. right. eauto.
Qed.

End Main.

(** ** Examples *)

(** The conversions of [<string>] on decimal integers: leading white space,
    an optional sign, then digits up to the first character that is not
    one, as [strtoul], [strtol] and [strtod] read them in base 10.  A
    fraction, an exponent, a hexadecimal number, [inf] and [nan], which
    [std::stod] also reads, are outside this reader: it stops at their
    first character that is not a digit. *)
Module DecimalParse.

Definition digit (c : ascii) : option Z :=
  let n := Z.of_nat (Ascii.nat_of_ascii c) in
  if (48 <=? n) && (n <=? 57) then Some (n - 48) else None.

(** [isspace] in the C locale. *)
Definition is_space (c : ascii) : bool :=
  let n := Z.of_nat (Ascii.nat_of_ascii c) in
  (n =? 32) || ((9 <=? n) && (n <=? 13)).

Fixpoint skip_space (s : string) : string :=
  match s with
  | String c rest => if is_space c then skip_space rest else s
  | EmptyString => s
  end.

(** The value of the longest prefix of digits; [None] when there is no
    digit, where the library throws [std::invalid_argument]. *)
Fixpoint digits_prefix (acc : Z) (seen : bool) (s : string) : option Z :=
  match s with
  | String c rest =>
      match digit c with
      | Some d => digits_prefix (10 * acc + d) true rest
      | None => if seen then Some acc else None
      end
  | EmptyString => if seen then Some acc else None
  end.

(** Whether a minus sign was read, and the magnitude. *)
Definition signed (s : string) : option (bool * Z) :=
  match skip_space s with
  | String "-" rest => pair true <$> digits_prefix 0 false rest
  | String "+" rest => pair false <$> digits_prefix 0 false rest
  | rest => pair false <$> digits_prefix 0 false rest
  end.

(** [std::stoul] and [std::stoull] on 64 bits: a magnitude above
    [ULONG_MAX] is [std::out_of_range]; a minus sign negates modulo
    2^64. *)
Definition unsigned_long (s : string) : option Z :=
  match signed s with
  | Some (negative, v) =>
      if 2 ^ 64 <=? v then None
      else Some (if negative then (2 ^ 64 - v) mod 2 ^ 64 else v)
  | None => None
  end.

(** [std::stoi]: [std::out_of_range] outside [int]. *)
Definition int (s : string) : option Z :=
  match signed s with
  | Some (negative, v) =>
      let x := if negative then - v else v in
      if (- 2 ^ 31 <=? x) && (x <? 2 ^ 31) then Some x else None
  | None => None
  end.

(** [std::stod]: the integer rounded to binary64; [std::out_of_range]
    when it overflows. *)
Definition double (s : string) : option float :=
  match signed s with
  | Some (negative, v) =>
      let x := SF2Prim (binary_normalize prec emax (if negative then - v else v) 0 negative) in
      if is_infinity x then None else Some x
  | None => None
  end.

Definition reader : StdParse float :=
  {| stoul := unsigned_long; stoull := unsigned_long; stoi := int; stod := double |}.

(** A header and two records for edge 42; the later one has cost 9. *)
Definition header : string := "a,b,length,c,d,e,cost,incoming,outgoing,res,id".
Definition first_record : string := "x,y,5,z,u,v,7,100,200,3,42".
Definition second_record : string := "x,y,6,z,u,v,9,100,200,3,42".

Definition two_records : string :=
  header +:+ String newline (first_record +:+ String newline second_record).

End DecimalParse.

Lemma cell_to_parent_not_finer_witness :
  get_resolution (h3 := H3Ref.api) (cell_to_parent (h3 := H3Ref.api) Scenario.cell_r1_a 0)
    <= get_resolution (h3 := H3Ref.api) Scenario.cell_r1_a /\
  (get_resolution (h3 := H3Ref.api) Scenario.cell_r1_a <= 0 \/
   get_resolution (h3 := H3Ref.api) (cell_to_parent (h3 := H3Ref.api) Scenario.cell_r1_a 0) = 0).
Proof.
  apply (cell_to_parent_not_finer (h3_laws := H3RefFacts.laws) Scenario.cell_r1_a 0).
  vm_compute. discriminate.
Defined.

Lemma load_edge_metadata_last_wins_witness :
  (load_edge_metadata (parse := DecimalParse.reader) (Some DecimalParse.two_records)
     empty_store).1 = true /\
  edge_meta_ (load_edge_metadata (parse := DecimalParse.reader)
                (Some DecimalParse.two_records) empty_store).2 !! 42
  = Some {| incoming_cell := 100; outgoing_cell := 200; lca_res := 3;
            meta_length := 6%float; meta_cost := 9%float |}.
Proof.
  apply (load_edge_metadata_last_wins (parse := DecimalParse.reader)
           empty_store DecimalParse.two_records
           [DecimalParse.first_record] DecimalParse.second_record []).
  - vm_compute. reflexivity.
  - vm_compute. reflexivity.
  - intros l id' meta' Hin. apply elem_of_nil in Hin. destruct Hin.
Defined.

Lemma split_row_join_witness :
  split_row (join_fields "id" ["cost"; "cell"]) = ["id"; "cost"; "cell"].
Proof.
  apply (split_row_join "id" ["cost"; "cell"]); reflexivity.
Defined.

(** A file system in which every path of shortcuts names one file with one
    row, and every path of edges the two records above. *)
Definition example_files : @FileSystem float :=
  {| shortcut_files := fun _ => SingleFile (Some [[row 10 20 7%float 1]]);
     edge_files := fun _ => Some DecimalParse.two_records |}.

(** [--help] after [--shortcuts] is the path of the shortcuts, not a
    request for help. *)
Lemma main_without_endpoints_witness :
  main (h3 := H3Ref.api) (parse := DecimalParse.reader)
    0 example_files ["--shortcuts"; "--help"; "--edges"; "edges.csv"] = Some Threw \/
  exists code,
    main (h3 := H3Ref.api) (parse := DecimalParse.reader)
      0 example_files ["--shortcuts"; "--help"; "--edges"; "edges.csv"]
    = Some (Exited code None).
Proof.
  apply (main_without_endpoints (h3 := H3Ref.api)
           (parse := DecimalParse.reader) 0 example_files
           ["--shortcuts"; "--help"; "--edges"; "edges.csv"]).
  reflexivity.
Defined.

(** The high cell of [triangle_store] for the query from 10 to 20. *)
Definition triangle_high : HighCell :=
  compute_high_cell (h3 := H3Ref.api) triangle_store 10 20.

Lemma compute_high_cell_shape_witness :
  (hc_cell triangle_high = 0 /\ hc_res triangle_high = -1 \/
   hc_cell triangle_high <> 0 /\
   hc_res triangle_high = get_resolution (h3 := H3Ref.api) (hc_cell triangle_high) /\
   0 <= hc_res triangle_high) /\
  (get_edge_cell triangle_store 10 = 0 \/ get_edge_cell triangle_store 20 = 0 ->
   triangle_high = {| hc_cell := 0; hc_res := -1 |} /\
   forall node_cell,
     parent_check (h3 := H3Ref.api) node_cell (hc_cell triangle_high) (hc_res triangle_high)
     = true).
Proof.
  apply (compute_high_cell_shape (h3 := H3Ref.api) (h3_laws := H3RefFacts.laws)
           triangle_store 10 20).
Defined.

(** ** How many rounds a search takes *)

Section Rounds.
Context {D : Type} {dops : DoubleOps D} {ok : D -> Prop} {laws : CostLaws dops ok}.

(** The number of entries of an adjacency index. *)
Definition adjacency_size (adj : gmap Z (list nat)) : nat :=
  sum_list_with (fun ul : Z * list nat => length ul.2) (map_to_list adj).

Lemma weight_empty (adj : gmap Z (list nat)) : weight adj ∅ = adjacency_size adj.
Proof.
  unfold weight, adjacency_size. apply sum_list_with_ext.
  intros [u l] _. cbn [fst snd]. rewrite lookup_empty. reflexivity.
Qed.

End Rounds.

(** X15.  On a store of valid binary64 costs, the loop of [query_classic]
    between two distinct edges ends within three rounds more than the two
    indices have entries. *)
Theorem classic_rounds_bound (g : @ShortcutGraph float) (s t : Z) (fuel : nat) :
  valid_costs g ->
  F64.valid_cost (get_edge_cost g t) ->
  s <> t ->
  (3 + adjacency_size (fwd_adj_ g) + adjacency_size (bwd_adj_ g) <= fuel)%nat ->
  is_Some (query_classic fuel g s t).
Proof.
  intros Hcosts Htok Hst Hfuel.
  destruct (classic_loop_spec (laws := binary64_laws) g Hcosts s t dzero (get_edge_cost g t)
              (@ok_zero _ _ _ binary64_laws) Htok (S (measure g (single_init g s t) ∅ ∅)) _ ∅ ∅
              (single_init_inv (laws := binary64_laws) g s t Htok false Hst))
    as (st & rf & rb & Hloop & Hinv & _); [lia|].
  destruct (stopped_finish g s t dzero (get_edge_cost g t) false st rf rb Hinv)
    as (r & Hr & _).
  exists r. unfold query_classic.
  destruct (Z.eqb_spec s t) as [->|_]; [contradiction|].
  assert (S (measure g (single_init g s t) ∅ ∅) <= fuel)%nat as Hle.
  { unfold measure, fwd_measure, bwd_measure. rewrite !weight_empty.
    cbn [single_init seeded pq_fwd pq_bwd heap_push app length]. lia. }
  rewrite (classic_loop_more g _ fuel _ _ Hle Hloop). exact Hr.
Qed.

(** Nine rounds are enough on [triangle_store], whose indices have three
    entries each. *)
Lemma classic_rounds_bound_witness :
  is_Some (query_classic 9 triangle_store 10 20).
Proof.
  apply (classic_rounds_bound triangle_store 10 20 9).
  - exact triangle_costs.
  - vm_compute. reflexivity.
  - lia.
  - vm_compute. lia.
Defined.

(** ** The endpoints of [query_multi] *)

Section MultiEndpoints.
Context {D : Type} {dops : DoubleOps D}.

(** The pairs of an edge and its offset where the edge has metadata. *)
Definition known_pairs (g : @ShortcutGraph D) (pairs : list (Z * D)) : list (Z * D) :=
  filter (fun p => is_Some (edge_meta_ g !! p.1)) pairs.

Lemma multi_seed_source_known (g : @ShortcutGraph D) pairs : forall st,
  foldl (multi_seed_source g) st pairs
  = foldl (multi_seed_source g) st (known_pairs g pairs).
Proof.
  induction pairs as [|[e d] pairs IH]; intros st; [reflexivity|].
  unfold known_pairs. rewrite filter_cons. cbn [fst].
  destruct (decide (is_Some (edge_meta_ g !! e))) as [Hyes|Hno]; cbn [foldl].
  - apply IH.
  - rewrite IH. f_equal. unfold multi_seed_source.
    destruct (edge_meta_ g !! e); [|reflexivity]. destruct Hno. eauto.
Qed.

Lemma multi_seed_target_known (g : @ShortcutGraph D) pairs : forall st,
  foldl (multi_seed_target g) st pairs
  = foldl (multi_seed_target g) st (known_pairs g pairs).
Proof.
  induction pairs as [|[e d] pairs IH]; intros st; [reflexivity|].
  unfold known_pairs. rewrite filter_cons. cbn [fst].
  destruct (decide (is_Some (edge_meta_ g !! e))) as [Hyes|Hno]; cbn [foldl].
  - apply IH.
  - rewrite IH. f_equal. unfold multi_seed_target.
    destruct (edge_meta_ g !! e); [|reflexivity]. destruct Hno. eauto.
Qed.

(** X16.  [query_multi] drops the endpoints that have no metadata: the query is
    the query on the endpoints that have, whatever the number of rounds;
    and with no such source and no such target it answers at once that the
    target is unreachable. *)
Theorem query_multi_unknown_endpoints (g : @ShortcutGraph D) (fuel : nat)
    (source_edges : list Z) (source_dists : list D)
    (target_edges : list Z) (target_dists : list D) :
  query_multi fuel g source_edges source_dists target_edges target_dists
  = query_multi fuel g
      (known_pairs g (zip source_edges source_dists)).*1
      (known_pairs g (zip source_edges source_dists)).*2
      (known_pairs g (zip target_edges target_dists)).*1
      (known_pairs g (zip target_edges target_dists)).*2 /\
  (known_pairs g (zip source_edges source_dists) = [] ->
   known_pairs g (zip target_edges target_dists) = [] ->
   query_multi fuel g source_edges source_dists target_edges target_dists
   = Some {| distance := dneg1; path := []; reachable := false |}).
Proof.
  assert (multi_init g source_edges source_dists target_edges target_dists
          = foldl (multi_seed_target g)
              (foldl (multi_seed_source g) (seeded ∅ ∅ ∅ ∅ [] [])
                 (known_pairs g (zip source_edges source_dists)))
              (known_pairs g (zip target_edges target_dists))) as Hinit.
  { unfold multi_init. cbv zeta.
    rewrite multi_seed_target_known, multi_seed_source_known. reflexivity. }
  split.
  - unfold query_multi. rewrite Hinit. unfold multi_init. cbv zeta.
    rewrite !zip_fst_snd. reflexivity.
  - intros Hs Ht. unfold query_multi. rewrite Hinit, Hs, Ht. cbn [foldl].
    destruct fuel; reflexivity.
Qed.

End MultiEndpoints.

